(** * A shallow embedding of the EXPLOITFINDER crawler

    The development follows the two crawler scripts of the repository:
    the form-submitting crawler (src/unnamed/part_001) and the older
    src/advanced-crawler.js.  Pure extraction code (link, form and
    inline-script heuristics, the JSON walk) is embedded as functions;
    the crawl loop and the page sessions, which share the module-level
    sets [visited], [linksFound], ... and interleave at every [await],
    are embedded as a step function over an explicit state, one event
    per synchronous segment of the JavaScript.

    What the scripts consume as a capability is kept abstract or is
    data of an event: the WHATWG [URL] class is an interface
    ([UrlApi]), with a small executable instance used to evaluate
    concrete inputs (the one fact about origins that a statement
    assumes of the class, [originLaw], is proved of it); the rendered
    page (puppeteer) and the parsed DOM (cheerio) appear as the values
    they hand to the scripts.

    Strings are byte strings; [toLowerCase], [toUpperCase], the [i]
    flag and [\s] are modelled on ASCII. *)

From Stdlib Require Import String Ascii List ListSet Bool Arith PeanoNat NArith Lia.
From Stdlib Require Import DecimalString Wellfounded Relation_Operators.
Import ListNotations.
Set Warnings "-register-all".
Open Scope list_scope.
Open Scope string_scope.

(** ** JavaScript strings and insertion-ordered sets *)

Module Js.

Definition dquote : ascii := "034"%char.
Definition squote : ascii := "039"%char.

(** [s.startsWith(p)] *)
Fixpoint startsWith (s p : string) {struct p} : bool :=
  match p with
  | EmptyString => true
  | String b p' =>
      match s with
      | EmptyString => false
      | String a s' => Ascii.eqb a b && startsWith s' p'
      end
  end.

(** [s.includes(p)] *)
Fixpoint includes (s p : string) : bool :=
  startsWith s p ||
  match s with
  | EmptyString => false
  | String _ s' => includes s' p
  end.

(** [s.endsWith("/")] and friends, for a one-character suffix. *)
Fixpoint endsWithChar (s : string) (c : ascii) : bool :=
  match s with
  | EmptyString => false
  | String a EmptyString => Ascii.eqb a c
  | String _ s' => endsWithChar s' c
  end.

Fixpoint hasChar (s : string) (c : ascii) : bool :=
  match s with
  | EmptyString => false
  | String a s' => Ascii.eqb a c || hasChar s' c
  end.

(** [s.split(c)[0]]: the part of [s] before the first [c]. *)
Fixpoint before (c : ascii) (s : string) : string :=
  match s with
  | EmptyString => EmptyString
  | String a s' => if Ascii.eqb a c then EmptyString else String a (before c s')
  end.

(** [s.substring(0, s.lastIndexOf(c) + 1)]: up to and including the
    last [c]; empty when [c] does not occur. *)
Fixpoint uptoLast (c : ascii) (s : string) : string :=
  match s with
  | EmptyString => EmptyString
  | String a s' => if hasChar s c then String a (uptoLast c s') else EmptyString
  end.

Definition is_upper (c : ascii) : bool :=
  ((65 <=? nat_of_ascii c) && (nat_of_ascii c <=? 90))%nat.
Definition is_lower (c : ascii) : bool :=
  ((97 <=? nat_of_ascii c) && (nat_of_ascii c <=? 122))%nat.
Definition is_digit (c : ascii) : bool :=
  ((48 <=? nat_of_ascii c) && (nat_of_ascii c <=? 57))%nat.

Definition lower (c : ascii) : ascii :=
  if is_upper c then ascii_of_nat (nat_of_ascii c + 32) else c.
Definition upper (c : ascii) : ascii :=
  if is_lower c then ascii_of_nat (nat_of_ascii c - 32) else c.

Fixpoint smap (f : ascii -> ascii) (s : string) : string :=
  match s with
  | EmptyString => EmptyString
  | String a s' => String (f a) (smap f s')
  end.

Definition toLowerCase : string -> string := smap lower.
Definition toUpperCase : string -> string := smap upper.

(** [a || d] on an attribute that cheerio reports as [undefined]
    ([None]) or as a possibly empty string: the empty string is falsy. *)
Definition orElse (a : option string) (d : string) : string :=
  match a with
  | Some (String c s) => String c s
  | _ => d
  end.

(** Truthiness of a possibly undefined string. *)
Definition truthy (a : option string) : bool :=
  match a with
  | Some (String _ _) => true
  | _ => false
  end.

(** Decimal rendering of a number inside a template literal. *)
Definition ofNat (n : nat) : string := NilEmpty.string_of_uint (Nat.to_uint n).

(** A JavaScript [Set] of strings keeps insertion order: [add] appends
    an absent element and leaves the set unchanged otherwise. *)
Definition SetOf (A : Type) := list A.
Definition has (x : string) (s : SetOf string) : bool := set_mem string_dec x s.
Definition add (x : string) (s : SetOf string) : SetOf string := set_add string_dec x s.

(** [xs.forEach(x => s.add(x))] *)
Definition addAll (xs : list string) (s : SetOf string) : SetOf string :=
  fold_left (fun acc x => add x acc) xs s.

End Js.

(** ** The platform's URL class *)

(** [new URL(input, base)] either throws ([None]) or yields an object
    with a serialisation, an origin and a pathname.  The crawler never
    looks inside; it is an interface here. *)
Class UrlApi := {
  URL : Type;
  URL_new : string -> option string -> option URL;
  URL_toString : URL -> string;
  URL_origin : URL -> string;
  URL_pathname : URL -> string
}.

(** ** Findings of one extraction pass *)

(** [inputData] of a form control. *)
Record InputData := {
  in_name : string;
  in_type : string;
  in_id : string;
  in_value : string;
  in_required : bool;
  in_placeholder : string
}.

(** [formDetails]. *)
Record FormDetails := {
  fm_url : string;
  fm_action : string;
  fm_method : string;
  fm_id : string;
  fm_name : string;
  fm_class : string;
  fm_fields : list InputData
}.

(** [requestData] of an intercepted request. *)
Record RequestData := {
  rq_url : string;
  rq_method : string;
  rq_headers : list (string * string);
  rq_postData : option string;
  rq_resourceType : string
}.

(** [pageData].  [forms] is a [Set] of objects: object identity never
    merges two entries, so it is a plain list. *)
Record PageData := {
  links : Js.SetOf string;
  forms : list FormDetails;
  endpoints : Js.SetOf string;
  reactComponents : Js.SetOf string;
  jsFrameworks : Js.SetOf string;
  requestsToReplicateForPage : list RequestData
}.

Definition emptyPageData : PageData :=
  {| links := []; forms := []; endpoints := []; reactComponents := [];
     jsFrameworks := []; requestsToReplicateForPage := [] |}.

Definition addLink (l : string) (pd : PageData) : PageData :=
  {| links := Js.add l (links pd); forms := forms pd; endpoints := endpoints pd;
     reactComponents := reactComponents pd; jsFrameworks := jsFrameworks pd;
     requestsToReplicateForPage := requestsToReplicateForPage pd |}.

Definition addEndpoint (e : string) (pd : PageData) : PageData :=
  {| links := links pd; forms := forms pd; endpoints := Js.add e (endpoints pd);
     reactComponents := reactComponents pd; jsFrameworks := jsFrameworks pd;
     requestsToReplicateForPage := requestsToReplicateForPage pd |}.

Definition addForm (f : FormDetails) (pd : PageData) : PageData :=
  {| links := links pd; forms := forms pd ++ [f]; endpoints := endpoints pd;
     reactComponents := reactComponents pd; jsFrameworks := jsFrameworks pd;
     requestsToReplicateForPage := requestsToReplicateForPage pd |}.

Definition addFramework (f : string) (pd : PageData) : PageData :=
  {| links := links pd; forms := forms pd; endpoints := endpoints pd;
     reactComponents := reactComponents pd; jsFrameworks := Js.add f (jsFrameworks pd);
     requestsToReplicateForPage := requestsToReplicateForPage pd |}.

Definition addReactComponent (c : string) (pd : PageData) : PageData :=
  {| links := links pd; forms := forms pd; endpoints := endpoints pd;
     reactComponents := Js.add c (reactComponents pd); jsFrameworks := jsFrameworks pd;
     requestsToReplicateForPage := requestsToReplicateForPage pd |}.

Definition pushRequest (r : RequestData) (pd : PageData) : PageData :=
  {| links := links pd; forms := forms pd; endpoints := endpoints pd;
     reactComponents := reactComponents pd; jsFrameworks := jsFrameworks pd;
     requestsToReplicateForPage := requestsToReplicateForPage pd ++ [r] |}.

(** ** The JSON walk ([extractDataFromJson]) *)

(** A parsed JSON body.  An object is the list of its own enumerable
    properties in [for ... in] order; a number keeps its literal text
    (the walk never inspects it). *)
Inductive JSON :=
| JNull
| JBool (b : bool)
| JNumber (literal : string)
| JString (s : string)
| JArray (items : list JSON)
| JObject (props : list (string * JSON)).

Section JsonWalk.
Context `{UrlApi}.

(** The test of line 81: a value that looks like a URL or a path. *)
Definition jsonUrlShaped (value : string) : bool :=
  Js.startsWith value "/" || Js.startsWith value "http://" || Js.startsWith value "https://".

Definition sensitiveKey (key : string) : bool :=
  Js.includes (Js.toLowerCase key) "token" || Js.includes (Js.toLowerCase key) "session".

Definition sensitiveMarker (key basePageUrl : string) : string :=
  "[JSON_SENSITIVE_KEY] " ++ key ++ " on " ++ basePageUrl.

(** The body of the loop for a property whose value is a string
    (lines 79-97 of part_001). *)
Definition onStringProperty (key value basePageUrl : string) (pageData : PageData) : PageData :=
  let pd1 :=
    if jsonUrlShaped value then
      match URL_new value (Some basePageUrl) with
      | None => pageData
      | Some u =>
          let fullUrl := Js.before "#" (URL_toString u) in
          match URL_new basePageUrl None with
          | None => pageData
          | Some b =>
              if Js.startsWith fullUrl (URL_origin b)
              then addLink fullUrl pageData
              else addEndpoint ("[JSON_API_RESPONSE] " ++ fullUrl) pageData
          end
      end
    else pageData in
  if sensitiveKey key
  then addEndpoint (sensitiveMarker key basePageUrl) pd1
  else pd1.

(** [typeof] of an array is ["object"], so the first branch of the
    source handles arrays as well, with the indices as keys; the
    [Array.isArray] branch is never reached with an array.  [typeof null]
    is ["object"] too: the recursive call on it does nothing. *)
Fixpoint extractDataFromJson (jsonData : JSON) (basePageUrl : string)
  (pageData : PageData) {struct jsonData} : PageData :=
  match jsonData with
  | JObject props =>
      (fix eachProp (ps : list (string * JSON)) (pd : PageData) : PageData :=
         match ps with
         | [] => pd
         | (key, value) :: rest =>
             eachProp rest
               match value with
               | JString v => onStringProperty key v basePageUrl pd
               | JNull | JArray _ | JObject _ => extractDataFromJson value basePageUrl pd
               | JBool _ | JNumber _ => pd
               end
         end) props pageData
  | JArray items =>
      (fix eachItem (i : nat) (vs : list JSON) (pd : PageData) : PageData :=
         match vs with
         | [] => pd
         | value :: rest =>
             eachItem (S i) rest
               match value with
               | JString v => onStringProperty (Js.ofNat i) v basePageUrl pd
               | JNull | JArray _ | JObject _ => extractDataFromJson value basePageUrl pd
               | JBool _ | JNumber _ => pd
               end
         end) 0 items pageData
  | JNull | JBool _ | JNumber _ | JString _ => pageData
  end.

End JsonWalk.

(** ** Regular expressions of the inline-script heuristics *)

(** A backtracking matcher for the constructs the eight patterns use:
    literals, character classes, greedy [*] and [+] on a class, greedy
    [?] on a group, alternation and capture groups.  Alternatives are
    tried in the order of the ECMAScript matcher (left alternative
    first, longest repetition first), so the first success is the
    match [RegExp.prototype.exec] reports. *)
Module Regex.

Inductive regex :=
| Eps
| Chr (c : ascii)
| Cls (p : ascii -> bool)
| Cat (r1 r2 : regex)
| Alt (r1 r2 : regex)
| Star (p : ascii -> bool)
| Opt (r : regex)
| Cap (n : nat) (r : regex).

(** Capture groups that took part in the match, latest first. *)
Definition Captures := list (nat * string).

Fixpoint group (n : nat) (caps : Captures) : option string :=
  match caps with
  | [] => None
  | (m, v) :: rest => if Nat.eqb m n then Some v else group n rest
  end.

(** Comparison of a pattern character with an input character; under
    the [i] flag both are case-folded. *)
Definition chrEq (ci : bool) (c a : ascii) : bool :=
  if ci then Ascii.eqb (Js.lower c) (Js.lower a) else Ascii.eqb c a.

Section Matcher.
Variable ci : bool.
Variable R : Type.

(** [star p k s]: as many [p]-characters as possible, giving one back
    at a time while the continuation fails.  A continuation receives
    the text consumed and the text left. *)
Fixpoint star (p : ascii -> bool) (k : string -> string -> option R) (s : string) : option R :=
  match s with
  | String a s' =>
      if p a then
        match star p (fun taken rest => k (String a taken) rest) s' with
        | Some r => Some r
        | None => k EmptyString s
        end
      else k EmptyString s
  | EmptyString => k EmptyString s
  end.

Fixpoint matchFrom (r : regex) (s : string) (caps : Captures)
  (k : string -> string -> Captures -> option R) {struct r} : option R :=
  match r with
  | Eps => k EmptyString s caps
  | Chr c =>
      match s with
      | String a s' => if chrEq ci c a then k (String a EmptyString) s' caps else None
      | EmptyString => None
      end
  | Cls p =>
      match s with
      | String a s' => if p a then k (String a EmptyString) s' caps else None
      | EmptyString => None
      end
  | Cat r1 r2 =>
      matchFrom r1 s caps
        (fun taken1 s1 caps1 =>
           matchFrom r2 s1 caps1 (fun taken2 s2 caps2 => k (taken1 ++ taken2) s2 caps2))
  | Alt r1 r2 =>
      match matchFrom r1 s caps k with
      | Some x => Some x
      | None => matchFrom r2 s caps k
      end
  | Star p => star p (fun taken rest => k taken rest caps) s
  | Opt r1 =>
      match matchFrom r1 s caps k with
      | Some x => Some x
      | None => k EmptyString s caps
      end
  | Cap n r1 => matchFrom r1 s caps (fun taken s' caps' => k taken s' ((n, taken) :: caps'))
  end.

End Matcher.

(** One result of [exec]: [m0] is [matchInstance[0]], [after] the text
    behind the match. *)
Record Match := { m0 : string; caps : Captures; after : string }.

Definition matchHere (ci : bool) (r : regex) (s : string) : option Match :=
  matchFrom ci Match r s [] (fun taken rest cs => Some {| m0 := taken; caps := cs; after := rest |}).

(** Leftmost match at or after the start of [s]. *)
Fixpoint search (ci : bool) (r : regex) (s : string) : option Match :=
  match matchHere ci r s with
  | Some m => Some m
  | None =>
      match s with
      | String _ s' => search ci r s'
      | EmptyString => None
      end
  end.

(** The [while ((m = pattern.exec(text)) !== null)] loop of a [g]
    pattern: successive matches, each search resuming where the last
    match ended.  None of the eight patterns matches the empty string,
    so every round consumes input and [fuel] beyond the length of the
    text is never used. *)
Fixpoint execAllFrom (fuel : nat) (ci : bool) (r : regex) (s : string) : list Match :=
  match fuel with
  | O => []
  | S fuel' =>
      match search ci r s with
      | None => []
      | Some m => m :: execAllFrom fuel' ci r (after m)
      end
  end.

Definition execAll (ci : bool) (r : regex) (s : string) : list Match :=
  execAllFrom (S (String.length s)) ci r s.

(** Pattern building blocks. *)
Fixpoint lit (s : string) : regex :=
  match s with
  | EmptyString => Eps
  | String c s' => Cat (Chr c) (lit s')
  end.

Definition chain (rs : list regex) : regex := fold_right Cat Eps rs.
Definition plus (p : ascii -> bool) : regex := Cat (Cls p) (Star p).
Definition oneOf (rs : list regex) : regex :=
  match rs with
  | [] => Eps
  | r :: rest => fold_left Alt rest r
  end.

Definition isChar (c : ascii) : ascii -> bool := fun a => Ascii.eqb a c.
Definition ws (a : ascii) : bool :=
  let n := nat_of_ascii a in ((9 <=? n) && (n <=? 13) || (n =? 32))%nat.
Definition quote (a : ascii) : bool := Ascii.eqb a Js.squote || Ascii.eqb a Js.dquote.
Definition notQuote (a : ascii) : bool := negb (quote a).
Definition notBrace (a : ascii) : bool := negb (Ascii.eqb a "}"%char).
Definition word (a : ascii) : bool :=
  Js.is_lower a || Js.is_upper a || Js.is_digit a || Ascii.eqb a "_"%char.
Definition pathChar (a : ascii) : bool :=
  word a || Ascii.eqb a "/"%char || Ascii.eqb a "-"%char.

End Regex.

Import Regex.

(** The [patterns] array of the inline-script pass, in source order,
    each with its [i] flag. *)
Definition pattern0 : regex :=
  chain [lit "fetch"; Star ws; Chr "("; Star ws; Cls quote; Cap 1 (plus notQuote); Cls quote;
       Star ws;
       Opt (chain [Chr ","; Star ws; Chr "{"; Star notBrace; lit "method"; Star ws; Chr ":";
                 Star ws; Cls quote; Cap 2 (plus notQuote); Cls quote; Star notBrace;
                 Chr "}"])].

Definition pattern1 : regex :=
  chain [lit "axios"; Chr ".";
       Cap 1 (oneOf [lit "get"; lit "post"; lit "put"; lit "delete"; lit "patch";
                     lit "options"; lit "head"]);
       Star ws; Chr "("; Star ws; Cls quote; Cap 2 (plus notQuote); Cls quote].

Definition pattern2 : regex :=
  chain [Chr "$"; Chr "."; Cap 1 (oneOf [lit "ajax"; lit "get"; lit "post"]);
       Star ws; Chr "("; Star ws;
       Alt (chain [Cls quote; Cap 2 (plus notQuote); Cls quote])
           (chain [Chr "{"; Star notBrace; lit "url"; Star ws; Chr ":"; Star ws; Cls quote;
                 Cap 3 (plus notQuote); Cls quote; Star notBrace; Chr "}"])].

Definition pattern3 : regex :=
  chain [lit "url"; Star ws; Chr ":"; Star ws; Cls quote; Cap 1 (plus notQuote); Cls quote].

Definition pattern4 : regex :=
  chain [Opt (Cls quote);
       oneOf [lit "endpoint"; Cat (lit "api") (Opt (Alt (lit "Path") (lit "Url"))); lit "url"];
       Opt (Cls quote); Star ws; Chr ":"; Star ws; Cls quote; Cap 1 (plus notQuote);
       Cls quote].

Definition pattern5 : regex := chain [lit "/api/"; plus pathChar].
Definition pattern6 : regex := lit "/graphql".
Definition pattern7 : regex :=
  chain [lit "/v"; plus Js.is_digit; Chr "/"; plus pathChar].

Definition patterns : list (bool * regex) :=
  [(true, pattern0); (true, pattern1); (true, pattern2); (true, pattern3);
   (true, pattern4); (false, pattern5); (false, pattern6); (false, pattern7)].

(** ** The page as the scripts see it *)

(** An [input], [textarea], [select] or [button] below a form:
    its tag name and the attributes of interest ([None] = absent). *)
Record ControlElement := {
  c_tagName : string;
  c_name : option string;
  c_type : option string;
  c_id : option string;
  c_value : option string;
  c_required : option string;
  c_placeholder : option string
}.

Record FormElement := {
  f_action : option string;
  f_method : option string;
  f_id : option string;
  f_class : option string;
  f_name : option string;
  f_controls : list ControlElement
}.

(** An element of [script[src], link[href], img[src], source[src]]. *)
Record ResourceElement := {
  r_src : option string;
  r_href : option string
}.

(** What the cheerio queries of [extractInfo] return on [page.content()]:
    the [href] of every [a[href]], every [form], the text of every
    [script:not([src])] and every resource element, in document order. *)
Record Dom := {
  d_anchors : list string;
  d_forms : list FormElement;
  d_inlineScripts : list string;
  d_resources : list ResourceElement
}.

(** The settled page: [page.url()] and what the awaited calls
    [detectFrameworks(page)], [extractReactComponents(page)] and
    [page.content()] (parsed by cheerio) fulfil with; [None] where the
    call rejects.  [extractReactComponents] is only called, and
    [pv_reactComponents] only read, when React is among the
    frameworks. *)
Record PageView := {
  pv_url : string;
  pv_frameworks : option (list string);
  pv_reactComponents : option (list string);
  pv_dom : option Dom
}.

(** Outcome of the navigation of the initial pass (lines 226-254):
    [GotoThrows] when [page.goto], or the scroll after it, rejects. *)
Inductive Navigation :=
| GotoThrows
| Loaded (pv : PageView).

(** A response as the [response] handler reads it; [rs_json] is the
    result of [response.json()], [None] when that rejects. *)
Record ResponseData := {
  rs_request : RequestData;
  rs_url : string;
  rs_status : nat;
  rs_contentType : option string;
  rs_json : option JSON
}.

Inductive NetEvent :=
| NetRequest (request : RequestData)
| NetResponse (response : ResponseData).

Definition FormDetails_eq_dec (a b : FormDetails) : {a = b} + {a <> b}.
Proof.
  decide equality; try apply string_dec.
  apply list_eq_dec. decide equality; try apply string_dec; apply bool_dec.
Defined.

(** ** Extraction heuristics ([extractInfo]) *)

Section Extraction.
Context `{UrlApi}.

(** The body of [$('a[href]').each] for one anchor.  [pageUrl] is the
    string a bare fragment is appended to and [base] the URL object
    that relative references resolve against and whose origin scopes
    the links: [currentActualUrl] and [baseForExtraction] in part_001,
    [url] and [base] in advanced-crawler.js. *)
Definition anchorLink (pageUrl : string) (base : URL) (href : string) : option string :=
  match href with
  | EmptyString => None
  | _ =>
      let resolved :=
        if Js.startsWith href "#" then Some (pageUrl ++ href)
        else if Js.startsWith href "javascript:" then None
        else option_map URL_toString (URL_new href (Some (URL_toString base))) in
      match resolved with
      | None => None
      | Some fullUrl =>
          let fullUrl := Js.before "#" fullUrl in
          if Js.startsWith fullUrl (URL_origin base) then Some fullUrl else None
      end
  end.

Definition extractLinks (pageUrl : string) (base : URL) (hrefs : list string)
  (pageData : PageData) : PageData :=
  fold_left
    (fun pd href =>
       match anchorLink pageUrl base href with
       | Some fullUrl => addLink fullUrl pd
       | None => pd
       end)
    hrefs pageData.

Definition inputDataOf (input : ControlElement) : InputData :=
  {| in_name := Js.orElse (c_name input) "";
     in_type := Js.orElse (c_type input) (Js.toLowerCase (c_tagName input));
     in_id := Js.orElse (c_id input) "";
     in_value := Js.orElse (c_value input) "";
     in_required := match c_required input with Some _ => true | None => false end;
     in_placeholder := Js.orElse (c_placeholder input) "" |}.

(** The body of [$('form').each] for one form; [None] when
    [new URL(action, base)] throws (nothing around it catches inside
    the callback, so the whole pass ends in the outer [catch]).
    [url] is the URL the pass was called with, [defaultAction] the
    fallback of a missing action. *)
Definition formDetailsOf (url defaultAction : string) (base : URL) (form : FormElement)
  : option FormDetails :=
  let action := Js.orElse (f_action form) defaultAction in
  let method := Js.toUpperCase (Js.orElse (f_method form) "GET") in
  let resolved :=
    if Js.startsWith action "http" then Some action
    else option_map URL_toString (URL_new action (Some (URL_toString base))) in
  match resolved with
  | None => None
  | Some absolute =>
      Some {| fm_url := url;
              fm_action := absolute;
              fm_method := method;
              fm_id := Js.orElse (f_id form) "";
              fm_name := Js.orElse (f_name form) "";
              fm_class := Js.orElse (f_class form) "";
              fm_fields := map inputDataOf (f_controls form) |}
  end.

(** All forms of the page, or the findings so far and [false] when one
    of them made [new URL] throw. *)
Fixpoint extractForms (url defaultAction : string) (base : URL) (fs : list FormElement)
  (pageData : PageData) : PageData * bool :=
  match fs with
  | [] => (pageData, true)
  | form :: rest =>
      match formDetailsOf url defaultAction base form with
      | None => (pageData, false)
      | Some details => extractForms url defaultAction base rest (addForm details pageData)
      end
  end.

(** [extractedUrlString] and [inferredMethod] of one match
    (lines 361-368); an undefined or empty string is [None]. *)
Definition candidateOf (patternIndex : nat) (m : Match) : option string * option string :=
  let g n := group n (caps m) in
  let nonEmpty (o : option string) := if Js.truthy o then o else None in
  match patternIndex with
  | 0 => (nonEmpty (g 1), option_map Js.toUpperCase (nonEmpty (g 2)))
  | 1 => (nonEmpty (g 2), option_map Js.toUpperCase (g 1))
  | 2 =>
      (if Js.truthy (g 2) then g 2 else nonEmpty (g 3),
       match g 1 with
       | Some verb =>
           if String.eqb (Js.toLowerCase verb) "get" || String.eqb (Js.toLowerCase verb) "post"
           then Some (Js.toUpperCase verb) else None
       | None => None
       end)
  | 3 | 4 => (nonEmpty (g 1), None)
  | _ =>
      (nonEmpty (Some (m0 m)),
       if Nat.eqb patternIndex 6 && Js.includes (m0 m) "/graphql" then Some "POST" else None)
  end.

(** [fullEndpointURL] of part_001 (lines 373-384); [None] when it
    throws. *)
Definition resolveCandidate (base : URL) (extractedUrlString : string) : option string :=
  if Js.startsWith extractedUrlString "/" then
    option_map URL_toString (URL_new extractedUrlString (Some (URL_toString base)))
  else if Js.startsWith extractedUrlString "http://" || Js.startsWith extractedUrlString "https://"
  then Some extractedUrlString
  else if Js.endsWithChar (URL_pathname base) "/" then
    option_map URL_toString
      (URL_new (URL_pathname base ++ extractedUrlString) (Some (URL_toString base)))
  else
    option_map URL_toString
      (URL_new (Js.uptoLast "/" (URL_pathname base) ++ extractedUrlString)
         (Some (URL_toString base))).

(** The endpoint entry of one match (lines 386-389), if any. *)
Definition endpointOfMatch (resolve : string -> option string) (patternIndex : nat) (m : Match)
  : option string :=
  match candidateOf patternIndex m with
  | (None, _) => None
  | (Some extractedUrlString, inferredMethod) =>
      match resolve extractedUrlString with
      | None => None
      | Some fullEndpointURL =>
          let tag := match inferredMethod with Some _ => "[SCRIPT_EVIDENT]" | None => "[SCRIPT_URL_ONLY]" end in
          let methodPrefix := match inferredMethod with Some m => m ++ " " | None => "" end in
          let forced :=
            Nat.eqb patternIndex 6 && Js.includes fullEndpointURL "/graphql"
            && match inferredMethod with Some _ => false | None => true end in
          Some (if forced
                then "[SCRIPT_EVIDENT]" ++ " " ++ "POST " ++ fullEndpointURL
                else tag ++ " " ++ methodPrefix ++ fullEndpointURL)
      end
  end.

(** [patterns.forEach] on one script: every match of every pattern,
    pattern by pattern. *)
Fixpoint eachPattern (resolve : string -> option string) (ps : list (bool * regex))
  (patternIndex : nat) (scriptContent : string) (pageData : PageData) : PageData :=
  match ps with
  | [] => pageData
  | (ci, pattern) :: rest =>
      eachPattern resolve rest (S patternIndex) scriptContent
        (fold_left
           (fun pd m =>
              match endpointOfMatch resolve patternIndex m with
              | Some e => addEndpoint e pd
              | None => pd
              end)
           (execAll ci pattern scriptContent) pageData)
  end.

Definition scriptEndpoints (resolve : string -> option string) (scriptContent : string)
  (pageData : PageData) : PageData :=
  match scriptContent with
  | EmptyString => pageData
  | _ => eachPattern resolve patterns 0 scriptContent pageData
  end.

Definition extractScripts (resolve : string -> option string) (scripts : list string)
  (pageData : PageData) : PageData :=
  fold_left (fun pd s => scriptEndpoints resolve s pd) scripts pageData.

(** The framework a resource file name points at. *)
Definition frameworkOfSrc (src : string) : option string :=
  if Js.includes src "react" then Some "React"
  else if Js.includes src "vue" then Some "Vue.js"
  else if Js.includes src "angular" then Some "Angular"
  else if Js.includes src "ember" then Some "Ember"
  else if Js.includes src "backbone" then Some "Backbone"
  else None.

Definition resourceOf (base : URL) (el : ResourceElement) (pageData : PageData) : PageData :=
  let src := if Js.truthy (r_src el) then r_src el else r_href el in
  match src with
  | Some (String c s) =>
      let src := String c s in
      match URL_new src (Some (URL_toString base)) with
      | None => pageData
      | Some full =>
          let pd := addEndpoint ("[RESOURCE_URL] " ++ URL_toString full) pageData in
          match frameworkOfSrc src with
          | Some framework => addFramework framework pd
          | None => pd
          end
      end
  | _ => pageData
  end.

Definition extractResources (base : URL) (els : list ResourceElement) (pageData : PageData)
  : PageData :=
  fold_left (fun pd el => resourceOf base el pd) els pageData.

(** Frameworks and, when React is among them, the component inventory
    (lines 267-279); the findings so far and [false] when one of the
    two calls rejects. *)
Definition recordFrameworks (pv : PageView) (pageData : PageData) : PageData * bool :=
  match pv_frameworks pv with
  | None => (pageData, false)
  | Some detectedFrameworksArray =>
      let pd := fold_left (fun pd fw => addFramework fw pd) detectedFrameworksArray pageData in
      if existsb (String.eqb "React") detectedFrameworksArray then
        match pv_reactComponents pv with
        | None => (pd, false)
        | Some reactComponentsArray =>
            (fold_left (fun pd comp => addReactComponent comp pd) reactComponentsArray pd, true)
        end
      else (pd, true)
  end.

(** The [request] handler of part_001 (lines 186-199). *)
Definition apiShaped (resourceType url : string) : bool :=
  String.eqb resourceType "xhr" || String.eqb resourceType "fetch" || Js.includes url "/api/".

Definition onRequest (request : RequestData) (pageData : PageData) : PageData :=
  let pd := if String.eqb (rq_method request) "GET" then pageData
            else pushRequest request pageData in
  if apiShaped (rq_resourceType request) (rq_url request)
     || Js.includes (rq_url request) "/graphql"
  then addEndpoint ("[INTERCEPTED] " ++ rq_method request ++ " " ++ rq_url request) pd
  else pd.

(** The [response] handler of part_001 (lines 201-219); [url] is the
    URL the initial pass was called with. *)
Definition onResponse (url : string) (response : ResponseData) (pageData : PageData) : PageData :=
  let request := rs_request response in
  let status := rs_status response in
  let pd :=
    if apiShaped (rq_resourceType request) (rs_url response)
       && ((status <? 200)%nat || (400 <=? status)%nat)
    then addEndpoint ("[API_ERROR_" ++ Js.ofNat status ++ "] " ++ rq_method request ++ " "
                      ++ rs_url response) pageData
    else pageData in
  match rs_contentType response with
  | Some (String c s) =>
      if Js.includes (String c s) "application/json" then
        match rs_json response with
        | Some jsonResponse => extractDataFromJson jsonResponse url pd
        | None => pd
        end
      else pd
  | _ => pd
  end.

Definition onNetEvent (url : string) (e : NetEvent) (pageData : PageData) : PageData :=
  match e with
  | NetRequest request => onRequest request pageData
  | NetResponse response => onResponse url response pageData
  end.

Definition observed (url : string) (net : list NetEvent) (pageData : PageData) : PageData :=
  fold_left (fun pd e => onNetEvent url e pd) net pageData.

(** The cheerio part of the pass (lines 284-409 of part_001). *)
Definition extractDom (url currentActualUrl : string) (baseForExtraction : URL) (dom : Dom)
  (pageData : PageData) : PageData :=
  let pd := extractLinks currentActualUrl baseForExtraction (d_anchors dom) pageData in
  match extractForms url currentActualUrl baseForExtraction (d_forms dom) pd with
  | (pd, false) => pd
  | (pd, true) =>
      let pd := extractScripts (resolveCandidate baseForExtraction) (d_inlineScripts dom) pd in
      extractResources baseForExtraction (d_resources dom) pd
  end.

(** Lines 264-409 of part_001: everything after the page has settled.
    A throwing [new URL(currentActualUrl)] or form action, or a
    rejecting call on the page, ends the pass in the [catch] with what
    was found before it. *)
Definition extractSettled (url : string) (pv : PageView) (pageData : PageData) : PageData :=
  let currentActualUrl := pv_url pv in
  match URL_new currentActualUrl None with
  | None => pageData
  | Some baseForExtraction =>
      match recordFrameworks pv pageData with
      | (pd, false) => pd
      | (pd, true) =>
          match pv_dom pv with
          | None => pd
          | Some dom => extractDom url currentActualUrl baseForExtraction dom pd
          end
      end
  end.

(** [extractInfo(url, page, true)] on a fresh page.  [None]: the call
    itself throws, at [new URL(url)] in front of the [try].  The
    observers are installed before [page.goto] and write into the same
    [pageData]; [net] lists what they saw before the pass returned, and
    is taken to precede the DOM findings in insertion order. *)
Definition extractInfoInitial (url : string) (net : list NetEvent) (nav : Navigation)
  : option PageData :=
  match URL_new url None with
  | None => None
  | Some _ =>
      let pd := observed url net emptyPageData in
      match nav with
      | GotoThrows => Some pd
      | Loaded pv => Some (extractSettled url pv pd)
      end
  end.

(** [extractInfo(urlAfterSubmit, page, false)]: no navigation and, the
    observers being installed already, a [pageData] that only the DOM
    pass fills. *)
Definition extractInfoSubsequent (url : string) (pv : PageView) : option PageData :=
  match URL_new url None with
  | None => None
  | Some _ => Some (extractSettled url pv emptyPageData)
  end.

End Extraction.

(** ** The extraction pass of src/advanced-crawler.js *)

(** The older script has no form submission and its [request] handler
    records nothing.  Its pass differs from the one above in three
    places: links, forms and resources are resolved against the URL the
    pass was called with ([url], [base]) and never against [page.url()];
    forms are stored as [JSON.stringify] strings, so equal forms of one
    page collapse; a script candidate that is neither [/]-prefixed nor
    [http(s)://] is dropped. *)
Module Advanced.
Section Extraction.
Context `{UrlApi}.

Definition resolveCandidate (base : URL) (extractedUrlString : string) : option string :=
  if Js.startsWith extractedUrlString "/" then
    option_map URL_toString (URL_new extractedUrlString (Some (URL_toString base)))
  else if Js.startsWith extractedUrlString "http://" || Js.startsWith extractedUrlString "https://"
  then Some extractedUrlString
  else None.

(** [JSON.stringify] is injective on [formDetails], so a set of the
    strings is a set of the records compared by value. *)
Definition addFormByValue (f : FormDetails) (pd : PageData) : PageData :=
  {| links := links pd; forms := set_add FormDetails_eq_dec f (forms pd);
     endpoints := endpoints pd; reactComponents := reactComponents pd;
     jsFrameworks := jsFrameworks pd;
     requestsToReplicateForPage := requestsToReplicateForPage pd |}.

Fixpoint extractForms (url : string) (base : URL) (fs : list FormElement)
  (pageData : PageData) : PageData * bool :=
  match fs with
  | [] => (pageData, true)
  | form :: rest =>
      match formDetailsOf url url base form with
      | None => (pageData, false)
      | Some details => extractForms url base rest (addFormByValue details pageData)
      end
  end.

(** The cheerio part of the pass. *)
Definition extractDom (url : string) (base : URL) (dom : Dom) (pageData : PageData)
  : PageData :=
  let pd := extractLinks url base (d_anchors dom) pageData in
  match extractForms url base (d_forms dom) pd with
  | (pd, false) => pd
  | (pd, true) =>
      let pd := extractScripts (resolveCandidate base) (d_inlineScripts dom) pd in
      extractResources base (d_resources dom) pd
  end.

(** [extractInfo(url, page)] of advanced-crawler.js. *)
Definition extractInfo (url : string) (nav : Navigation) : option PageData :=
  match URL_new url None with
  | None => None
  | Some base =>
      match nav with
      | GotoThrows => Some emptyPageData
      | Loaded pv =>
          match recordFrameworks pv emptyPageData with
          | (pd, false) => Some pd
          | (pd, true) =>
              match pv_dom pv with
              | None => Some pd
              | Some dom => Some (extractDom url base dom pd)
              end
          end
      end
  end.

End Extraction.
End Advanced.

(** ** The crawl: shared state, page sessions and the scheduler loop *)

Definition MAX_DEPTH : nat := 3.
Definition MAX_CONCURRENT_PAGES : nat := 5.

(** The two scripts share [crawl] and the frame of
    [processUrlAndExtractData]; they differ in the extraction pass and
    in the form loop, which only part_001 has. *)
Inductive Script :=
| FormCrawler       (* src/unnamed/part_001 *)
| AdvancedCrawler.  (* src/advanced-crawler.js *)

(** A queue entry [{ url, depth }]. *)
Record Item := { item_url : string; item_depth : nat }.

(** Where [processUrlAndExtractData] stands between two of its awaits. *)
Inductive Session :=
| Extracting
    (* awaiting [browser.newPage], [setupPage] and the initial [extractInfo] *)
| Submitting (formDetail : FormDetails) (rest : list FormDetails)
    (newLinksFromPage : list string)
    (* in the loop over the forms, awaiting [submitForm] and the
       re-extraction for [formDetail]; [rest] are the forms still to come *)
| Closing (newLinks : list string).
    (* has returned [newLinks]; awaiting [page.close] and the reaction
       registered with [.then] *)

Record Task := { t_depth : nat; t_session : Session }.

(** Where [crawl] stands. *)
Inductive Coordinator :=
| AtLoopHead
| AwaitingRace (racing : list string)   (* the keys of [activePages] when [Promise.race] was called *)
| Sleeping
| Returned.

(** The module-level sets and array, the locals of [crawl], and the
    console lines [Processando [D:depth]: url], one per session that
    passed the guard of [processUrlAndExtractData]. *)
Record State := {
  visited : Js.SetOf string;
  linksFound : Js.SetOf string;
  formsFound : list FormDetails;
  endpointsFound : Js.SetOf string;
  reactComponentsFound : Js.SetOf string;
  jsFrameworksDetected : Js.SetOf string;
  requestsToReplicate : list RequestData;
  queue : list Item;
  activePages : list (string * Task);
  urlCounter : nat;
  coordinator : Coordinator;
  processed : list Item
}.

Definition initialState (startUrl : string) : State :=
  {| visited := []; linksFound := []; formsFound := []; endpointsFound := [];
     reactComponentsFound := []; jsFrameworksDetected := []; requestsToReplicate := [];
     queue := [{| item_url := startUrl; item_depth := 0 |}];
     activePages := []; urlCounter := 0; coordinator := AtLoopHead; processed := [] |}.

Definition withQueue (q : list Item) (s : State) : State :=
  {| visited := visited s; linksFound := linksFound s; formsFound := formsFound s;
     endpointsFound := endpointsFound s; reactComponentsFound := reactComponentsFound s;
     jsFrameworksDetected := jsFrameworksDetected s;
     requestsToReplicate := requestsToReplicate s; queue := q;
     activePages := activePages s; urlCounter := urlCounter s;
     coordinator := coordinator s; processed := processed s |}.

Definition withCoordinator (c : Coordinator) (s : State) : State :=
  {| visited := visited s; linksFound := linksFound s; formsFound := formsFound s;
     endpointsFound := endpointsFound s; reactComponentsFound := reactComponentsFound s;
     jsFrameworksDetected := jsFrameworksDetected s;
     requestsToReplicate := requestsToReplicate s; queue := queue s;
     activePages := activePages s; urlCounter := urlCounter s;
     coordinator := c; processed := processed s |}.

Definition withActivePages (a : list (string * Task)) (s : State) : State :=
  {| visited := visited s; linksFound := linksFound s; formsFound := formsFound s;
     endpointsFound := endpointsFound s; reactComponentsFound := reactComponentsFound s;
     jsFrameworksDetected := jsFrameworksDetected s;
     requestsToReplicate := requestsToReplicate s; queue := queue s;
     activePages := a; urlCounter := urlCounter s;
     coordinator := coordinator s; processed := processed s |}.

Definition withVisited (v : Js.SetOf string) (s : State) : State :=
  {| visited := v; linksFound := linksFound s; formsFound := formsFound s;
     endpointsFound := endpointsFound s; reactComponentsFound := reactComponentsFound s;
     jsFrameworksDetected := jsFrameworksDetected s;
     requestsToReplicate := requestsToReplicate s; queue := queue s;
     activePages := activePages s; urlCounter := urlCounter s;
     coordinator := coordinator s; processed := processed s |}.

(** [Map.prototype.get], [set] and [delete] on [activePages]. *)
Fixpoint mapGet (k : string) (m : list (string * Task)) : option Task :=
  match m with
  | [] => None
  | (k', v) :: rest => if String.eqb k' k then Some v else mapGet k rest
  end.

Fixpoint mapSet (k : string) (v : Task) (m : list (string * Task)) : list (string * Task) :=
  match m with
  | [] => [(k, v)]
  | (k', v') :: rest => if String.eqb k' k then (k, v) :: rest else (k', v') :: mapSet k v rest
  end.

Definition mapDelete (k : string) (m : list (string * Task)) : list (string * Task) :=
  filter (fun kv => negb (String.eqb (fst kv) k)) m.

Definition keys (m : list (string * Task)) : list string := map fst m.

(** The synchronous head of [processUrlAndExtractData(browser, url,
    depth)], up to its first await (lines 599-606): the guard, the
    insertion into [visited] and the console line. *)
Definition beginSession (url : string) (depth : nat) (s : State) : State * Session :=
  if Js.has url (visited s) || (MAX_DEPTH <? depth)%nat then (s, Closing [])
  else
    ({| visited := Js.add url (visited s); linksFound := linksFound s;
        formsFound := formsFound s; endpointsFound := endpointsFound s;
        reactComponentsFound := reactComponentsFound s;
        jsFrameworksDetected := jsFrameworksDetected s;
        requestsToReplicate := requestsToReplicate s; queue := queue s;
        activePages := activePages s; urlCounter := urlCounter s;
        coordinator := coordinator s;
        processed := processed s ++ [{| item_url := url; item_depth := depth |}] |},
     Extracting).

(** Lines 713-731 for one dequeued item that passed the checks of the
    inner loop. *)
Definition dispatch (item : Item) (s : State) : State :=
  let s1 :=
    {| visited := visited s; linksFound := linksFound s; formsFound := formsFound s;
       endpointsFound := endpointsFound s; reactComponentsFound := reactComponentsFound s;
       jsFrameworksDetected := jsFrameworksDetected s;
       requestsToReplicate := requestsToReplicate s; queue := queue s;
       activePages := activePages s; urlCounter := S (urlCounter s);
       coordinator := coordinator s; processed := processed s |} in
  let (s2, session) := beginSession (item_url item) (item_depth item) s1 in
  withActivePages
    (mapSet (item_url item) {| t_depth := item_depth item; t_session := session |}
       (activePages s2)) s2.

(** The inner [while] of [crawl] (lines 704-732) on the queue [q]:
    it has no await, so it runs to its end in one piece. *)
Fixpoint fill (q : list Item) (s : State) : State :=
  match q with
  | [] => withQueue [] s
  | item :: rest =>
      if (length (activePages s) <? MAX_CONCURRENT_PAGES)%nat then
        if Js.has (item_url item) (visited s) || (MAX_DEPTH <? item_depth item)%nat
        then fill rest s
        else fill rest (dispatch item s)
      else withQueue q s
  end.

(** Lines 734-745 after the inner loop: the race when sessions are in
    flight, the [break] when nothing is left.  After [fill] either the
    queue is empty or the pool is full, so the last case, in which the
    source goes round the outer loop at once, does not arise; the
    coordinator is then left at the loop head. *)
Definition awaitOrReturn (s : State) : State :=
  match activePages s with
  | _ :: _ => withCoordinator (AwaitingRace (keys (activePages s))) s
  | [] =>
      match queue s with
      | [] => withCoordinator Returned s
      | _ :: _ => withCoordinator AtLoopHead s
      end
  end.

(** From the head of the outer [while] to the next await of [crawl], or
    to its return. *)
Definition loopHead (s : State) : State :=
  match queue s, activePages s with
  | [], [] => withCoordinator Returned s
  | _, _ => awaitOrReturn (fill (queue s) s)
  end.

(** One event per synchronous segment.  The data of a session event is
    what the browser handed to the script during the awaits in front of
    the segment. *)
Inductive Event :=
| CoordinatorTurn
    (* [crawl] runs from the loop head *)
| RaceSettles
    (* [await Promise.race(activePages.values())] resumes *)
| SleepEnds
    (* [await sleep(100)] resumes *)
| PageFails (url : string)
    (* [browser.newPage] or [setupPage] of the session of [url] has
       rejected: lines 666-668 *)
| InitialPass (url : string) (net : list NetEvent) (nav : Navigation)
    (* the initial [extractInfo] of the session of [url] has ended:
       lines 608-623 *)
| FormPass (url urlBeforeSubmit urlAfterSubmit : string) (pv : PageView)
    (* [submitForm] and the re-extraction for the next form of the
       session of [url] have ended: lines 624-662 *)
| SessionSettles (url : string).
    (* the reaction registered with [.then]: lines 716-725 *)

Section Crawl.
Context `{UrlApi}.
Variable script : Script.

(** Lines 611-616. *)
Definition mergeInitial (data : PageData) (s : State) : State :=
  {| visited := visited s;
     linksFound := Js.addAll (links data) (linksFound s);
     formsFound := fold_left (fun acc f => set_add FormDetails_eq_dec f acc) (forms data)
                     (formsFound s);
     endpointsFound := Js.addAll (endpoints data) (endpointsFound s);
     reactComponentsFound := Js.addAll (reactComponents data) (reactComponentsFound s);
     jsFrameworksDetected := Js.addAll (jsFrameworks data) (jsFrameworksDetected s);
     requestsToReplicate := requestsToReplicate s ++ requestsToReplicateForPage data;
     queue := queue s; activePages := activePages s; urlCounter := urlCounter s;
     coordinator := coordinator s; processed := processed s |}.

(** Lines 634-640: a link enters [linksFound] and [newLinksFromPage]
    when [linksFound] did not have it. *)
Fixpoint mergePostLinks (ls : list string) (found : Js.SetOf string) (newLinks : list string)
  : Js.SetOf string * list string :=
  match ls with
  | [] => (found, newLinks)
  | link :: rest =>
      if Js.has link found then mergePostLinks rest found newLinks
      else mergePostLinks rest (Js.add link found) (newLinks ++ [link])
  end.

(** Lines 634-650. *)
Definition mergePost (post : PageData) (newLinks : list string) (s : State)
  : State * list string :=
  let (found, newLinks') := mergePostLinks (links post) (linksFound s) newLinks in
  ({| visited := visited s;
      linksFound := found;
      formsFound := formsFound s;
      endpointsFound := Js.addAll (endpoints post) (endpointsFound s);
      reactComponentsFound := Js.addAll (reactComponents post) (reactComponentsFound s);
      jsFrameworksDetected := Js.addAll (jsFrameworks post) (jsFrameworksDetected s);
      requestsToReplicate := requestsToReplicate s ++ requestsToReplicateForPage post;
      queue := queue s; activePages := activePages s; urlCounter := urlCounter s;
      coordinator := coordinator s; processed := processed s |},
   newLinks').

(** The scope test of line 655, [None] when [new URL(url)] throws. *)
Definition inScope (url urlAfterSubmit : string) : option bool :=
  match URL_new url None with
  | None => None
  | Some u => Some (Js.startsWith urlAfterSubmit (URL_origin u))
  end.

(** Lines 655-661; [None] when the condition throws. *)
Definition adoptNavigation (url urlBeforeSubmit urlAfterSubmit : string)
  (newLinks : list string) (s : State) : option (State * list string) :=
  if negb (String.eqb urlAfterSubmit urlBeforeSubmit) && negb (Js.has urlAfterSubmit (visited s))
  then
    match inScope url urlAfterSubmit with
    | None => None
    | Some false => Some (s, newLinks)
    | Some true =>
        Some (withVisited (Js.add urlAfterSubmit (visited s)) s,
              if existsb (String.eqb urlAfterSubmit) newLinks then newLinks
              else (newLinks ++ [urlAfterSubmit])%list)
    end
  else Some (s, newLinks).

Definition setSession (url : string) (depth : nat) (session : Session) (s : State) : State :=
  withActivePages (mapSet url {| t_depth := depth; t_session := session |} (activePages s)) s.

(** The initial pass of the script at hand. *)
Definition initialData (url : string) (net : list NetEvent) (nav : Navigation)
  : option PageData :=
  match script with
  | FormCrawler => extractInfoInitial url net nav
  | AdvancedCrawler => Advanced.extractInfo url nav
  end.

(** Lines 608-623 and, without forms to submit, the [return] of line
    665.  A throwing [extractInfo] lands in the [catch] of line 666,
    which returns no links. *)
Definition afterInitialPass (url : string) (depth : nat) (net : list NetEvent)
  (nav : Navigation) (s : State) : State :=
  match initialData url net nav with
  | None => setSession url depth (Closing []) s
  | Some data =>
      let s1 := mergeInitial data s in
      let newLinksFromPage := links data in
      match script, forms data with
      | FormCrawler, formDetail :: rest =>
          if (depth <? MAX_DEPTH)%nat
          then setSession url depth (Submitting formDetail rest newLinksFromPage) s1
          else setSession url depth (Closing newLinksFromPage) s1
      | _, _ => setSession url depth (Closing newLinksFromPage) s1
      end
  end.

(** One round of the loop over the forms (lines 624-662).
    [submitForm] computes [new URL(formDetails.action, originalUrl)]
    in front of its [try]; when that or the re-extraction throws, the
    session ends in the [catch] of line 666 and returns no links. *)
Definition afterFormPass (url : string) (depth : nat) (formDetail : FormDetails)
  (rest : list FormDetails) (newLinks : list string)
  (urlBeforeSubmit urlAfterSubmit : string) (pv : PageView) (s : State) : State :=
  match URL_new (fm_action formDetail) (Some url) with
  | None => setSession url depth (Closing []) s
  | Some _ =>
      match extractInfoSubsequent urlAfterSubmit pv with
      | None => setSession url depth (Closing []) s
      | Some post =>
          let (s1, newLinks1) := mergePost post newLinks s in
          match adoptNavigation url urlBeforeSubmit urlAfterSubmit newLinks1 s1 with
          | None => setSession url depth (Closing []) s1
          | Some (s2, newLinks2) =>
              match rest with
              | [] => setSession url depth (Closing newLinks2) s2
              | next :: rest' => setSession url depth (Submitting next rest' newLinks2) s2
              end
          end
      end
  end.

(** The [forEach] of lines 717-722. *)
Fixpoint requeue (depth : nat) (newLinks : list string) (s : State) : State :=
  match newLinks with
  | [] => s
  | link :: rest =>
      let linkInQueue := existsb (fun qItem => String.eqb (item_url qItem) link) (queue s) in
      if negb (Js.has link (visited s)) && negb linkInQueue && (depth + 1 <=? MAX_DEPTH)%nat
      then requeue depth rest
             (withQueue (queue s ++ [{| item_url := link; item_depth := depth + 1 |}]) s)
      else requeue depth rest s
  end.

(** Lines 716-725. *)
Definition settle (url : string) (depth : nat) (newLinks : list string) (s : State) : State :=
  let s1 := requeue depth newLinks s in
  withActivePages (mapDelete url (activePages s1)) s1.

(** [Promise.race] has settled once one of the sessions it was given
    has run its reaction, which removes it from [activePages]. *)
Definition raceSettled (racing : list string) (s : State) : bool :=
  existsb (fun u => negb (existsb (String.eqb u) (keys (activePages s)))) racing.

(** Lines 737-745 after the race: the short sleep, or straight back to
    the loop head. *)
Definition afterRace (s : State) : State :=
  match queue s, activePages s with
  | [], _ :: _ => withCoordinator Sleeping s
  | _, _ => loopHead s
  end.

(** The step function; [None] when the event cannot occur in [s]. *)
Definition exec (s : State) (e : Event) : option State :=
  match e with
  | CoordinatorTurn =>
      match coordinator s with
      | AtLoopHead => Some (loopHead s)
      | _ => None
      end
  | RaceSettles =>
      match coordinator s with
      | AwaitingRace racing => if raceSettled racing s then Some (afterRace s) else None
      | _ => None
      end
  | SleepEnds =>
      match coordinator s with
      | Sleeping => Some (loopHead s)
      | _ => None
      end
  | PageFails url =>
      match mapGet url (activePages s) with
      | Some {| t_depth := depth; t_session := Extracting |} =>
          Some (setSession url depth (Closing []) s)
      | _ => None
      end
  | InitialPass url net nav =>
      match mapGet url (activePages s) with
      | Some {| t_depth := depth; t_session := Extracting |} =>
          Some (afterInitialPass url depth net nav s)
      | _ => None
      end
  | FormPass url urlBeforeSubmit urlAfterSubmit pv =>
      match mapGet url (activePages s) with
      | Some {| t_depth := depth; t_session := Submitting formDetail rest newLinks |} =>
          Some (afterFormPass url depth formDetail rest newLinks
                  urlBeforeSubmit urlAfterSubmit pv s)
      | _ => None
      end
  | SessionSettles url =>
      match mapGet url (activePages s) with
      | Some {| t_depth := depth; t_session := Closing newLinks |} =>
          Some (settle url depth newLinks s)
      | _ => None
      end
  end.

Fixpoint execTrace (s : State) (trace : list Event) : option State :=
  match trace with
  | [] => Some s
  | e :: rest =>
      match exec s e with
      | Some s' => execTrace s' rest
      | None => None
      end
  end.

(** The states of a run that [crawl(startUrl)] can pass through. *)
Definition reachable (startUrl : string) (s : State) : Prop :=
  exists trace, execTrace (initialState startUrl) trace = Some s.

End Crawl.

(** ** An executable instance of the URL interface *)

(** The WHATWG parser and serialiser for [http:] and [https:] URLs
    without credentials, with ASCII host names (or a dotted-decimal
    IPv4 address in canonical form): scheme and host are lower-cased, a
    default port is dropped, dot segments are removed, a backslash
    counts as a slash and the characters of the percent-encode sets are
    escaped.  Everything else (other schemes, credentials, IPv6 and
    internationalised or percent-encoded hosts) is outside the
    instance, which answers [None] there as it does where the real
    parser throws.  It serves to evaluate the crawler on concrete
    pages; no general theorem below depends on it. *)
Module Whatwg.

Record Url := {
  scheme : string;
  host : string;
  port : option N;
  path : list string;
  query : option string;
  fragment : option string
}.

Fixpoint splitOn (c : ascii) (s : string) : list string :=
  match s with
  | EmptyString => [EmptyString]
  | String a s' =>
      if Ascii.eqb a c then EmptyString :: splitOn c s'
      else match splitOn c s' with
           | [] => [String a EmptyString]
           | x :: xs => String a x :: xs
           end
  end.

(** The part of [s] from the first [c] on, without that [c]. *)
Fixpoint afterFirst (c : ascii) (s : string) : option string :=
  match s with
  | EmptyString => None
  | String a s' => if Ascii.eqb a c then Some s' else afterFirst c s'
  end.

Fixpoint sfilter (p : ascii -> bool) (s : string) : string :=
  match s with
  | EmptyString => EmptyString
  | String a s' => if p a then String a (sfilter p s') else sfilter p s'
  end.

Fixpoint sforall (p : ascii -> bool) (s : string) : bool :=
  match s with
  | EmptyString => true
  | String a s' => p a && sforall p s'
  end.

Fixpoint dropWhile (p : ascii -> bool) (s : string) : string :=
  match s with
  | EmptyString => EmptyString
  | String a s' => if p a then dropWhile p s' else s
  end.

Fixpoint srev_onto (s acc : string) : string :=
  match s with
  | EmptyString => acc
  | String a s' => srev_onto s' (String a acc)
  end.
Definition srev (s : string) : string := srev_onto s EmptyString.

Definition c0OrSpace (a : ascii) : bool := (nat_of_ascii a <=? 32)%nat.
Definition tabOrNewline (a : ascii) : bool :=
  let n := nat_of_ascii a in ((n =? 9) || (n =? 10) || (n =? 13))%nat.

(** Leading and trailing C0 controls and spaces go, then every tab and
    newline. *)
Definition clean (input : string) : string :=
  sfilter (fun a => negb (tabOrNewline a))
    (srev (dropWhile c0OrSpace (srev (dropWhile c0OrSpace input)))).

Definition hexDigit (n : nat) : ascii :=
  if (n <? 10)%nat then ascii_of_nat (48 + n) else ascii_of_nat (55 + n).

Fixpoint pctEncode (inSet : ascii -> bool) (s : string) : string :=
  match s with
  | EmptyString => EmptyString
  | String a s' =>
      if inSet a then
        String "%" (String (hexDigit (nat_of_ascii a / 16))
                      (String (hexDigit (nat_of_ascii a mod 16)) (pctEncode inSet s')))
      else String a (pctEncode inSet s')
  end.

Definition among (cs : string) (a : ascii) : bool := Js.hasChar cs a.
Definition c0Set (a : ascii) : bool :=
  let n := nat_of_ascii a in ((n <=? 31) || (126 <? n))%nat.
Definition fragmentSet (a : ascii) : bool :=
  c0Set a || among " <>`" a || Ascii.eqb a Js.dquote.
Definition querySet (a : ascii) : bool :=
  c0Set a || among " #<>'" a || Ascii.eqb a Js.dquote.
Definition pathSet (a : ascii) : bool :=
  c0Set a || among " #<>?^`{}" a || Ascii.eqb a Js.dquote.

Definition isSlash (a : ascii) : bool := Ascii.eqb a "/" || Ascii.eqb a "\".

Definition singleDot (seg : string) : bool :=
  let l := Js.toLowerCase seg in String.eqb l "." || String.eqb l "%2e".
Definition doubleDot (seg : string) : bool :=
  let l := Js.toLowerCase seg in
  String.eqb l ".." || String.eqb l ".%2e" || String.eqb l "%2e." || String.eqb l "%2e%2e".

Definition shorten (p : list string) : list string := removelast p.

(** The path state: the segments of the input, one after the other,
    onto the path so far. *)
Fixpoint pathState (segs : list string) (p : list string) : list string :=
  match segs with
  | [] => p
  | seg :: rest =>
      let last := match rest with [] => true | _ => false end in
      let p' :=
        if doubleDot seg then (if last then shorten p ++ [EmptyString] else shorten p)%list
        else if singleDot seg then (if last then p ++ [EmptyString] else p)%list
        else (p ++ [pctEncode pathSet seg])%list in
      pathState rest p'
  end.

Definition slashes (s : string) : string :=
  Js.smap (fun a => if Ascii.eqb a "\" then "/"%char else a) s.

Definition parsePath (init : list string) (text : string) : list string :=
  pathState (splitOn "/" (slashes text)) init.

Fixpoint digitsToN (s : string) (acc : N) : N :=
  match s with
  | EmptyString => acc
  | String a s' => digitsToN s' (10 * acc + (N_of_ascii a - 48))%N
  end.

Definition hostChar (a : ascii) : bool :=
  Js.is_lower a || Js.is_upper a || Js.is_digit a || among "-._" a.

Definition canonicalOctet (lbl : string) : bool :=
  sforall Js.is_digit lbl
  && negb (String.eqb lbl "")
  && (String.eqb lbl "0" || negb (Js.startsWith lbl "0"))
  && (digitsToN lbl 0 <=? 255)%N.

(** A host of the instance: plain ASCII labels; when the last label
    starts with a digit the host must be a canonical dotted quad. *)
Definition parseHost (h : string) : option string :=
  let labels := splitOn "." h in
  let numeric :=
    match List.last labels EmptyString with
    | String a _ => Js.is_digit a
    | EmptyString => false
    end in
  if String.eqb h "" || negb (sforall hostChar h) then None
  else if numeric then
    if (length labels =? 4)%nat && forallb canonicalOctet labels then Some h else None
  else Some (Js.toLowerCase h).

Definition defaultPort (sch : string) : N :=
  if String.eqb sch "https" then 443%N else 80%N.

Definition parsePort (sch p : string) : option (option N) :=
  if String.eqb p "" then Some None
  else if sforall Js.is_digit p then
    let n := digitsToN p 0 in
    if (65535 <? n)%N then None
    else if (n =? defaultPort sch)%N then Some None
    else Some (Some n)
  else None.

(** Host and port of an authority without credentials. *)
Definition parseAuthority (sch authority : string) : option (string * option N) :=
  if Js.hasChar authority "@" then None
  else
    let h := Js.before ":" authority in
    match parseHost h, afterFirst ":" authority with
    | Some h', None => Some (h', None)
    | Some h', Some p =>
        match parsePort sch p with
        | Some p' => Some (h', p')
        | None => None
        end
    | None, _ => None
    end.

(** [scheme:] at the start of the input, if any: the lower-cased
    scheme and what follows the colon. *)
Definition schemeChar (a : ascii) : bool :=
  Js.is_lower a || Js.is_upper a || Js.is_digit a || among "+-." a.

Definition splitScheme (s : string) : option (string * string) :=
  match s with
  | String a _ =>
      if (Js.is_lower a || Js.is_upper a) && sforall schemeChar (Js.before ":" s) then
        match afterFirst ":" s with
        | Some rest => Some (Js.toLowerCase (Js.before ":" s), rest)
        | None => None
        end
      else None
  | EmptyString => None
  end.

Definition special (sch : string) : bool := String.eqb sch "http" || String.eqb sch "https".

(** The input cut at its first [#] and, in front of that, at its
    first [?]. *)
Definition cutFragment (s : string) : string * option string :=
  (Js.before "#" s, afterFirst "#" s).
Definition cutQuery (s : string) : string * option string :=
  (Js.before "?" s, afterFirst "?" s).

(** Authority and path of [text], which follows the slashes after
    [scheme:]. *)
Definition authorityAndPath (sch text : string) (q f : option string) : option Url :=
  let authority := Js.before "/" (slashes text) in
  let pathText := match afterFirst "/" (slashes text) with Some r => r | None => EmptyString end in
  match parseAuthority sch authority with
  | None => None
  | Some (h, p) =>
      Some {| scheme := sch; host := h; port := p; path := parsePath [] pathText;
              query := option_map (pctEncode querySet) q;
              fragment := option_map (pctEncode fragmentSet) f |}
  end.

(** A reference without scheme against [base]. *)
Definition relative (base : Url) (text : string) (q f : option string) : option Url :=
  let q' := option_map (pctEncode querySet) q in
  let f' := option_map (pctEncode fragmentSet) f in
  match text with
  | EmptyString =>
      Some {| scheme := scheme base; host := host base; port := port base; path := path base;
              query := match q with Some _ => q' | None => query base end;
              fragment := f' |}
  | String a rest =>
      if isSlash a then
        match rest with
        | String b rest' =>
            if isSlash b then authorityAndPath (scheme base) (dropWhile isSlash rest') q f
            else Some {| scheme := scheme base; host := host base; port := port base;
                         path := parsePath [] rest; query := q'; fragment := f' |}
        | EmptyString =>
            Some {| scheme := scheme base; host := host base; port := port base;
                    path := parsePath [] rest; query := q'; fragment := f' |}
        end
      else Some {| scheme := scheme base; host := host base; port := port base;
                   path := parsePath (shorten (path base)) text; query := q'; fragment := f' |}
  end.

Definition parse (input : string) (base : option Url) : option Url :=
  let (s1, f) := cutFragment (clean input) in
  let (s2, q) := cutQuery s1 in
  match splitScheme s2 with
  | Some (sch, rest) =>
      if special sch then
        match base with
        | Some b =>
            if String.eqb (scheme b) sch && negb (Js.startsWith (slashes rest) "//")
            then relative b rest q f
            else authorityAndPath sch (dropWhile isSlash rest) q f
        | None => authorityAndPath sch (dropWhile isSlash rest) q f
        end
      else None
  | None =>
      match base with
      | Some b => relative b s2 q f
      | None => None
      end
  end.

Definition origin (u : Url) : string :=
  scheme u ++ "://" ++ host u ++
  match port u with Some p => ":" ++ NilEmpty.string_of_uint (N.to_uint p) | None => "" end.

Definition pathname (u : Url) : string :=
  String.concat "" (map (fun seg => "/" ++ seg) (path u)).

Definition href (u : Url) : string :=
  origin u ++ pathname u ++
  match query u with Some q => "?" ++ q | None => "" end ++
  match fragment u with Some f => "#" ++ f | None => "" end.

(** [new URL(input, base)]: the base, when given, is parsed first. *)
Definition newURL (input : string) (base : option string) : option Url :=
  match base with
  | None => parse input None
  | Some b =>
      match parse b None with
      | None => None
      | Some bu => parse input (Some bu)
      end
  end.

Definition api : UrlApi :=
  {| URL := Url; URL_new := newURL; URL_toString := href; URL_origin := origin;
     URL_pathname := pathname |}.

End Whatwg.

(** ** Running a crawl to its end *)

(** A deterministic browser: what a fresh session observes on a URL
    ([None] when no page can be opened for it), and what a form
    submission leads to ([page.url()] before and after it and the page
    then), given the session, the form and the number of forms still to
    come. *)
Record Web := {
  onOpen : string -> option (list NetEvent * Navigation);
  onSubmit : string -> FormDetails -> nat -> string * string * PageView
}.

Section Run.
Context `{UrlApi}.
Variable script : Script.
Variable web : Web.
(** The order in which pending continuations run: an index into the
    enabled events of a state. *)
Variable pick : State -> nat.

Definition sessionEvent (url : string) (t : Task) : Event :=
  match t_session t with
  | Extracting =>
      match onOpen web url with
      | Some (net, nav) => InitialPass url net nav
      | None => PageFails url
      end
  | Submitting formDetail rest _ =>
      let '(urlBeforeSubmit, urlAfterSubmit, pv) := onSubmit web url formDetail (length rest) in
      FormPass url urlBeforeSubmit urlAfterSubmit pv
  | Closing _ => SessionSettles url
  end.

Definition coordinatorEvents (s : State) : list Event :=
  match coordinator s with
  | AtLoopHead => [CoordinatorTurn]
  | AwaitingRace racing => if raceSettled racing s then [RaceSettles] else []
  | Sleeping => [SleepEnds]
  | Returned => []
  end.

Definition sessionEvents (s : State) : list Event :=
  flat_map
    (fun url => match mapGet url (activePages s) with
                | Some t => [sessionEvent url t]
                | None => []
                end)
    (keys (activePages s)).

Definition enabled (s : State) : list Event := (coordinatorEvents s ++ sessionEvents s)%list.

Definition chosen (s : State) : option Event :=
  match enabled s with
  | [] => None
  | e :: es => Some (nth (pick s mod length (e :: es)) (e :: es) e)
  end.

Definition next (s : State) : option State :=
  match chosen s with
  | Some e => exec script s e
  | None => None
  end.

(** [crawl] from state [s] until it returns; [None] when [fuel] runs
    out first. *)
Fixpoint run (fuel : nat) (s : State) : option State :=
  match coordinator s with
  | Returned => Some s
  | _ =>
      match fuel with
      | O => None
      | S fuel' =>
          match next s with
          | Some s' => run fuel' s'
          | None => None
          end
      end
  end.

Definition crawl (fuel : nat) (startUrl : string) : option State :=
  run fuel (initialState startUrl).

(** The events of that run, in order. *)
Fixpoint runEvents (fuel : nat) (s : State) : list Event :=
  match coordinator s, fuel with
  | Returned, _ | _, O => []
  | _, S fuel' =>
      match chosen s with
      | Some e =>
          match exec script s e with
          | Some s' => e :: runEvents fuel' s'
          | None => []
          end
      | None => []
      end
  end.

End Run.

(** What [saveResults] writes, as far as the sets go: [links.txt] and
    the [crawledUrls] of [summary.json]. *)
Record Report := {
  links_txt : list string;
  forms_json : list FormDetails;
  endpoints_unsorted : list string;
  crawledUrls : list string;
  totalLinks : nat
}.

Definition saveResults (s : State) : Report :=
  {| links_txt := linksFound s;
     forms_json := formsFound s;
     endpoints_unsorted := endpointsFound s;
     crawledUrls := visited s;
     totalLinks := length (linksFound s) |}.

(** ** Auxiliary notions for the statements and proofs *)

Open Scope nat_scope.

(** [grows s s']: [visited] only gained elements, and the sessions
    logged in between were started on URLs that [visited] did not have
    before and has now, pairwise distinct, at a depth within the
    bound. *)
Definition grows (s s' : State) : Prop :=
  (forall u, In u (visited s) -> In u (visited s')) /\
  exists new,
    processed s' = (processed s ++ new)%list /\
    NoDup (map item_url new) /\
    Forall (fun it => ~ In (item_url it) (visited s) /\ In (item_url it) (visited s')
                      /\ item_depth it <= MAX_DEPTH) new.

(** Lexicographic order on lists of numbers of one length. *)
Inductive lexlt : list nat -> list nat -> Prop :=
| lex_head (x y : nat) (xs ys : list nat) :
    x < y -> length xs = length ys -> lexlt (x :: xs) (y :: ys)
| lex_tail (x : nat) (xs ys : list nat) :
    lexlt xs ys -> lexlt (x :: xs) (x :: ys).

(** A ranking of crawl states.  A queue entry or a session at depth
    [d] counts at level [min d 4]; what a session at one level leaves
    behind in the queue sits one level further down.  In each level a
    waiting entry ranks above a session in its initial pass, and that
    above a session in the form loop or about to settle. *)
Definition level (depth : nat) : nat := Nat.min depth 4.

Definition itemWeight (i : nat) (it : Item) : nat :=
  if 2 * level (item_depth it) =? i then 2 else 0.

Definition taskWeight (i : nat) (t : Task) : nat :=
  match t_session t with
  | Extracting => if 2 * level (t_depth t) =? i then 1 else 0
  | Submitting _ rest _ => if 2 * level (t_depth t) + 1 =? i then length rest + 2 else 0
  | Closing _ => if 2 * level (t_depth t) + 1 =? i then 1 else 0
  end.

Definition queueWeight (i : nat) (q : list Item) : nat :=
  list_sum (map (itemWeight i) q).

Definition poolWeight (i : nat) (m : list (string * Task)) : nat :=
  list_sum (map (fun kv => taskWeight i (snd kv)) m).

Definition coordinatorWeight (s : State) : nat :=
  match coordinator s with
  | Returned => 0
  | AwaitingRace racing => if raceSettled racing s then 3 else 0
  | Sleeping => 2
  | AtLoopHead => 1
  end.

Definition component (i : nat) (s : State) : nat :=
  queueWeight i (queue s) + poolWeight i (activePages s)
  + (if i =? 10 then coordinatorWeight s else 0).

Definition rank (s : State) : list nat := map (fun i => component i s) (seq 0 11).

Definition below (s' s : State) : Prop := lexlt (rank s') (rank s).

(** One step of a run: some synchronous segment, with whatever the
    browser handed to it, takes [s] to [s']. *)
Definition step `{UrlApi} (script : Script) (s' s : State) : Prop :=
  exists e, exec script s e = Some s'.

(** What the coordinator's position says about the rest of the state. *)
Definition consistent (s : State) : Prop :=
  match coordinator s with
  | AwaitingRace racing => racing <> []
  | Returned => queue s = [] /\ activePages s = []
  | _ => True
  end.

(** Every session in flight was logged when it started, and nothing
    waits in the queue beyond the depth bound. *)
Definition tracked (s : State) : Prop :=
  (forall u, In u (keys (activePages s)) -> In u (map item_url (processed s))) /\
  Forall (fun it => item_depth it <= MAX_DEPTH) (queue s).

(** Structural induction on JSON values, through the lists of an
    array and of an object. *)
Section JsonInduction.
Variable P : JSON -> Prop.
Hypothesis Hnull : P JNull.
Hypothesis Hbool : forall b, P (JBool b).
Hypothesis Hnumber : forall n, P (JNumber n).
Hypothesis Hstring : forall s, P (JString s).
Hypothesis Harray : forall items, Forall P items -> P (JArray items).
Hypothesis Hobject : forall props, Forall (fun kv => P (snd kv)) props -> P (JObject props).

Fixpoint JSON_induction (j : JSON) : P j :=
  match j with
  | JNull => Hnull
  | JBool b => Hbool b
  | JNumber n => Hnumber n
  | JString s => Hstring s
  | JArray items =>
      Harray items
        ((fix all (l : list JSON) : Forall P l :=
            match l with
            | [] => Forall_nil P
            | x :: rest => Forall_cons x (JSON_induction x) (all rest)
            end) items)
  | JObject props =>
      Hobject props
        ((fix all (l : list (string * JSON)) : Forall (fun kv => P (snd kv)) l :=
            match l with
            | [] => Forall_nil _
            | kv :: rest => Forall_cons kv (JSON_induction (snd kv)) (all rest)
            end) props)
  end.

End JsonInduction.

(** Two JSON bodies that are the same except, possibly, for string
    values stored under a sensitive key of an object, where neither of
    the two differing strings has the shape of a URL. *)
Fixpoint sameButSensitive (a b : JSON) {struct a} : Prop :=
  match a, b with
  | JNull, JNull => True
  | JBool x, JBool y => x = y
  | JNumber x, JNumber y => x = y
  | JString x, JString y => x = y
  | JArray xs, JArray ys =>
      (fix items (xs ys : list JSON) : Prop :=
         match xs, ys with
         | [], [] => True
         | x :: xs', y :: ys' => sameButSensitive x y /\ items xs' ys'
         | _, _ => False
         end) xs ys
  | JObject ps, JObject qs =>
      (fix props (ps qs : list (string * JSON)) : Prop :=
         match ps, qs with
         | [], [] => True
         | (k, x) :: ps', (k', y) :: qs' =>
             k = k' /\
             match x, y with
             | JString v, JString w =>
                 v = w \/
                 (sensitiveKey k = true /\ jsonUrlShaped v = false /\ jsonUrlShaped w = false)
             | _, _ => sameButSensitive x y
             end /\
             props ps' qs'
         | _, _ => False
         end) ps qs
  | _, _ => False
  end.


(** The call of the endpoint examples. *)
Definition fetchLogin : string := "fetch('/api/login', {method:'POST'})".







(** ** Where a recorded link comes from *)

(** [link] was walked out of a JSON body received for [url]: the
    serialisation, up to its fragment, of a string value resolved
    against [url], which passed the scope test against [url]. *)
Definition jsonLink `{UrlApi} (url link : string) : Prop :=
  exists value u b,
    URL_new value (Some url) = Some u /\ URL_new url None = Some b /\
    link = Js.before "#" (URL_toString u) /\
    Js.startsWith link (URL_origin b) = true.




(** [link] begins with the text of the origin of [page] without the
    [/] of a path behind it.  The scope test of the scripts compares
    text ([startsWith]), so it lets such a link pass whatever its
    origin is. *)
Definition lookalike `{UrlApi} (page link : string) : bool :=
  match URL_new page None with
  | Some b =>
      Js.startsWith link (URL_origin b) && negb (Js.startsWith link (URL_origin b ++ "/"))
  | None => false
  end.


(** ** Shape of the URLs of the executable instance *)

(** The characters that end the authority of a URL. *)
Definition delimiter (a : ascii) : bool := Js.hasChar "/?#" a.



(** ** Concrete pages, for evaluating the scripts *)

Module Demo.

#[local] Existing Instance Whatwg.api.

Definition noDom : Dom :=
  {| d_anchors := []; d_forms := []; d_inlineScripts := []; d_resources := [] |}.

Definition pageAt (url : string) (dom : Dom) : PageView :=
  {| pv_url := url; pv_frameworks := Some []; pv_reactComponents := Some [];
     pv_dom := Some dom |}.

Definition anchorsOnly (hrefs : list string) : Dom :=
  {| d_anchors := hrefs; d_forms := []; d_inlineScripts := []; d_resources := [] |}.

Definition documentRequest (url : string) : RequestData :=
  {| rq_url := url; rq_method := "GET"; rq_headers := []; rq_postData := None;
     rq_resourceType := "document" |}.

Definition firstReady (s : State) : nat := 0.

(** A start page that the server redirects to another origin; every
    other navigation fails. *)
Definition redirectingWeb : Web :=
  {| onOpen := fun url =>
       if String.eqb url "https://a.test/"
       then Some ([], Loaded (pageAt "https://b.test/home" (anchorsOnly ["/x"])))
       else Some ([], GotoThrows);
     onSubmit := fun url _ _ => (url, url, pageAt url noDom) |}.

Definition redirectedRun : list Event :=
  Eval vm_compute in runEvents FormCrawler redirectingWeb firstReady 20 (initialState "https://a.test/").

Definition redirectedEnd : State :=
  Eval vm_compute in
    match crawl FormCrawler redirectingWeb firstReady 20 "https://a.test/" with
    | Some s => s
    | None => initialState "https://a.test/"
    end.

(** A start page linking to a host whose name merely begins with the
    name of the start host. *)
Definition lookalikeWeb : Web :=
  {| onOpen := fun url =>
       if String.eqb url "https://a.test/"
       then Some ([], Loaded (pageAt url (anchorsOnly ["https://a.test.evil.com/x"])))
       else Some ([], GotoThrows);
     onSubmit := fun url _ _ => (url, url, pageAt url noDom) |}.

(** Every navigation fails, after the request for the document has
    been seen by the [request] handler. *)
Definition unreachableWeb : Web :=
  {| onOpen := fun url => Some ([NetRequest (documentRequest url)], GotoThrows);
     onSubmit := fun url _ _ => (url, url, pageAt url noDom) |}.

(** The crawl right after its first turn: the start URL dispatched,
    nothing else yet. *)
Definition dispatchedOnly (startUrl : string) : State := loopHead (initialState startUrl).

(** A page that receives a JSON body with one sensitive key. *)
Definition tokenBody (value : string) : JSON := JObject [("token", JString value)].

Definition jsonResponse (url : string) (body : JSON) : ResponseData :=
  {| rs_request := {| rq_url := url; rq_method := "GET"; rq_headers := [];
                      rq_postData := None; rq_resourceType := "xhr" |};
     rs_url := url; rs_status := 200; rs_contentType := Some "application/json";
     rs_json := Some body |}.

Definition tokenWeb (value : string) : Web :=
  {| onOpen := fun url =>
       Some ([NetResponse (jsonResponse "https://a.test/me" (tokenBody value))],
             Loaded (pageAt url noDom));
     onSubmit := fun url _ _ => (url, url, pageAt url noDom) |}.

(** A start page with a search form whose submission leads to a
    results page. *)
Definition searchForm : FormElement :=
  {| f_action := Some "/search"; f_method := None; f_id := None; f_class := None;
     f_name := None; f_controls := [] |}.

Definition searchWeb : Web :=
  {| onOpen := fun url =>
       if String.eqb url "https://a.test/"
       then Some ([], Loaded (pageAt url {| d_anchors := []; d_forms := [searchForm];
                                            d_inlineScripts := []; d_resources := [] |}))
       else Some ([], Loaded (pageAt url noDom));
     onSubmit := fun url _ _ =>
       ("https://a.test/", "https://a.test/results",
        pageAt "https://a.test/results" (anchorsOnly ["/item/1"])) |}.

Definition searchSubmitting : State :=
  Eval vm_compute in
    match execTrace FormCrawler (initialState "https://a.test/")
            [CoordinatorTurn;
             InitialPass "https://a.test/" []
               (Loaded (pageAt "https://a.test/"
                          {| d_anchors := []; d_forms := [searchForm];
                             d_inlineScripts := []; d_resources := [] |}))] with
    | Some s => s
    | None => initialState "https://a.test/"
    end.

Definition searchSubmitted : State :=
  Eval vm_compute in
    match exec FormCrawler searchSubmitting
            (FormPass "https://a.test/" "https://a.test/" "https://a.test/results"
               (pageAt "https://a.test/results" (anchorsOnly ["/item/1"]))) with
    | Some s => s
    | None => searchSubmitting
    end.

(** The page of the resolution examples: requested under one path and
    redirected to [https://a.test/p/x]. *)
Definition requestedUrl : string := "https://a.test/a/b/c".

Definition landedPage : PageView :=
  pageAt "https://a.test/p/x"
    {| d_anchors := ["../y"; "#frag"];
       d_forms := [{| f_action := None; f_method := None; f_id := None; f_class := None;
                      f_name := None; f_controls := [] |};
                   {| f_action := Some "httpdocs/save"; f_method := Some "post";
                      f_id := None; f_class := None; f_name := None; f_controls := [] |}];
       d_inlineScripts := []; d_resources := [] |}.

Definition landedBase : Whatwg.Url :=
  {| Whatwg.scheme := "https"; Whatwg.host := "a.test"; Whatwg.port := None;
     Whatwg.path := ["p"; "x"]; Whatwg.query := None; Whatwg.fragment := None |}.

(** A form with neither action nor method. *)
Definition bareForm : FormElement :=
  {| f_action := None; f_method := None; f_id := None; f_class := None;
     f_name := None; f_controls := [] |}.


(** A script with the call of the example as its first [fetch]. *)
Definition loginScript : string :=
  "var user = 1; " ++ fetchLogin ++ "; load('/graphql')".




End Demo.

(** ** Filling and submitting a form ([submitForm]) *)

Module Submit.

(** The selector of a field (line 442): by id, else by name. *)
Definition selectorOf (field : InputData) : option string :=
  match in_id field, in_name field with
  | String c id, _ => Some ("#" ++ String c id)
  | EmptyString, String c name =>
      Some ("[name=" ++ String Js.dquote (String c name) ++ String Js.dquote "]")
  | EmptyString, EmptyString => None
  end.

(** The value for a [text] or [textarea] field (lines 457-461). *)
Definition textValue (name : string) : string :=
  let lowered := Js.toLowerCase name in
  if Js.includes lowered "email" then "test@example.com"
  else if Js.includes lowered "search" then "test search"
  else if Js.includes lowered "query" then "test query"
  else if Js.includes lowered "name" then "Test Name"
  else "test".

(** What one round of the loop over the fields does to the page. *)
Inductive FieldAction :=
| LeaveAlone
    (* [continue], or an exception caught by the [catch] of the round *)
| TypeInto (selector valueToFill : string)
    (* [page.type(selector, valueToFill)] *)
| ChooseOption (fieldName fieldId : string)
    (* the [page.evaluate] of lines 481-493 *)
| ClickUnlessChecked (selector : string).
    (* [element.click()] when [element.isChecked()] is false *)

(** [if (valueToFill) await page.type(...)]. *)
Definition typeInto (selector valueToFill : string) : FieldAction :=
  match valueToFill with
  | EmptyString => LeaveAlone
  | _ => TypeInto selector valueToFill
  end.

(** One round of the loop (lines 441-523).  [present selector] is the
    outcome of [page.$(selector)]: [Some true] for an element, [Some
    false] for [null], [None] when the call throws. *)
Definition fieldAction (present : string -> option bool) (field : InputData) : FieldAction :=
  match selectorOf field with
  | None => LeaveAlone
  | Some selector =>
      match present selector with
      | Some true =>
          let type := in_type field in
          if String.eqb type "hidden" then LeaveAlone
          else if String.eqb type "text" || String.eqb type "textarea"
          then typeInto selector (textValue (in_name field))
          else if String.eqb type "email" then typeInto selector "test@example.com"
          else if String.eqb type "password" then typeInto selector "Password123!"
          else if String.eqb type "number" then typeInto selector "123"
          else if String.eqb type "tel" then typeInto selector "1234567890"
          else if String.eqb type "url" then typeInto selector "http://example.com"
          else if String.eqb type "select-one" || String.eqb type "select"
          then ChooseOption (in_name field) (in_id field)
          else if String.eqb type "checkbox" then ClickUnlessChecked selector
          else if String.eqb type "radio" then ClickUnlessChecked selector
          else LeaveAlone
      | _ => LeaveAlone
      end
  end.

Definition fillForm (present : string -> option bool) (formDetails : FormDetails)
  : list FieldAction :=
  map (fieldAction present) (fm_fields formDetails).

(** [[type="submit"]] *)
Definition typeSubmit : string :=
  "[type=" ++ String Js.dquote "submit" ++ String Js.dquote "]".

(** [submitButtonSelectors] (lines 528-538). *)
Definition submitButtonSelectors (formDetails : FormDetails) : list string :=
  let byId := "form#" ++ fm_id formDetails in
  let byName :=
    "form[name=" ++ String Js.dquote (fm_name formDetails) ++ String Js.dquote "]" in
  [byId ++ " input" ++ typeSubmit;
   byName ++ " input" ++ typeSubmit;
   byId ++ " button" ++ typeSubmit;
   byName ++ " button" ++ typeSubmit;
   byId ++ " button:not([type])";
   byName ++ " button:not([type])";
   "input" ++ typeSubmit;
   "button" ++ typeSubmit;
   "button"].

(** A candidate element as the two [page.evaluate] calls of lines
    545-546 see it: [innerText || value] (the empty string when that is
    falsy) and the id or name of its form, [None] for an element
    outside any form. *)
Record Button := { b_label : string; b_form : option string }.

Definition submitWords : list string :=
  ["submit"; "search"; "login"; "signin"; "go"; "filter";
   "applica"; "cerca"; "invia"; "continua"; "procedi"].

(** Line 549. *)
Definition inFormContext (formDetails : FormDetails) (btn : Button) : bool :=
  match b_form btn with
  | Some formOfButton =>
      String.eqb formOfButton (fm_id formDetails)
      || String.eqb formOfButton (fm_name formDetails)
  | None => false
  end
  || (String.eqb (fm_id formDetails) "" && String.eqb (fm_name formDetails) "").

(** Lines 550-554. *)
Definition looksLikeSubmit (sbSelector : string) (btn : Button) : bool :=
  Js.includes sbSelector typeSubmit
  || existsb (Js.includes (Js.toLowerCase (b_label btn))) submitWords.

Definition eligible (formDetails : FormDetails) (sbSelector : string) (btn : Button) : bool :=
  inFormContext formDetails btn && looksLikeSubmit sbSelector btn.

(** The search for the submit button (lines 540-564).  [query
    sbSelector] is what the round of [sbSelector] sees: the buttons of
    [page.$$(sbSelector)], or [None] when the round throws before a
    button has passed the tests ([page.$$] or a [page.evaluate]
    rejects), which the [catch] of the round turns into the next
    selector. *)
Fixpoint firstEligible (query : string -> option (list Button)) (formDetails : FormDetails)
  (selectors : list string) : option Button :=
  match selectors with
  | [] => None
  | sbSelector :: rest =>
      match query sbSelector with
      | Some buttons =>
          match find (eligible formDetails sbSelector) buttons with
          | Some btn => Some btn
          | None => firstEligible query formDetails rest
          end
      | None => firstEligible query formDetails rest
      end
  end.

Definition submitButton (query : string -> option (list Button)) (formDetails : FormDetails)
  : option Button :=
  firstEligible query formDetails (submitButtonSelectors formDetails).

End Submit.

(** ** The summary of [saveResults] *)

(** [summaryReport], without its time stamp. *)
Record Summary := {
  sm_crawledUrls : list string;
  sm_totalLinks : nat;
  sm_totalForms : nat;
  sm_totalEndpoints : nat;
  sm_detectedFrameworks : list string;
  sm_reactComponents : list string
}.

Definition summaryReport (s : State) : Summary :=
  {| sm_crawledUrls := visited s;
     sm_totalLinks := length (linksFound s);
     sm_totalForms := length (formsFound s);
     sm_totalEndpoints := length (endpointsFound s);
     sm_detectedFrameworks := jsFrameworksDetected s;
     sm_reactComponents := reactComponentsFound s |}.

(** ** Further notions for statements *)

(** The tags an endpoint entry can begin with. *)
Definition endpointTags : list string :=
  ["[INTERCEPTED] "; "[API_ERROR_"; "[JSON_API_RESPONSE] "; "[JSON_SENSITIVE_KEY] ";
   "[SCRIPT_EVIDENT] "; "[SCRIPT_URL_ONLY] "; "[RESOURCE_URL] "].

Definition tagged (entry : string) : bool := existsb (Js.startsWith entry) endpointTags.

(** [value] is stored as a string under [key] in an object somewhere
    inside a JSON body. *)
Inductive stringAt (key value : string) : JSON -> Prop :=
| at_property (props : list (string * JSON)) :
    In (key, JString value) props -> stringAt key value (JObject props)
| below_property (props : list (string * JSON)) (k : string) (j : JSON) :
    In (k, j) props -> stringAt key value j -> stringAt key value (JObject props)
| below_item (items : list JSON) (j : JSON) :
    In j items -> stringAt key value j -> stringAt key value (JArray items).

(** A JSON body without any string value. *)
Fixpoint stringless (j : JSON) : bool :=
  match j with
  | JString _ => false
  | JArray items => forallb stringless items
  | JObject props => forallb (fun kv => stringless (snd kv)) props
  | JNull | JBool _ | JNumber _ => true
  end.

(** The requests among the network events that are not [GET]
    requests, in the order of arrival. *)
Definition nonGetRequests (net : list NetEvent) : list RequestData :=
  flat_map
    (fun e => match e with
              | NetRequest request =>
                  if String.eqb (rq_method request) "GET" then [] else [request]
              | NetResponse _ => []
              end)
    net.

(** The URLs that form submissions of a run led to. *)
Definition formTargets (trace : list Event) : list string :=
  flat_map
    (fun e => match e with
              | FormPass _ _ urlAfterSubmit _ => [urlAfterSubmit]
              | _ => []
              end)
    trace.

Definition queuedUrls (s : State) : list string := map item_url (queue s).

(** A pattern whose every match takes at least one character. *)
Fixpoint consuming (r : regex) : bool :=
  match r with
  | Eps | Star _ | Opt _ => false
  | Chr _ | Cls _ => true
  | Cat r1 r2 => consuming r1 || consuming r2
  | Alt r1 r2 => consuming r1 && consuming r2
  | Cap _ r1 => consuming r1
  end.

(** What a run has found so far. *)
Definition results (s : State) :=
  (linksFound s, formsFound s, endpointsFound s, reactComponentsFound s,
   jsFrameworksDetected s, requestsToReplicate s).

(** The links a session holds for the queue. *)
Definition pendingLinks (session : Session) : list string :=
  match session with
  | Extracting => []
  | Submitting _ _ newLinksFromPage => newLinksFromPage
  | Closing newLinks => newLinks
  end.

(** Where the URLs of a run come from: what waits in the queue or was
    handed to a session is the start URL or a recorded link, and what a
    session holds for the queue is a recorded link or already in
    [visited]. *)
Definition sourced (startUrl : string) (s : State) : Prop :=
  (forall it, In it (queue s) ->
              item_url it = startUrl \/ In (item_url it) (linksFound s)) /\
  (forall it, In it (processed s) ->
              item_url it = startUrl \/ In (item_url it) (linksFound s)) /\
  (forall u t l, In (u, t) (activePages s) -> In l (pendingLinks (t_session t)) ->
                 In l (linksFound s) \/ In l (visited s)).

(** [l] has been crawled or waits to be. *)
Definition covered (l : string) (s : State) : Prop :=
  In l (visited s) \/ In l (queuedUrls s).

(** The sets of a state hold no element twice. *)
Definition distinct (s : State) : Prop :=
  NoDup (visited s) /\ NoDup (linksFound s) /\ NoDup (formsFound s) /\
  NoDup (endpointsFound s) /\ NoDup (reactComponentsFound s) /\
  NoDup (jsFrameworksDetected s).

(** The elements of [l] in the order in which they first occur, each
    of them once. *)
Fixpoint firstOccurrences (l : list string) : list string :=
  match l with
  | [] => []
  | x :: rest => x :: filter (fun y => negb (String.eqb x y)) (firstOccurrences rest)
  end.

(** [l'] is [l] with more behind it. *)
Definition extends {A : Type} (l l' : list A) : Prop := exists more, l' = (l ++ more)%list.

(** Every result list of [s'] is that of [s] with more behind it. *)
Definition appended (s s' : State) : Prop :=
  extends (linksFound s) (linksFound s') /\
  extends (formsFound s) (formsFound s') /\
  extends (endpointsFound s) (endpointsFound s') /\
  extends (reactComponentsFound s) (reactComponentsFound s') /\
  extends (jsFrameworksDetected s) (jsFrameworksDetected s') /\
  extends (requestsToReplicate s) (requestsToReplicate s').

(** Findings of the expected shape: links hold no [#], endpoint
    entries begin with a tag. *)
Definition shaped (pd : PageData) : Prop :=
  Forall (fun l => Js.hasChar l "#" = false) (links pd) /\
  Forall (fun e => tagged e = true) (endpoints pd).

(** ** More concrete inputs *)

Module Sample.

#[local] Existing Instance Whatwg.api.
Import Demo.

(** The redirected run up to the moment the first session is about to
    settle, that moment, and the rest of the run. *)
Definition untilSettling : list Event := firstn 2 redirectedRun.
Definition afterSettling : list Event := skipn 3 redirectedRun.

Definition settling : State :=
  Eval vm_compute in
    match execTrace FormCrawler (initialState "https://a.test/") untilSettling with
    | Some s => s
    | None => initialState "https://a.test/"
    end.

Definition settled : State :=
  Eval vm_compute in
    match exec FormCrawler settling (SessionSettles "https://a.test/") with
    | Some s => s
    | None => settling
    end.

(** A run on a page that receives a JSON body with a sensitive key. *)
Definition tokenRun : list Event :=
  Eval vm_compute in
    runEvents FormCrawler (tokenWeb "/me") firstReady 20 (initialState "https://a.test/").

Definition tokenEnd : State :=
  Eval vm_compute in
    match crawl FormCrawler (tokenWeb "/me") firstReady 20 "https://a.test/" with
    | Some s => s
    | None => initialState "https://a.test/"
    end.

(** A session whose page could not be opened. *)
Definition pageFailed : State :=
  Eval vm_compute in
    match exec FormCrawler (dispatchedOnly "https://a.test/") (PageFails "https://a.test/") with
    | Some s => s
    | None => dispatchedOnly "https://a.test/"
    end.

(** A body with a token two levels down. *)
Definition nestedBody : JSON :=
  JObject [("status", JNumber "200");
           ("data", JArray [JObject [("accessToken", JString "abc");
                                    ("avatar", JString "/img/me.png")]])].

(** A page whose second form has an action that [new URL] rejects. *)
Definition brokenAction : FormElement :=
  {| f_action := Some "//["; f_method := Some "post"; f_id := None; f_class := None;
     f_name := None; f_controls := [] |}.

Definition brokenFormDom : Dom :=
  {| d_anchors := ["/a"]; d_forms := [searchForm; brokenAction; bareForm];
     d_inlineScripts := [loginScript]; d_resources := [] |}.

(** A failing call of an API, and what the initial pass keeps of it
    when the navigation throws. *)
Definition graphqlRequest : RequestData :=
  {| rq_url := "https://a.test/graphql"; rq_method := "POST"; rq_headers := [];
     rq_postData := Some "{}"; rq_resourceType := "xhr" |}.

Definition graphqlFailure : ResponseData :=
  {| rs_request := graphqlRequest; rs_url := "https://a.test/graphql"; rs_status := 500;
     rs_contentType := None; rs_json := None |}.

Definition apiCalls : list NetEvent :=
  [NetRequest (documentRequest "https://a.test/"); NetRequest graphqlRequest;
   NetResponse graphqlFailure].

Definition apiFindings : PageData :=
  Eval vm_compute in
    match extractInfoInitial "https://a.test/" apiCalls GotoThrows with
    | Some data => data
    | None => emptyPageData
    end.

(** Findings of a pass after a form submission: one link that the run
    has recorded already, one that it has not. *)
Definition postFindings : PageData :=
  {| links := ["https://b.test/x"; "https://a.test/new"]; forms := []; endpoints := [];
     reactComponents := []; jsFrameworks := []; requestsToReplicateForPage := [] |}.

Definition merged : State * list string :=
  Eval vm_compute in mergePost postFindings ["https://b.test/x"] settling.

(** A text box without a [type] attribute. *)
Definition untypedInput : ControlElement :=
  {| c_tagName := "INPUT"; c_name := Some "q"; c_type := None; c_id := None;
     c_value := None; c_required := None; c_placeholder := None |}.

End Sample.
(** ** Facts about the insertion-ordered sets *)

Lemma has_true (x : string) (s : Js.SetOf string) : Js.has x s = true <-> In x s.
Proof.
  unfold Js.has; split; intro Hx.
  - now apply set_mem_correct1 in Hx.
  - now apply set_mem_correct2.
Qed.

Lemma has_false (x : string) (s : Js.SetOf string) : Js.has x s = false <-> ~ In x s.
Proof.
  rewrite <- has_true. destruct (Js.has x s); split; intro Hx; congruence.
Qed.

Lemma add_In (x y : string) (s : Js.SetOf string) : In y (Js.add x s) <-> y = x \/ In y s.
Proof. apply set_add_iff. Qed.

Lemma addAll_In (xs : list string) (y : string) (s : Js.SetOf string) :
  In y (Js.addAll xs s) <-> In y xs \/ In y s.
Proof.
  unfold Js.addAll. revert s.
  induction xs as [|x xs IH]; intro s; simpl.
  - tauto.
  - rewrite IH, add_In. intuition congruence.
Qed.

Lemma existsb_eqb_In (x : string) (l : list string) :
  existsb (String.eqb x) l = true <-> In x l.
Proof.
  rewrite existsb_exists. split.
  - intros (y & Hy & Heq). apply String.eqb_eq in Heq. now subst.
  - intro Hx. exists x. split; [assumption | apply String.eqb_refl].
Qed.

(** ** How one segment of the crawl changes [visited] and the session log *)

Lemma grows_refl (s : State) : grows s s.
Proof.
  split; [auto|]. exists []. rewrite app_nil_r. repeat split; constructor.
Qed.

Lemma grows_same (s s' : State) :
  visited s' = visited s -> processed s' = processed s -> grows s s'.
Proof.
  intros Hv Hp. split.
  - intros u Hu. now rewrite Hv.
  - exists []. rewrite app_nil_r. repeat split; [assumption | constructor | constructor].
Qed.

Lemma grows_trans (s1 s2 s3 : State) : grows s1 s2 -> grows s2 s3 -> grows s1 s3.
Proof.
  intros (Hv12 & n1 & Hp1 & Hn1 & Hf1) (Hv23 & n2 & Hp2 & Hn2 & Hf2).
  split; [auto|].
  exists (n1 ++ n2)%list. split; [|split].
  - now rewrite Hp2, Hp1, app_assoc.
  - rewrite map_app. rewrite Forall_forall in Hf1, Hf2.
    apply NoDup_app; try assumption.
    intros u Hu1 Hu2.
    apply in_map_iff in Hu1 as (a & <- & Ha).
    apply in_map_iff in Hu2 as (b & Heq & Hb).
    destruct (Hf1 a Ha) as (_ & Hin & _).
    destruct (Hf2 b Hb) as (Hnot & _).
    apply Hnot. now rewrite Heq.
  - apply Forall_app. split.
    + eapply Forall_impl; [|exact Hf1]. intros a (Ha1 & Ha2 & Ha3). auto.
    + eapply Forall_impl; [|exact Hf2]. intros a (Ha1 & Ha2 & Ha3). auto.
Qed.

(** Case analysis on the event of a step, and on the session that a
    session event names. *)
Ltac each_event e :=
  destruct e as [| | |url|url net nav|url before after pv|url].

Ltac session_of url s Hget :=
  destruct (mapGet url (activePages s))
    as [[depth [|formDetail rest newLinks|newLinks]]|] eqn:Hget;
  try discriminate.

Section CrawlFacts.
Context `{UrlApi}.
Variable script : Script.

Lemma beginSession_grows (url : string) (depth : nat) (s : State) :
  grows s (fst (beginSession url depth s)).
Proof.
  unfold beginSession.
  destruct (Js.has url (visited s)) eqn:Hhas; simpl; [apply grows_refl|].
  destruct (MAX_DEPTH <? depth)%nat eqn:Hd; simpl; [apply grows_refl|].
  apply Nat.ltb_ge in Hd. apply has_false in Hhas.
  split; simpl.
  - intros u Hu. apply add_In. now right.
  - exists [{| item_url := url; item_depth := depth |}]. repeat split.
    + simpl. constructor; [intros [] | constructor].
    + constructor; [|constructor]. simpl. repeat split; try assumption.
      apply add_In. now left.
Qed.

Lemma dispatch_grows (item : Item) (s : State) : grows s (dispatch item s).
Proof.
  unfold dispatch.
  match goal with |- context [beginSession ?u ?d ?s1] =>
    pose proof (beginSession_grows u d s1) as Hg;
    destruct (beginSession u d s1) as [s2 session] end.
  simpl in Hg. eapply grows_trans; [|apply grows_same; reflexivity].
  destruct Hg as (Hv & new & Hp & Hn & Hf). split; [exact Hv|].
  exists new. auto.
Qed.

Lemma fill_grows (q : list Item) (s : State) : grows s (fill q s).
Proof.
  revert s. induction q as [|item rest IH]; intro s; simpl.
  - apply grows_same; reflexivity.
  - destruct (length (activePages s) <? MAX_CONCURRENT_PAGES)%nat.
    + destruct (Js.has (item_url item) (visited s) || (MAX_DEPTH <? item_depth item)%nat).
      * apply IH.
      * eapply grows_trans; [apply dispatch_grows | apply IH].
    + apply grows_same; reflexivity.
Qed.

Lemma awaitOrReturn_grows (s : State) : grows s (awaitOrReturn s).
Proof.
  unfold awaitOrReturn.
  destruct (activePages s); [destruct (queue s)|]; apply grows_same; reflexivity.
Qed.

Lemma loopHead_grows (s : State) : grows s (loopHead s).
Proof.
  unfold loopHead.
  destruct (queue s) as [|i q] eqn:Hq; destruct (activePages s) as [|a m] eqn:Ha;
    try (apply grows_same; reflexivity);
    (eapply grows_trans; [apply fill_grows | apply awaitOrReturn_grows]).
Qed.

Lemma requeue_same (depth : nat) (newLinks : list string) (s : State) :
  visited (requeue depth newLinks s) = visited s /\
  processed (requeue depth newLinks s) = processed s /\
  activePages (requeue depth newLinks s) = activePages s /\
  coordinator (requeue depth newLinks s) = coordinator s.
Proof.
  revert s. induction newLinks as [|link rest IH]; intro s; simpl; [auto|].
  match goal with |- context [if ?c then _ else _] => destruct c end.
  - destruct (IH (withQueue (queue s ++ [{| item_url := link; item_depth := depth + 1 |}]) s))
      as (-> & -> & -> & ->). auto.
  - apply IH.
Qed.

Lemma mergePost_same (post : PageData) (newLinks : list string) (s : State) :
  visited (fst (mergePost post newLinks s)) = visited s /\
  processed (fst (mergePost post newLinks s)) = processed s /\
  queue (fst (mergePost post newLinks s)) = queue s /\
  activePages (fst (mergePost post newLinks s)) = activePages s /\
  coordinator (fst (mergePost post newLinks s)) = coordinator s.
Proof.
  unfold mergePost. destruct (mergePostLinks (links post) (linksFound s) newLinks). simpl. auto.
Qed.

Lemma adoptNavigation_grows (url before after : string) (newLinks : list string)
  (s s' : State) (newLinks' : list string) :
  adoptNavigation url before after newLinks s = Some (s', newLinks') -> grows s s'.
Proof.
  unfold adoptNavigation.
  destruct (negb (after =? before)%string && negb (Js.has after (visited s))).
  - destruct (inScope url after) as [[|]|]; intro Heq; inversion Heq; subst.
    + split; simpl.
      * intros u Hu. apply add_In. now right.
      * exists []. rewrite app_nil_r. repeat split; constructor.
    + apply grows_refl.
  - intro Heq; inversion Heq; subst. apply grows_refl.
Qed.

Lemma exec_grows (s s' : State) (e : Event) : exec script s e = Some s' -> grows s s'.
Proof.
  each_event e; simpl.
  - destruct (coordinator s); intro Heq; inversion Heq. apply loopHead_grows.
  - destruct (coordinator s) as [|racing| |]; try discriminate.
    destruct (raceSettled racing s); intro Heq; inversion Heq.
    unfold afterRace.
    destruct (queue s); destruct (activePages s);
      first [apply loopHead_grows | apply grows_same; reflexivity].
  - destruct (coordinator s); intro Heq; inversion Heq. apply loopHead_grows.
  - session_of url s Hget.
    intro Heq; inversion Heq. apply grows_same; reflexivity.
  - session_of url s Hget.
    intro Heq; inversion Heq. unfold afterInitialPass.
    destruct (initialData script url net nav) as [data|];
      [|apply grows_same; reflexivity].
    destruct script; destruct (forms data); try (apply grows_same; reflexivity).
    destruct (depth <? MAX_DEPTH)%nat; apply grows_same; reflexivity.
  - session_of url s Hget.
    intro Heq; inversion Heq. unfold afterFormPass.
    destruct (URL_new (fm_action formDetail) (Some url)); [|apply grows_same; reflexivity].
    destruct (extractInfoSubsequent after pv) as [post|]; [|apply grows_same; reflexivity].
    pose proof (mergePost_same post newLinks s) as (Hv & Hp & _).
    destruct (mergePost post newLinks s) as [s1 newLinks1]. simpl in Hv, Hp.
    assert (Hg1 : grows s s1) by (apply grows_same; assumption).
    destruct (adoptNavigation url before after newLinks1 s1) as [[s2 newLinks2]|] eqn:Had.
    + apply adoptNavigation_grows in Had.
      eapply grows_trans; [exact Hg1|]. eapply grows_trans; [exact Had|].
      destruct rest; apply grows_same; reflexivity.
    + eapply grows_trans; [exact Hg1 | apply grows_same; reflexivity].
  - session_of url s Hget.
    intro Heq; inversion Heq. unfold settle.
    destruct (requeue_same depth newLinks s) as (Hv & Hp & _).
    apply grows_same; simpl; assumption.
Qed.

Lemma execTrace_grows (trace : list Event) (s s' : State) :
  execTrace script s trace = Some s' -> grows s s'.
Proof.
  revert s. induction trace as [|e rest IH]; intro s; simpl.
  - intro Heq; inversion Heq. apply grows_refl.
  - destruct (exec script s e) as [s1|] eqn:He; [|discriminate].
    intro Hr. eapply grows_trans; [eapply exec_grows; eassumption | now apply IH].
Qed.

End CrawlFacts.
(** ** Termination of the crawl loop *)

Lemma lexlt_length (l' l : list nat) : lexlt l' l -> length l' = length l.
Proof. induction 1; simpl; congruence. Qed.

Lemma lexlt_Acc (n : nat) : forall l, length l = n -> Acc lexlt l.
Proof.
  induction n as [|n IHn]; intros l Hl.
  - destruct l; [|discriminate]. constructor. intros l' Hlt. inversion Hlt.
  - destruct l as [|x xs]; [discriminate|]. injection Hl as Hl.
    revert xs Hl. induction x as [x IHx] using (well_founded_induction lt_wf).
    intros xs Hl. pose proof (IHn xs Hl) as Hacc.
    induction Hacc as [xs _ IHxs].
    constructor. intros l' Hlt. inversion Hlt; subst.
    + apply IHx; [assumption | congruence].
    + apply IHxs; [assumption|]. now apply lexlt_length.
Qed.

(** Strictly smaller at some position and nowhere larger in front of
    it is enough. *)
Lemma lexlt_pointwise (l' l : list nat) (i : nat) :
  length l' = length l -> i < length l ->
  nth i l' 0 < nth i l 0 ->
  (forall j, j < i -> nth j l' 0 <= nth j l 0) ->
  lexlt l' l.
Proof.
  revert l' i. induction l as [|y ys IH]; intros l' i Hlen Hi Hlt Hle; [simpl in Hi; lia|].
  destruct l' as [|x xs]; [discriminate|]. injection Hlen as Hlen.
  destruct i as [|i].
  - simpl in Hlt. now apply lex_head.
  - pose proof (Hle 0 (Nat.lt_0_succ i)) as H0. simpl in H0.
    destruct (Nat.eq_dec x y) as [->|Hne].
    + apply lex_tail. apply (IH xs i); simpl in *; try lia.
      intros j Hj. apply (Hle (S j)). lia.
    + apply lex_head; [lia | assumption].
Qed.

Lemma below_wf : well_founded below.
Proof.
  apply (wf_inverse_image State (list nat) lexlt rank).
  intro l. now apply (lexlt_Acc (length l)).
Qed.

Lemma rank_nth (i : nat) (s : State) : i < 11 -> nth i (rank s) 0 = component i s.
Proof.
  intro Hi. unfold rank.
  do 11 (destruct i as [|i]; [reflexivity|]). lia.
Qed.

Lemma below_by_component (s' s : State) (i : nat) :
  i < 11 -> component i s' < component i s ->
  (forall j, j < i -> component j s' <= component j s) ->
  below s' s.
Proof.
  intros Hi Hlt Hle. unfold below.
  apply (lexlt_pointwise _ _ i).
  - unfold rank. now rewrite !length_map.
  - unfold rank. now rewrite length_map, length_seq.
  - now rewrite !rank_nth.
  - intros j Hj. rewrite !rank_nth by lia. auto.
Qed.

Lemma poolWeight_mapSet_le (i : nat) (k : string) (t : Task) (m : list (string * Task)) :
  poolWeight i (mapSet k t m) <= poolWeight i m + taskWeight i t.
Proof.
  unfold poolWeight. induction m as [|[k' t'] m IH]; simpl; [lia|].
  destruct (k' =? k)%string; simpl; lia.
Qed.

Lemma poolWeight_mapSet (i : nat) (k : string) (t t' : Task) (m : list (string * Task)) :
  mapGet k m = Some t ->
  poolWeight i (mapSet k t' m) + taskWeight i t = poolWeight i m + taskWeight i t'.
Proof.
  unfold poolWeight. induction m as [|[k0 t0] m IH]; simpl; [discriminate|].
  destruct (k0 =? k)%string; simpl.
  - intro Heq; inversion Heq; subst. lia.
  - intro Hget. specialize (IH Hget). lia.
Qed.

Lemma poolWeight_mapDelete_le (i : nat) (k : string) (m : list (string * Task)) :
  poolWeight i (mapDelete k m) <= poolWeight i m.
Proof.
  unfold poolWeight, mapDelete. induction m as [|[k0 t0] m IH]; simpl; [lia|].
  destruct (k0 =? k)%string; simpl; lia.
Qed.

Lemma poolWeight_mapDelete (i : nat) (k : string) (t : Task) (m : list (string * Task)) :
  mapGet k m = Some t ->
  poolWeight i (mapDelete k m) + taskWeight i t <= poolWeight i m.
Proof.
  unfold poolWeight, mapDelete. induction m as [|[k0 t0] m IH]; simpl; [discriminate|].
  destruct (k0 =? k)%string eqn:Hk; simpl.
  - intro Heq; inversion Heq; subst.
    pose proof (poolWeight_mapDelete_le i k m) as Hle.
    unfold poolWeight, mapDelete in Hle. lia.
  - intro Hget. specialize (IH Hget). lia.
Qed.

Lemma mapSet_keys (k : string) (t t' : Task) (m : list (string * Task)) :
  mapGet k m = Some t -> keys (mapSet k t' m) = keys m.
Proof.
  unfold keys. induction m as [|[k0 t0] m IH]; simpl; [discriminate|].
  destruct (k0 =? k)%string eqn:Hk; simpl.
  - intros _. apply String.eqb_eq in Hk. now subst.
  - intro Hget. now rewrite IH.
Qed.

Lemma fresh_race_unsettled (s : State) (c : Coordinator) :
  raceSettled (keys (activePages s)) (withCoordinator c s) = false.
Proof.
  unfold raceSettled. simpl.
  apply not_true_is_false. intro Hex.
  apply existsb_exists in Hex as (u & Hu & Hneg).
  apply negb_true_iff in Hneg.
  assert (Hin : existsb (String.eqb u) (keys (activePages s)) = true)
    by now apply existsb_eqb_In.
  congruence.
Qed.

Section Ranking.
Context `{UrlApi}.
Variable script : Script.

Lemma dispatch_weight (i : nat) (item : Item) (s : State) :
  Js.has (item_url item) (visited s) || (MAX_DEPTH <? item_depth item)%nat = false ->
  poolWeight i (activePages (dispatch item s)) <= itemWeight i item + poolWeight i (activePages s)
  /\ coordinator (dispatch item s) = coordinator s.
Proof.
  intro Hguard. unfold dispatch, beginSession. simpl. rewrite Hguard. simpl.
  split; [|reflexivity].
  eapply Nat.le_trans; [apply poolWeight_mapSet_le|].
  unfold taskWeight, itemWeight. cbn [t_session t_depth].
  destruct (2 * level (item_depth item) =? i); lia.
Qed.

Lemma fill_weight (i : nat) (q : list Item) (s : State) :
  queueWeight i (queue (fill q s)) + poolWeight i (activePages (fill q s))
  <= queueWeight i q + poolWeight i (activePages s)
  /\ coordinator (fill q s) = coordinator s.
Proof.
  revert s. induction q as [|item rest IH]; intro s; simpl.
  - split; [lia | reflexivity].
  - destruct (length (activePages s) <? MAX_CONCURRENT_PAGES)%nat.
    + destruct (Js.has (item_url item) (visited s) || (MAX_DEPTH <? item_depth item)%nat)
        eqn:Hguard.
      * destruct (IH s) as (Hle & Hc). split; [|assumption].
        unfold queueWeight in *. simpl. lia.
      * destruct (IH (dispatch item s)) as (Hle & Hc).
        destruct (dispatch_weight i item s Hguard) as (Hd & Hcd).
        split; [|congruence].
        unfold queueWeight in *. simpl. lia.
    + simpl. split; [lia | reflexivity].
Qed.

Lemma fill_stops (q : list Item) (s : State) :
  queue (fill q s) <> [] -> MAX_CONCURRENT_PAGES <= length (activePages (fill q s)).
Proof.
  revert s. induction q as [|item rest IH]; intro s; simpl.
  - intro Hne. now elim Hne.
  - destruct (length (activePages s) <? MAX_CONCURRENT_PAGES)%nat eqn:Hfull.
    + destruct (Js.has (item_url item) (visited s) || (MAX_DEPTH <? item_depth item)%nat);
        apply IH.
    + intros _. simpl. now apply Nat.ltb_ge in Hfull.
Qed.

Lemma awaitOrReturn_weight (s : State) :
  (queue s <> [] -> MAX_CONCURRENT_PAGES <= length (activePages s)) ->
  queue (awaitOrReturn s) = queue s /\ activePages (awaitOrReturn s) = activePages s
  /\ coordinatorWeight (awaitOrReturn s) = 0.
Proof.
  intro Hstop. unfold awaitOrReturn.
  destruct (activePages s) as [|a m] eqn:Ha.
  - destruct (queue s) as [|it q] eqn:Hq; simpl.
    + auto.
    + exfalso. assert (Hne : it :: q <> []) by discriminate.
      specialize (Hstop Hne). unfold MAX_CONCURRENT_PAGES in Hstop. simpl in Hstop. lia.
  - split; [reflexivity|]. split; [simpl; assumption|].
    unfold coordinatorWeight. cbn [coordinator withCoordinator].
    rewrite <- Ha. now rewrite fresh_race_unsettled.
Qed.

(** From the loop head the queue and the pool do not gain weight, and
    the coordinator ends up awaiting a fresh race or returned. *)
Lemma loopHead_weight (s : State) :
  (forall i, queueWeight i (queue (loopHead s)) + poolWeight i (activePages (loopHead s))
             <= queueWeight i (queue s) + poolWeight i (activePages s))
  /\ coordinatorWeight (loopHead s) = 0.
Proof.
  assert (Hgen : (forall i, queueWeight i (queue (awaitOrReturn (fill (queue s) s)))
                            + poolWeight i (activePages (awaitOrReturn (fill (queue s) s)))
                            <= queueWeight i (queue s) + poolWeight i (activePages s))
                 /\ coordinatorWeight (awaitOrReturn (fill (queue s) s)) = 0).
  { destruct (awaitOrReturn_weight (fill (queue s) s) (fill_stops (queue s) s))
      as (Hq & Ha & Hc).
    split; [|assumption]. intro i. rewrite Hq, Ha. apply fill_weight. }
  unfold loopHead.
  destruct (queue s) as [|it q] eqn:Hq; destruct (activePages s) as [|a m] eqn:Ha;
    try exact Hgen.
  split; [|reflexivity]. intro i. cbn [queue activePages withCoordinator].
  rewrite Hq, Ha. apply Nat.le_refl.
Qed.

End Ranking.

Lemma component_inner (i : nat) (s : State) :
  i < 10 -> component i s = queueWeight i (queue s) + poolWeight i (activePages s).
Proof.
  intro Hi. unfold component. destruct (i =? 10) eqn:Heq; [|lia].
  apply Nat.eqb_eq in Heq. lia.
Qed.

Lemma queueWeight_app (i : nat) (q : list Item) (it : Item) :
  queueWeight i (q ++ [it]) = queueWeight i q + itemWeight i it.
Proof.
  unfold queueWeight. rewrite map_app, list_sum_app. simpl. lia.
Qed.

Section Decrease.
Context `{UrlApi}.
Variable script : Script.

Lemma requeue_weight (j depth : nat) (newLinks : list string) (s : State) :
  j <= 2 * level depth + 1 ->
  queueWeight j (queue (requeue depth newLinks s)) = queueWeight j (queue s).
Proof.
  intro Hj. revert s. induction newLinks as [|link rest IH]; intro s; simpl; [reflexivity|].
  destruct (depth + 1 <=? MAX_DEPTH) eqn:Hd.
  - match goal with |- context [if ?c then _ else _] => destruct c end; [|apply IH].
    rewrite IH. cbn [queue withQueue]. rewrite queueWeight_app.
    apply Nat.leb_le in Hd. unfold MAX_DEPTH in Hd.
    unfold itemWeight, level in *. cbn [item_depth].
    destruct (2 * Nat.min (depth + 1) 4 =? j) eqn:Heq; [|lia].
    apply Nat.eqb_eq in Heq. lia.
  - rewrite !andb_false_r. apply IH.
Qed.

(** A coordinator segment: the inner components do not grow and the
    last one drops. *)
Lemma coordinator_step_below (s s' : State) :
  (forall i, queueWeight i (queue s') + poolWeight i (activePages s')
             <= queueWeight i (queue s) + poolWeight i (activePages s)) ->
  coordinatorWeight s' < coordinatorWeight s ->
  below s' s.
Proof.
  intros Hle Hc. apply (below_by_component s' s 10); [lia| |].
  - unfold component. simpl. specialize (Hle 10). lia.
  - intros j Hj. rewrite !component_inner by assumption. apply Hle.
Qed.

(** A session segment: the session at key [url] moves on. *)
Lemma session_step_below (s s' : State) (url : string) (t t' : Task) (i : nat) :
  mapGet url (activePages s) = Some t ->
  activePages s' = mapSet url t' (activePages s) ->
  queue s' = queue s ->
  i < 10 ->
  taskWeight i t' < taskWeight i t ->
  (forall j, j < i -> taskWeight j t' = 0) ->
  below s' s.
Proof.
  intros Hget Ha Hq Hi Hlt Hzero. apply (below_by_component s' s i); [lia| |].
  - rewrite !component_inner by assumption. rewrite Ha, Hq.
    pose proof (poolWeight_mapSet i url t t' (activePages s) Hget). lia.
  - intros j Hj. rewrite !component_inner by lia. rewrite Ha, Hq.
    pose proof (poolWeight_mapSet_le j url t' (activePages s)).
    rewrite (Hzero j Hj) in *. lia.
Qed.

Lemma level_bound (d : nat) : level d <= 4.
Proof. unfold level. lia. Qed.

Lemma afterInitialPass_shape (url : string) (depth : nat) (net : list NetEvent)
  (nav : Navigation) (s : State) :
  exists session,
    session <> Extracting /\
    (forall f rest ls, session = Submitting f rest ls -> depth < MAX_DEPTH) /\
    queue (afterInitialPass script url depth net nav s) = queue s /\
    activePages (afterInitialPass script url depth net nav s)
    = mapSet url {| t_depth := depth; t_session := session |} (activePages s) /\
    coordinator (afterInitialPass script url depth net nav s) = coordinator s /\
    visited (afterInitialPass script url depth net nav s) = visited s.
Proof.
  unfold afterInitialPass.
  destruct (initialData script url net nav) as [data|].
  - destruct script; destruct (forms data) as [|f rest];
      try (exists (Closing (links data)); repeat split; discriminate).
    destruct (depth <? MAX_DEPTH) eqn:Hd.
    + exists (Submitting f rest (links data)). apply Nat.ltb_lt in Hd.
      repeat split; try discriminate. auto.
    + exists (Closing (links data)); repeat split; discriminate.
  - exists (Closing []); repeat split; discriminate.
Qed.

Lemma adoptNavigation_same (url before after : string) (newLinks : list string)
  (s s' : State) (newLinks' : list string) :
  adoptNavigation url before after newLinks s = Some (s', newLinks') ->
  queue s' = queue s /\ activePages s' = activePages s /\ coordinator s' = coordinator s
  /\ processed s' = processed s.
Proof.
  unfold adoptNavigation.
  destruct (negb (after =? before)%string && negb (Js.has after (visited s))).
  - destruct (inScope url after) as [[|]|]; intro Heq; inversion Heq; subst; simpl; auto.
  - intro Heq; inversion Heq; subst; auto.
Qed.

Lemma afterFormPass_shape (url : string) (depth : nat) (formDetail : FormDetails)
  (rest : list FormDetails) (newLinks : list string) (before after : string)
  (pv : PageView) (s : State) :
  exists session,
    ((exists ls, session = Closing ls) \/
     (exists next rest' ls, rest = next :: rest' /\ session = Submitting next rest' ls)) /\
    queue (afterFormPass url depth formDetail rest newLinks before after pv s) = queue s /\
    activePages (afterFormPass url depth formDetail rest newLinks before after pv s)
    = mapSet url {| t_depth := depth; t_session := session |} (activePages s) /\
    coordinator (afterFormPass url depth formDetail rest newLinks before after pv s)
    = coordinator s.
Proof.
  unfold afterFormPass.
  destruct (URL_new (fm_action formDetail) (Some url));
    [|exists (Closing []); repeat split; left; eauto].
  destruct (extractInfoSubsequent after pv) as [post|];
    [|exists (Closing []); repeat split; left; eauto].
  pose proof (mergePost_same post newLinks s) as (_ & _ & Hq & Ha & Hc).
  destruct (mergePost post newLinks s) as [s1 newLinks1]. simpl in Hq, Ha, Hc.
  destruct (adoptNavigation url before after newLinks1 s1) as [[s2 newLinks2]|] eqn:Had.
  - apply adoptNavigation_same in Had as (Hq2 & Ha2 & Hc2 & _).
    destruct rest as [|next rest'].
    + exists (Closing newLinks2). simpl. repeat split; try congruence. left; eauto.
    + exists (Submitting next rest' newLinks2). simpl. repeat split; try congruence.
      right. eauto.
  - exists (Closing []). simpl. repeat split; try congruence. left; eauto.
Qed.

(** Every segment lowers the rank. *)
Lemma exec_below (s s' : State) (e : Event) : exec script s e = Some s' -> below s' s.
Proof.
  each_event e; simpl.
  - destruct (coordinator s) eqn:Hc; intro Heq; inversion Heq.
    destruct (loopHead_weight s) as (Hle & Hz).
    apply coordinator_step_below; [assumption|].
    rewrite Hz. unfold coordinatorWeight. rewrite Hc. lia.
  - destruct (coordinator s) as [|racing| |] eqn:Hc; try discriminate.
    destruct (raceSettled racing s) eqn:Hr; intro Heq; inversion Heq.
    assert (Hw : coordinatorWeight s = 3)
      by (unfold coordinatorWeight; now rewrite Hc, Hr).
    unfold afterRace.
    assert (Hloop : below (loopHead s) s).
    { destruct (loopHead_weight s) as (Hle & Hz).
      apply coordinator_step_below; [assumption | lia]. }
    destruct (queue s); destruct (activePages s); try exact Hloop.
    apply coordinator_step_below; [intro i; simpl; lia|].
    rewrite Hw. unfold coordinatorWeight. simpl. lia.
  - destruct (coordinator s) eqn:Hc; intro Heq; inversion Heq.
    destruct (loopHead_weight s) as (Hle & Hz).
    apply coordinator_step_below; [assumption|].
    rewrite Hz. unfold coordinatorWeight. rewrite Hc. lia.
  - session_of url s Hget.
    intro Heq; inversion Heq.
    pose proof (level_bound depth).
    eapply (session_step_below _ _ url _ _ (2 * level depth));
      [eassumption | reflexivity | reflexivity | lia | |].
    + unfold taskWeight. cbn [t_session t_depth]. rewrite Nat.eqb_refl.
      destruct (2 * level depth + 1 =? 2 * level depth) eqn:Hx;
        [apply Nat.eqb_eq in Hx; lia | lia].
    + intros j Hj. unfold taskWeight. cbn [t_session t_depth].
      destruct (2 * level depth + 1 =? j) eqn:Hx;
        [apply Nat.eqb_eq in Hx; lia | reflexivity].
  - session_of url s Hget.
    intro Heq; inversion Heq.
    destruct (afterInitialPass_shape url depth net nav s)
      as (session & Hne & _ & Hq & Ha & _).
    pose proof (level_bound depth).
    eapply (session_step_below _ _ url _ _ (2 * level depth)); try eassumption; [lia| |].
    + unfold taskWeight. cbn [t_session t_depth].
      rewrite Nat.eqb_refl.
      destruct session; [congruence| |];
        (destruct (2 * level depth + 1 =? 2 * level depth) eqn:Hx;
         [apply Nat.eqb_eq in Hx; lia | lia]).
    + intros j Hj. unfold taskWeight. cbn [t_session t_depth].
      destruct session; [congruence| |];
        (destruct (2 * level depth + 1 =? j) eqn:Hx;
         [apply Nat.eqb_eq in Hx; lia | reflexivity]).
  - session_of url s Hget.
    intro Heq; inversion Heq.
    destruct (afterFormPass_shape url depth formDetail rest newLinks before after pv s)
      as (session & Hsess & Hq & Ha & _).
    pose proof (level_bound depth).
    eapply (session_step_below _ _ url _ _ (2 * level depth + 1)); try eassumption; [lia| |].
    + unfold taskWeight. cbn [t_session t_depth].
      destruct Hsess as [(ls & ->)|(next & rest' & ls & -> & ->)];
        rewrite Nat.eqb_refl; simpl; lia.
    + intros j Hj. unfold taskWeight. cbn [t_session t_depth].
      destruct Hsess as [(ls & ->)|(next & rest' & ls & -> & ->)];
        (destruct (2 * level depth + 1 =? j) eqn:Hx;
         [apply Nat.eqb_eq in Hx; lia | reflexivity]).
  - session_of url s Hget.
    intro Heq; inversion Heq. unfold settle.
    destruct (requeue_same depth newLinks s) as (_ & _ & Ha & _).
    pose proof (level_bound depth).
    apply (below_by_component _ s (2 * level depth + 1)); [lia| |].
    + rewrite !component_inner by lia. cbn [queue activePages withActivePages].
      rewrite requeue_weight by lia. rewrite Ha.
      pose proof (poolWeight_mapDelete (2 * level depth + 1) url _ _ Hget) as Hdel.
      unfold taskWeight in Hdel. cbn [t_session t_depth] in Hdel.
      rewrite Nat.eqb_refl in Hdel. lia.
    + intros j Hj. rewrite !component_inner by lia. cbn [queue activePages withActivePages].
      rewrite requeue_weight by lia. rewrite Ha.
      pose proof (poolWeight_mapDelete_le j url (activePages s)). lia.
Qed.

End Decrease.

Lemma mapGet_of_key (u : string) (m : list (string * Task)) :
  In u (keys m) -> exists t, mapGet u m = Some t.
Proof.
  unfold keys. induction m as [|[k t] m IH]; simpl; [intros []|].
  intros [Hk|Hin].
  - subst. rewrite String.eqb_refl. eauto.
  - destruct (k =? u)%string; eauto.
Qed.

Section Progress.
Context `{UrlApi}.
Variable script : Script.

Lemma session_step_coordinator (s s' : State) (e : Event) :
  exec script s e = Some s' ->
  match e with
  | PageFails _ | InitialPass _ _ _ | FormPass _ _ _ _ | SessionSettles _ =>
      coordinator s' = coordinator s /\ activePages s <> []
  | _ => True
  end.
Proof.
  each_event e; simpl; auto.
  - session_of url s Hget.
    intro Heq; inversion Heq.
    split; [reflexivity|]. intro Hnil. rewrite Hnil in Hget. discriminate.
  - session_of url s Hget.
    intro Heq; inversion Heq.
    destruct (afterInitialPass_shape script url depth net nav s)
      as (session & _ & _ & _ & _ & Hc & _).
    split; [assumption|]. intro Hnil. rewrite Hnil in Hget. discriminate.
  - session_of url s Hget.
    intro Heq; inversion Heq.
    destruct (afterFormPass_shape url depth formDetail rest newLinks before after pv s)
      as (session & _ & _ & _ & Hc).
    split; [assumption|]. intro Hnil. rewrite Hnil in Hget. discriminate.
  - session_of url s Hget.
    intro Heq; inversion Heq. unfold settle. simpl.
    destruct (requeue_same depth newLinks s) as (_ & _ & _ & Hc).
    split; [assumption|]. intro Hnil. rewrite Hnil in Hget. discriminate.
Qed.

Lemma awaitOrReturn_consistent (s : State) : consistent (awaitOrReturn s).
Proof.
  unfold awaitOrReturn, consistent.
  destruct (activePages s) as [|a m] eqn:Ha.
  - destruct (queue s) eqn:Hq; simpl; auto.
  - simpl. discriminate.
Qed.

Lemma loopHead_consistent (s : State) : consistent (loopHead s).
Proof.
  unfold loopHead.
  destruct (queue s) eqn:Hq; destruct (activePages s) eqn:Ha;
    try apply awaitOrReturn_consistent.
  unfold consistent. simpl. auto.
Qed.

Lemma exec_consistent (s s' : State) (e : Event) :
  consistent s -> exec script s e = Some s' -> consistent s'.
Proof.
  intros Hs He. pose proof (session_step_coordinator s s' e He) as Hsess.
  each_event e; simpl in He;
    try (destruct Hsess as (Hc & Hne); unfold consistent in *; rewrite Hc;
         destruct (coordinator s); auto; destruct Hs; contradiction).
  - destruct (coordinator s); inversion He. apply loopHead_consistent.
  - destruct (coordinator s) as [|racing| |]; try discriminate.
    destruct (raceSettled racing s); inversion He.
    unfold afterRace. destruct (queue s); destruct (activePages s);
      try apply loopHead_consistent.
    exact I.
  - destruct (coordinator s); inversion He. apply loopHead_consistent.
Qed.

Variable web : Web.
Variable pick : State -> nat.

Lemma enabled_exec (s : State) (e : Event) :
  In e (enabled web s) -> exists s', exec script s e = Some s'.
Proof.
  unfold enabled. rewrite in_app_iff. intros [Hc|Hs].
  - unfold coordinatorEvents in Hc.
    destruct (coordinator s) as [|racing| |] eqn:Hco; simpl in Hc.
    + destruct Hc as [<-|[]]. simpl. rewrite Hco. eauto.
    + destruct (raceSettled racing s) eqn:Hr; simpl in Hc; [|contradiction].
      destruct Hc as [<-|[]]. simpl. rewrite Hco, Hr. eauto.
    + destruct Hc as [<-|[]]. simpl. rewrite Hco. eauto.
    + contradiction.
  - unfold sessionEvents in Hs. apply in_flat_map in Hs as (url & _ & Hin).
    destruct (mapGet url (activePages s)) as [[depth session]|] eqn:Hget; [|contradiction].
    destruct Hin as [<-|[]]. unfold sessionEvent. cbn [t_session].
    destruct session as [|formDetail rest newLinks|newLinks].
    + destruct (onOpen web url) as [[net nav]|]; simpl; rewrite Hget; eauto.
    + destruct (onSubmit web url formDetail (length rest)) as [[before after] pv].
      simpl. rewrite Hget. eauto.
    + simpl. rewrite Hget. eauto.
Qed.

Lemma enabled_nonempty (s : State) :
  consistent s -> coordinator s <> Returned -> enabled web s <> [].
Proof.
  intros Hs Hnr. unfold enabled, coordinatorEvents.
  destruct (coordinator s) as [|racing| |] eqn:Hco; try discriminate; try congruence.
  destruct (raceSettled racing s) eqn:Hr; [discriminate|]. simpl.
  unfold consistent in Hs. rewrite Hco in Hs.
  destruct racing as [|u racing]; [congruence|].
  unfold raceSettled in Hr. simpl in Hr. apply orb_false_iff in Hr as (Hu & _).
  apply negb_false_iff in Hu. apply existsb_eqb_In in Hu.
  destruct (mapGet_of_key u _ Hu) as (t & Hget).
  unfold sessionEvents. intro Hnil.
  assert (Hin : In (sessionEvent web u t)
                  (flat_map (fun url => match mapGet url (activePages s) with
                                        | Some t => [sessionEvent web url t]
                                        | None => []
                                        end) (keys (activePages s)))).
  { apply in_flat_map. exists u. split; [assumption|]. rewrite Hget. now left. }
  rewrite Hnil in Hin. contradiction.
Qed.

Lemma next_progress (s : State) :
  consistent s -> coordinator s <> Returned ->
  exists s', next script web pick s = Some s'.
Proof.
  intros Hs Hnr. unfold next, chosen.
  pose proof (enabled_nonempty s Hs Hnr) as Hne.
  destruct (enabled web s) as [|e es] eqn:Hen; [congruence|].
  apply enabled_exec. rewrite Hen.
  apply nth_In. apply Nat.mod_upper_bound. simpl. discriminate.
Qed.

Lemma next_exec (s s' : State) :
  next script web pick s = Some s' -> exists e, exec script s e = Some s'.
Proof.
  unfold next. destruct (chosen web pick s) as [e|]; [eauto | discriminate].
Qed.

Lemma run_from (s : State) :
  consistent s ->
  exists fuel final,
    run script web pick fuel s = Some final /\
    coordinator final = Returned /\ queue final = [] /\ activePages final = [].
Proof.
  induction s as [s IH] using (well_founded_induction below_wf).
  intro Hs. destruct (coordinator s) eqn:Hco;
    try (destruct (next_progress s Hs) as (s' & Hn); [congruence|];
         destruct (next_exec s s' Hn) as (e & He);
         destruct (IH s' (exec_below script s s' e He) (exec_consistent s s' e Hs He))
           as (fuel & final & Hrun & Hfin);
         exists (S fuel), final; split; [|assumption]; simpl; now rewrite Hco, Hn).
  exists 0, s. unfold consistent in Hs. rewrite Hco in Hs.
  split; [|tauto]. simpl. now rewrite Hco.
Qed.

Lemma run_execTrace (fuel : nat) (s final : State) :
  run script web pick fuel s = Some final ->
  execTrace script s (runEvents script web pick fuel s) = Some final.
Proof.
  revert s. induction fuel as [|fuel IH]; intros s; simpl.
  - destruct (coordinator s); try discriminate. intro Heq. now inversion Heq.
  - destruct (coordinator s) eqn:Hco;
      try (unfold next; destruct (chosen web pick s) as [e|]; [|discriminate];
           destruct (exec script s e) as [s'|] eqn:He; [|discriminate];
           intro Hrun; simpl; rewrite He; now apply IH).
    intro Heq. now inversion Heq.
Qed.

End Progress.

Lemma reachable_consistent `{UrlApi} (script : Script) (startUrl : string) (s : State) :
  reachable script startUrl s -> consistent s.
Proof.
  intros (trace & Htrace).
  assert (Hgen : forall tr s0 s1,
             consistent s0 -> execTrace script s0 tr = Some s1 -> consistent s1).
  { induction tr as [|e rest IH]; intros s0 s1 H0; simpl.
    - intro Heq; inversion Heq; now subst.
    - destruct (exec script s0 e) as [sm|] eqn:He; [|discriminate].
      apply IH. eapply exec_consistent; eassumption. }
  eapply Hgen; [|exact Htrace]. exact I.
Qed.

(** A run can only come to rest where [crawl] has returned. *)
Lemma stuck_returned `{UrlApi} (script : Script) (startUrl : string) (s : State) :
  reachable script startUrl s ->
  (forall e, exec script s e = None) ->
  coordinator s = Returned /\ queue s = [] /\ activePages s = [].
Proof.
  intros Hr Hstuck. apply reachable_consistent in Hr.
  set (web := {| onOpen := fun _ => None;
                 onSubmit := fun url _ _ =>
                   (url, url, {| pv_url := url; pv_frameworks := None;
                                 pv_reactComponents := None; pv_dom := None |}) |}).
  destruct (coordinator s) eqn:Hco;
    try (exfalso;
         assert (Hnr : coordinator s <> Returned) by congruence;
         pose proof (enabled_nonempty web s Hr Hnr) as Hne;
         destruct (enabled web s) as [|e es] eqn:Hen; [congruence|];
         destruct (enabled_exec script web s e) as (s' & He);
           [rewrite Hen; now left | rewrite Hstuck in He; discriminate]).
  unfold consistent in Hr. rewrite Hco in Hr. tauto.
Qed.

(** C5.  The crawl loop ends.  Whatever the browser hands to the
    sessions (each page yielding finitely many links and forms, each
    session completing, successfully or with a caught error) and in
    whatever order the pending continuations run: no run goes on for
    ever, a run can only come to rest where [crawl] has returned with
    the frontier empty and no session in flight, and run against a
    given browser under a given order [crawl] returns in that state
    after finitely many steps.  A finite, acyclic, same-origin link
    graph is a special case; the depth bound alone carries the
    proof. *)
Theorem crawl_terminates `{UrlApi} (script : Script) :
  well_founded (step script) /\
  (forall startUrl s,
      reachable script startUrl s ->
      (forall e, exec script s e = None) ->
      coordinator s = Returned /\ queue s = [] /\ activePages s = []) /\
  (forall (web : Web) (pick : State -> nat) (startUrl : string),
      exists fuel final,
        crawl script web pick fuel startUrl = Some final /\
        coordinator final = Returned /\ queue final = [] /\ activePages final = []).
Proof.
  split; [|split].
  - apply (wf_incl _ _ below); [|apply below_wf].
    intros s' s (e & He). eapply exec_below; eassumption.
  - intros startUrl s. apply stuck_returned.
  - intros web pick startUrl. unfold crawl. apply run_from. exact I.
Qed.

(** ** At-most-once processing and the depth bound *)

Lemma mapSet_keys_incl (k : string) (t : Task) (m : list (string * Task)) (u : string) :
  In u (keys (mapSet k t m)) -> u = k \/ In u (keys m).
Proof.
  unfold keys. induction m as [|[k0 t0] m IH]; simpl.
  - intros [Hk|[]]. now left.
  - destruct (k0 =? k)%string eqn:Hk; simpl.
    + apply String.eqb_eq in Hk. subst. intros [Hu|Hin]; auto.
    + intros [Hu|Hin]; auto. destruct (IH Hin); auto.
Qed.

Lemma mapDelete_keys_incl (k : string) (m : list (string * Task)) (u : string) :
  In u (keys (mapDelete k m)) -> In u (keys m).
Proof.
  unfold keys, mapDelete. intro Hin.
  apply in_map_iff in Hin as (kv & <- & Hkv).
  apply filter_In in Hkv as (Hkv & _). now apply in_map.
Qed.

Lemma mapGet_key (k : string) (t : Task) (m : list (string * Task)) :
  mapGet k m = Some t -> In k (keys m).
Proof.
  unfold keys. induction m as [|[k0 t0] m IH]; simpl; [discriminate|].
  destruct (k0 =? k)%string eqn:Hk.
  - apply String.eqb_eq in Hk. auto.
  - auto.
Qed.

Section Invariants.
Context `{UrlApi}.
Variable script : Script.

Lemma dispatch_tracked (item : Item) (s : State) (q : list Item) :
  Js.has (item_url item) (visited s) || (MAX_DEPTH <? item_depth item) = false ->
  (forall u, In u (keys (activePages s)) -> In u (map item_url (processed s))) ->
  forall u, In u (keys (activePages (dispatch item s))) ->
            In u (map item_url (processed (dispatch item s))).
Proof.
  intros Hguard Hs u. unfold dispatch, beginSession. simpl. rewrite Hguard. simpl.
  intro Hin. apply mapSet_keys_incl in Hin. rewrite map_app, in_app_iff. simpl.
  destruct Hin as [->|Hin]; auto.
Qed.

Lemma fill_tracked (q : list Item) (s : State) :
  (forall u, In u (keys (activePages s)) -> In u (map item_url (processed s))) ->
  Forall (fun it => item_depth it <= MAX_DEPTH) q ->
  tracked (fill q s).
Proof.
  revert s. induction q as [|item rest IH]; intros s Hs Hq; simpl.
  - split; [exact Hs | constructor].
  - inversion Hq; subst.
    destruct (length (activePages s) <? MAX_CONCURRENT_PAGES).
    + destruct (Js.has (item_url item) (visited s) || (MAX_DEPTH <? item_depth item))
        eqn:Hguard.
      * now apply IH.
      * apply IH; [|assumption]. now apply dispatch_tracked.
    + split; [exact Hs | exact Hq].
Qed.

Lemma loopHead_tracked (s : State) : tracked s -> tracked (loopHead s).
Proof.
  intros (Hk & Hq). unfold loopHead.
  assert (Hfill : tracked (awaitOrReturn (fill (queue s) s))).
  { pose proof (fill_tracked (queue s) s Hk Hq) as Hf. unfold awaitOrReturn.
    destruct (activePages (fill (queue s) s)) eqn:Ha;
      [destruct (queue (fill (queue s) s)) eqn:Hq'|]; exact Hf. }
  destruct (queue s) eqn:Hqs; destruct (activePages s) eqn:Has; try exact Hfill.
  split; simpl; [now rewrite Has | now rewrite Hqs].
Qed.

Lemma requeue_bounded (depth : nat) (newLinks : list string) (s : State) :
  Forall (fun it => item_depth it <= MAX_DEPTH) (queue s) ->
  Forall (fun it => item_depth it <= MAX_DEPTH) (queue (requeue depth newLinks s)).
Proof.
  revert s. induction newLinks as [|link rest IH]; intros s Hq; simpl; [assumption|].
  destruct (depth + 1 <=? MAX_DEPTH) eqn:Hd.
  - match goal with |- context [if ?c then _ else _] => destruct c end; [|now apply IH].
    apply IH. simpl. apply Forall_app. split; [assumption|].
    constructor; [|constructor]. simpl. now apply Nat.leb_le.
  - rewrite !andb_false_r. now apply IH.
Qed.

Lemma exec_tracked (s s' : State) (e : Event) :
  tracked s -> exec script s e = Some s' -> tracked s'.
Proof.
  intros Hs He. pose proof (exec_grows script s s' e He) as (_ & new & Hp & _).
  each_event e; simpl in He.
  - destruct (coordinator s); inversion He. now apply loopHead_tracked.
  - destruct (coordinator s) as [|racing| |]; try discriminate.
    destruct (raceSettled racing s); inversion He. unfold afterRace.
    destruct (queue s) eqn:Hq; destruct (activePages s) eqn:Ha;
      try (rewrite <- ?Hq, <- ?Ha; now apply loopHead_tracked).
    exact Hs.
  - destruct (coordinator s); inversion He. now apply loopHead_tracked.
  - session_of url s Hget.
    inversion He as [Heq]. subst s'. destruct Hs as (Hk & Hb). split; [|exact Hb].
    intros u Hu. rewrite Hp, map_app, in_app_iff. left.
    apply mapSet_keys_incl in Hu as [->|Hu]; [|auto].
    apply Hk. eapply mapGet_key; eassumption.
  - session_of url s Hget.
    inversion He as [Heq]. rewrite Heq in *.
    destruct (afterInitialPass_shape script url depth net nav s)
      as (session & _ & _ & Hq & Ha & _).
    rewrite Heq in Hq, Ha. destruct Hs as (Hk & Hb). split.
    + intros u Hu. rewrite Ha in Hu. rewrite Hp, map_app, in_app_iff. left.
      apply mapSet_keys_incl in Hu as [->|Hu]; [|auto].
      apply Hk. eapply mapGet_key; eassumption.
    + now rewrite Hq.
  - session_of url s Hget.
    inversion He as [Heq]. rewrite Heq in *.
    destruct (afterFormPass_shape url depth formDetail rest newLinks before after pv s)
      as (session & _ & Hq & Ha & _).
    rewrite Heq in Hq, Ha. destruct Hs as (Hk & Hb). split.
    + intros u Hu. rewrite Ha in Hu. rewrite Hp, map_app, in_app_iff. left.
      apply mapSet_keys_incl in Hu as [->|Hu]; [|auto].
      apply Hk. eapply mapGet_key; eassumption.
    + now rewrite Hq.
  - session_of url s Hget.
    inversion He as [Heq]. rewrite Heq in *. destruct Hs as (Hk & Hb).
    destruct (requeue_same depth newLinks s) as (_ & Hpr & Har & _).
    rewrite <- Heq. unfold settle. split; simpl.
    + intros u Hu. apply mapDelete_keys_incl in Hu. rewrite Har in Hu.
      rewrite Hpr. auto.
    + now apply requeue_bounded.
Qed.

Lemma execTrace_tracked (trace : list Event) (s s' : State) :
  tracked s -> execTrace script s trace = Some s' -> tracked s'.
Proof.
  revert s. induction trace as [|e rest IH]; intros s Hs; simpl.
  - intro Heq; inversion Heq; now subst.
  - destruct (exec script s e) as [s1|] eqn:He; [|discriminate].
    apply IH. eapply exec_tracked; eassumption.
Qed.

Lemma initial_tracked (startUrl : string) : tracked (initialState startUrl).
Proof.
  split; simpl; [intros u []|]. constructor; [|constructor]. simpl. lia.
Qed.

Lemma reachable_processed (startUrl : string) (s : State) :
  reachable script startUrl s ->
  NoDup (map item_url (processed s)) /\
  Forall (fun it => In (item_url it) (visited s) /\ item_depth it <= MAX_DEPTH) (processed s).
Proof.
  intros (trace & Htrace).
  apply execTrace_grows in Htrace as (_ & new & Hp & Hnd & Hf).
  simpl in Hp. rewrite Hp. split; [assumption|].
  eapply Forall_impl; [|exact Hf]. simpl. tauto.
Qed.

End Invariants.

(** C2.  In every state of a run, no URL has been processed by more
    than one page session: the log of sessions that passed the guard
    of [processUrlAndExtractData] holds each URL at most once, however
    often the URL was enqueued and in whatever order the sessions and
    the scheduler loop interleave. *)
Theorem processed_at_most_once `{UrlApi} (script : Script) (startUrl : string)
  (s : State) (url : string) :
  reachable script startUrl s ->
  count_occ string_dec (map item_url (processed s)) url <= 1.
Proof.
  intro Hr. apply reachable_processed in Hr as (Hnd & _).
  revert url. now apply NoDup_count_occ.
Qed.

(** C3.  In every state of a run, every item dispatched to a page
    session has depth at most [MAX_DEPTH], and so has every item
    waiting in the queue. *)
Theorem dispatched_depth_bounded `{UrlApi} (script : Script) (startUrl : string)
  (s : State) :
  reachable script startUrl s ->
  Forall (fun it => item_depth it <= MAX_DEPTH) (processed s) /\
  Forall (fun it => item_depth it <= MAX_DEPTH) (queue s).
Proof.
  intro Hr. split.
  - apply reachable_processed in Hr as (_ & Hf).
    eapply Forall_impl; [|exact Hf]. simpl. tauto.
  - destruct Hr as (trace & Htrace).
    eapply execTrace_tracked in Htrace; [apply Htrace | apply initial_tracked].
Qed.

(** C10.  When a form submission of the form crawler has taken the
    session of [url] to a different URL that is not yet in [visited]
    and passes the scope test of the script (it starts with the origin
    of [url]), that URL is in [visited] right after the segment, and in
    every later state of the run it is still there (so it is listed in
    [crawledUrls]), no session was ever dispatched for it, and no
    initial extraction pass can run for it. *)
Theorem form_navigation_never_dispatched `{UrlApi} (startUrl : string) (s s' : State)
  (url urlBeforeSubmit urlAfterSubmit : string) (pv : PageView)
  (depth : nat) (formDetail : FormDetails) (rest : list FormDetails)
  (newLinks : list string) :
  reachable FormCrawler startUrl s ->
  mapGet url (activePages s)
  = Some {| t_depth := depth; t_session := Submitting formDetail rest newLinks |} ->
  URL_new (fm_action formDetail) (Some url) <> None ->
  extractInfoSubsequent urlAfterSubmit pv <> None ->
  urlAfterSubmit <> urlBeforeSubmit ->
  Js.has urlAfterSubmit (visited s) = false ->
  inScope url urlAfterSubmit = Some true ->
  exec FormCrawler s (FormPass url urlBeforeSubmit urlAfterSubmit pv) = Some s' ->
  In urlAfterSubmit (visited s') /\
  forall trace s'',
    execTrace FormCrawler s' trace = Some s'' ->
    In urlAfterSubmit (crawledUrls (saveResults s'')) /\
    ~ In urlAfterSubmit (map item_url (processed s'')) /\
    forall net nav, exec FormCrawler s'' (InitialPass urlAfterSubmit net nav) = None.
Proof.
  intros Hr Hget Hact Hext Hne Hfresh Hscope He.
  assert (Hvis : In urlAfterSubmit (visited s') /\ processed s' = processed s).
  { simpl in He. rewrite Hget in He. inversion He as [Heq]. unfold afterFormPass.
    destruct (URL_new (fm_action formDetail) (Some url)); [|congruence].
    destruct (extractInfoSubsequent urlAfterSubmit pv) as [post|]; [|congruence].
    pose proof (mergePost_same post newLinks s) as (Hv & Hp & _).
    destruct (mergePost post newLinks s) as [s1 newLinks1]. simpl in Hv, Hp.
    unfold adoptNavigation. rewrite Hv, Hfresh, Hscope.
    apply String.eqb_neq in Hne. rewrite Hne. simpl.
    destruct rest; simpl; (split; [apply add_In; now left | assumption]). }
  destruct Hvis as (Hvis & Hproc). split; [assumption|].
  intros trace s'' Htrace.
  pose proof (execTrace_grows FormCrawler trace s' s'' Htrace) as (Hmono & new & Hp & _ & Hf).
  assert (Hnot : ~ In urlAfterSubmit (map item_url (processed s''))).
  { rewrite Hp, Hproc, map_app, in_app_iff. intros [Hold|Hnew].
    - apply reachable_processed in Hr as (_ & Hall). rewrite Forall_forall in Hall.
      apply in_map_iff in Hold as (it & Hit & Hin).
      destruct (Hall it Hin) as (Hv & _). rewrite Hit in Hv.
      apply has_false in Hfresh. contradiction.
    - apply in_map_iff in Hnew as (it & Hit & Hin).
      rewrite Forall_forall in Hf. destruct (Hf it Hin) as (Hnv & _).
      rewrite Hit in Hnv. contradiction. }
  split; [simpl; auto|]. split; [assumption|].
  intros net nav. simpl.
  destruct (mapGet urlAfterSubmit (activePages s'')) as [t|] eqn:Hg; [|reflexivity].
  exfalso. apply Hnot.
  assert (Htr : tracked s'').
  { destruct Hr as (tr0 & Htr0).
    eapply execTrace_tracked; [|exact Htrace].
    eapply exec_tracked; [|exact He].
    eapply execTrace_tracked; [apply initial_tracked | exact Htr0]. }
  apply Htr. eapply mapGet_key; eassumption.
Qed.

(** ** The JSON walk *)

Section JsonFacts.
Context `{UrlApi}.

(** Whatever holds of the findings and is kept by adding a link of
    the walk or any endpoint entry is kept by the walk. *)
Lemma onStringProperty_preserves (Q : PageData -> Prop) (basePageUrl : string) :
  (forall l pd, jsonLink basePageUrl l -> Q pd -> Q (addLink l pd)) ->
  (forall e pd, Q pd -> Q (addEndpoint e pd)) ->
  forall key value pd, Q pd -> Q (onStringProperty key value basePageUrl pd).
Proof.
  intros Hlink Hend key value pd Hpd. unfold onStringProperty.
  assert (Hfirst : Q (if jsonUrlShaped value
                      then match URL_new value (Some basePageUrl) with
                           | None => pd
                           | Some u =>
                               match URL_new basePageUrl None with
                               | None => pd
                               | Some b =>
                                   if Js.startsWith (Js.before "#" (URL_toString u)) (URL_origin b)
                                   then addLink (Js.before "#" (URL_toString u)) pd
                                   else addEndpoint
                                          ("[JSON_API_RESPONSE] " ++ Js.before "#" (URL_toString u))
                                          pd
                               end
                           end
                      else pd)).
  { destruct (jsonUrlShaped value); [|assumption].
    destruct (URL_new value (Some basePageUrl)) as [u|] eqn:Hu; [|assumption].
    destruct (URL_new basePageUrl None) as [b|] eqn:Hb; [|assumption].
    destruct (Js.startsWith (Js.before "#" (URL_toString u)) (URL_origin b)) eqn:Hs.
    - apply Hlink; [|assumption]. exists value, u, b. auto.
    - now apply Hend. }
  destruct (sensitiveKey key); [now apply Hend | assumption].
Qed.

Lemma extractDataFromJson_preserves (Q : PageData -> Prop) (basePageUrl : string) :
  (forall l pd, jsonLink basePageUrl l -> Q pd -> Q (addLink l pd)) ->
  (forall e pd, Q pd -> Q (addEndpoint e pd)) ->
  forall jsonData pd, Q pd -> Q (extractDataFromJson jsonData basePageUrl pd).
Proof.
  intros Hlink Hend jsonData.
  induction jsonData as [|x|x|x|items IH|props IH] using JSON_induction;
    intros pd Hpd; try exact Hpd.
  - simpl. generalize 0 as i. revert pd Hpd.
    induction IH as [|value rest Hvalue _ IHrest]; intros pd Hpd i; [exact Hpd|].
    simpl. apply IHrest.
    destruct value; try assumption; try (now apply Hvalue).
    now apply onStringProperty_preserves.
  - simpl. revert pd Hpd.
    induction IH as [|[key value] rest Hvalue _ IHrest]; intros pd Hpd; [exact Hpd|].
    simpl. apply IHrest. simpl in Hvalue.
    destruct value; try assumption; try (now apply Hvalue).
    now apply onStringProperty_preserves.
Qed.

(** The marker of a sensitive key is built from the key and the page
    alone, and a string value that does not look like a URL leaves no
    other trace. *)
Lemma onStringProperty_not_url (key v w basePageUrl : string) (pd : PageData) :
  jsonUrlShaped v = false -> jsonUrlShaped w = false ->
  onStringProperty key v basePageUrl pd = onStringProperty key w basePageUrl pd.
Proof.
  intros Hv Hw. unfold onStringProperty. now rewrite Hv, Hw.
Qed.

(** C6, as amended.  Two JSON bodies that differ only in string values
    stored under keys whose lower-cased name contains [token] or
    [session], none of the differing values beginning with [/],
    [http://] or [https://], leave exactly the same findings (links and
    endpoint entries alike): what is recorded for such a key is the
    marker made of the key name and the source page, never the value. *)
Theorem sensitive_value_noninterference (a b : JSON) (basePageUrl : string) (pd : PageData) :
  sameButSensitive a b ->
  extractDataFromJson a basePageUrl pd = extractDataFromJson b basePageUrl pd.
Proof.
  revert b pd.
  induction a as [|x|x|x|items IH|props IH] using JSON_induction;
    intros b pd Hsame; destruct b as [|y|y|y|items'|props']; simpl in Hsame;
    try contradiction; try reflexivity.
  - simpl. generalize 0 as i. revert items' pd Hsame.
    induction IH as [|x rest Hx _ IHrest]; intros [|y rest'] pd Hsame i;
      try contradiction; [reflexivity|].
    destruct Hsame as (Hxy & Hrest).
    cbn [extractDataFromJson]. cbn [extractDataFromJson] in IHrest.
    specialize (IHrest rest').
    assert (Hstep : match x with
                    | JString v => onStringProperty (Js.ofNat i) v basePageUrl pd
                    | JNull | JArray _ | JObject _ => extractDataFromJson x basePageUrl pd
                    | JBool _ | JNumber _ => pd
                    end
                    = match y with
                      | JString v => onStringProperty (Js.ofNat i) v basePageUrl pd
                      | JNull | JArray _ | JObject _ => extractDataFromJson y basePageUrl pd
                      | JBool _ | JNumber _ => pd
                      end).
    { destruct x; destruct y; simpl in Hxy; try contradiction; try reflexivity;
        try (subst; reflexivity); now apply Hx. }
    simpl. rewrite Hstep. now apply IHrest.
  - simpl. revert props' pd Hsame.
    induction IH as [|[k x] rest Hx _ IHrest]; intros [|[k' y] rest'] pd Hsame;
      try contradiction; [reflexivity|].
    destruct Hsame as (Hk & Hxy & Hrest). subst k'. simpl in Hx.
    specialize (IHrest rest').
    assert (Hstep : match x with
                    | JString v => onStringProperty k v basePageUrl pd
                    | JNull | JArray _ | JObject _ => extractDataFromJson x basePageUrl pd
                    | JBool _ | JNumber _ => pd
                    end
                    = match y with
                      | JString v => onStringProperty k v basePageUrl pd
                      | JNull | JArray _ | JObject _ => extractDataFromJson y basePageUrl pd
                      | JBool _ | JNumber _ => pd
                      end).
    { destruct x; destruct y; simpl in Hxy; try contradiction; try reflexivity;
        try (now apply Hx).
      destruct Hxy as [->|(_ & Hv & Hw)]; [reflexivity|].
      now apply onStringProperty_not_url. }
    simpl. rewrite Hstep. now apply IHrest.
Qed.

End JsonFacts.

(** ** Where recorded links come from *)

Lemma fold_left_preserves {A B : Type} (Q : A -> Prop) (f : A -> B -> A) (l : list B) :
  (forall a b, Q a -> Q (f a b)) -> forall a, Q a -> Q (fold_left f l a).
Proof.
  intro Hf. induction l as [|b l IH]; intros a Ha; simpl; auto.
Qed.

Section LinkScope.
Context `{UrlApi}.


Lemma extractForms_links (url defaultAction : string) (base : URL) (fs : list FormElement)
  (pd : PageData) :
  links (fst (extractForms url defaultAction base fs pd)) = links pd.
Proof.
  revert pd. induction fs as [|form rest IH]; intro pd; simpl; [reflexivity|].
  destruct (formDetailsOf url defaultAction base form); [|reflexivity].
  now rewrite IH.
Qed.


Lemma eachPattern_links (resolve : string -> option string) (ps : list (bool * regex))
  (i : nat) (text : string) (pd : PageData) :
  links (eachPattern resolve ps i text pd) = links pd.
Proof.
  revert i pd. induction ps as [|[ci pattern] rest IH]; intros i pd; simpl; [reflexivity|].
  rewrite IH.
  apply (fold_left_preserves (fun pd' => links pd' = links pd)); [|reflexivity].
  intros pd' m Hpd'. destruct (endpointOfMatch resolve i m); assumption.
Qed.

Lemma extractScripts_links (resolve : string -> option string) (scripts : list string)
  (pd : PageData) :
  links (extractScripts resolve scripts pd) = links pd.
Proof.
  unfold extractScripts.
  apply (fold_left_preserves (fun pd' => links pd' = links pd)); [|reflexivity].
  intros pd' text Hpd'. unfold scriptEndpoints.
  destruct text; [assumption|]. now rewrite eachPattern_links.
Qed.

Lemma extractResources_links (base : URL) (els : list ResourceElement) (pd : PageData) :
  links (extractResources base els pd) = links pd.
Proof.
  unfold extractResources.
  apply (fold_left_preserves (fun pd' => links pd' = links pd)); [|reflexivity].
  intros pd' el Hpd'. unfold resourceOf.
  destruct (if Js.truthy (r_src el) then r_src el else r_href el) as [[|c src]|];
    try assumption.
  destruct (URL_new (String c src) (Some (URL_toString base))); [|assumption].
  destruct (frameworkOfSrc (String c src)); assumption.
Qed.






Variable script : Script.


Lemma mergePostLinks_In (ls : list string) (found : Js.SetOf string) (newLinks : list string)
  (l : string) :
  In l (fst (mergePostLinks ls found newLinks)) -> In l found \/ In l ls.
Proof.
  revert found newLinks. induction ls as [|link rest IH]; intros found newLinks; simpl; [auto|].
  destruct (Js.has link found).
  - intro Hin. destruct (IH _ _ Hin); auto.
  - intro Hin. destruct (IH _ _ Hin) as [Hf|Hr]; [|auto].
    apply add_In in Hf as [->|Hf]; auto.
Qed.











End LinkScope.



(** ** A session whose navigation throws *)

Lemma mapGet_mapSet_same (k : string) (t : Task) (m : list (string * Task)) :
  mapGet k (mapSet k t m) = Some t.
Proof.
  induction m as [|[k0 t0] m IH]; simpl.
  - now rewrite String.eqb_refl.
  - destruct (k0 =? k)%string eqn:Hk; simpl.
    + now rewrite String.eqb_refl.
    + now rewrite Hk.
Qed.

Lemma mapGet_mapSet_other (u k : string) (t : Task) (m : list (string * Task)) :
  u <> k -> mapGet u (mapSet k t m) = mapGet u m.
Proof.
  intro Hne. induction m as [|[k0 t0] m IH]; simpl.
  - destruct (k =? u)%string eqn:Hk; [|reflexivity].
    apply String.eqb_eq in Hk. congruence.
  - destruct (k0 =? k)%string eqn:Hk; simpl.
    + apply String.eqb_eq in Hk. subst k0.
      destruct (k =? u)%string eqn:Hu; [|reflexivity].
      apply String.eqb_eq in Hu. congruence.
    + destruct (k0 =? u)%string; [reflexivity | assumption].
Qed.

Lemma mapGet_mapDelete_same (k : string) (m : list (string * Task)) :
  mapGet k (mapDelete k m) = None.
Proof.
  unfold mapDelete. induction m as [|[k0 t0] m IH]; simpl; [reflexivity|].
  destruct (k0 =? k)%string eqn:Hk; simpl; [assumption|]. now rewrite Hk.
Qed.

Lemma mapGet_mapDelete_other (u k : string) (m : list (string * Task)) :
  u <> k -> mapGet u (mapDelete k m) = mapGet u m.
Proof.
  intro Hne. unfold mapDelete. induction m as [|[k0 t0] m IH]; simpl; [reflexivity|].
  destruct (k0 =? k)%string eqn:Hk; simpl.
  - apply String.eqb_eq in Hk. subst k0.
    destruct (k =? u)%string eqn:Hu; [|assumption].
    apply String.eqb_eq in Hu. congruence.
  - destruct (k0 =? u)%string; [reflexivity | assumption].
Qed.

Section NavigationFailure.
Context `{UrlApi}.

Lemma requeue_queue (depth : nat) (newLinks : list string) (s : State) :
  exists added, queue (requeue depth newLinks s) = (queue s ++ added)%list.
Proof.
  revert s. induction newLinks as [|link rest IH]; intro s; simpl.
  - exists []. now rewrite app_nil_r.
  - match goal with |- context [if ?c then _ else _] => destruct c end; [|apply IH].
    destruct (IH (withQueue (queue s ++ [{| item_url := link; item_depth := depth + 1 |}]) s))
      as (added & Hadd).
    rewrite Hadd. simpl. rewrite <- app_assoc. eauto.
Qed.

(** The observers record links, endpoint entries and requests, and
    nothing else. *)
Lemma observed_only_network (url : string) (net : list NetEvent) :
  forms (observed url net emptyPageData) = [] /\
  jsFrameworks (observed url net emptyPageData) = [] /\
  reactComponents (observed url net emptyPageData) = [].
Proof.
  unfold observed.
  apply (fold_left_preserves
           (fun pd => forms pd = [] /\ jsFrameworks pd = [] /\ reactComponents pd = []));
    [|auto].
  intros pd e Hpd. destruct e as [request|response]; simpl.
  - unfold onRequest.
    destruct (rq_method request =? "GET")%string;
      match goal with |- context [if ?c then _ else _] => destruct c end; exact Hpd.
  - unfold onResponse.
    match goal with |- context [extractDataFromJson _ _ ?p] => set (pd1 := p) end.
    assert (Hpd1 : forms pd1 = [] /\ jsFrameworks pd1 = [] /\ reactComponents pd1 = []).
    { subst pd1. match goal with |- context [if ?c then _ else _] => destruct c end;
        exact Hpd. }
    destruct (rs_contentType response) as [[|c ct]|]; try exact Hpd1.
    destruct (Js.includes (String c ct) "application/json"); [|exact Hpd1].
    destruct (rs_json response) as [json|]; [|exact Hpd1].
    apply (extractDataFromJson_preserves
             (fun pd => forms pd = [] /\ jsFrameworks pd = [] /\ reactComponents pd = []));
      auto.
Qed.

(** C4, as amended.  When [page.goto] throws in the session of a valid
    URL, the session contributes no form, framework or component; of
    links, endpoint entries and replayable requests it contributes
    exactly what the network observers recorded before the failure
    (nothing at all when they saw nothing).  The segment leaves the
    queue, the coordinator, [visited] and every other session as they
    were; the session itself is left to settle, and once it has, its
    slot is free and every queued sibling is still queued. *)
Theorem navigation_failure_keeps_only_observed (s : State) (url : string) (depth : nat)
  (net : list NetEvent) :
  mapGet url (activePages s) = Some {| t_depth := depth; t_session := Extracting |} ->
  URL_new url None <> None ->
  exists s' s'',
    exec FormCrawler s (InitialPass url net GotoThrows) = Some s' /\
    formsFound s' = formsFound s /\
    jsFrameworksDetected s' = jsFrameworksDetected s /\
    reactComponentsFound s' = reactComponentsFound s /\
    linksFound s' = Js.addAll (links (observed url net emptyPageData)) (linksFound s) /\
    endpointsFound s'
    = Js.addAll (endpoints (observed url net emptyPageData)) (endpointsFound s) /\
    requestsToReplicate s'
    = (requestsToReplicate s
       ++ requestsToReplicateForPage (observed url net emptyPageData))%list /\
    (net = [] ->
     linksFound s' = linksFound s /\ endpointsFound s' = endpointsFound s /\
     requestsToReplicate s' = requestsToReplicate s) /\
    queue s' = queue s /\ coordinator s' = coordinator s /\ visited s' = visited s /\
    (forall u, u <> url -> mapGet u (activePages s') = mapGet u (activePages s)) /\
    exec FormCrawler s' (SessionSettles url) = Some s'' /\
    (exists added, queue s'' = (queue s ++ added)%list) /\
    mapGet url (activePages s'') = None /\
    (forall u, u <> url -> mapGet u (activePages s'') = mapGet u (activePages s)).
Proof.
  intros Hget Hurl.
  destruct (URL_new url None) as [base|] eqn:Hbase; [|congruence].
  destruct (observed_only_network url net) as (Hforms & Hfw & Hrc).
  set (seen := observed url net emptyPageData) in *.
  set (s' := withActivePages
               (mapSet url {| t_depth := depth; t_session := Closing (links seen) |}
                  (activePages (mergeInitial seen s)))
               (mergeInitial seen s)).
  assert (He : exec FormCrawler s (InitialPass url net GotoThrows) = Some s').
  { simpl. rewrite Hget. unfold afterInitialPass, initialData, extractInfoInitial.
    rewrite Hbase. fold seen. rewrite Hforms. reflexivity. }
  assert (Hget' : mapGet url (activePages s')
                  = Some {| t_depth := depth; t_session := Closing (links seen) |})
    by (subst s'; simpl; apply mapGet_mapSet_same).
  exists s', (settle url depth (links seen) s').
  split; [exact He|].
  split; [subst s'; simpl; now rewrite Hforms|].
  split; [subst s'; simpl; now rewrite Hfw|].
  split; [subst s'; simpl; now rewrite Hrc|].
  split; [reflexivity|]. split; [reflexivity|]. split; [reflexivity|].
  split.
  { intros ->. subst s' seen. simpl. rewrite app_nil_r. auto. }
  split; [reflexivity|]. split; [reflexivity|]. split; [reflexivity|].
  split.
  { intros u Hu. subst s'. simpl. now apply mapGet_mapSet_other. }
  split.
  { revert Hget'. generalize s'. intros s0 Hget0. simpl. now rewrite Hget0. }
  destruct (requeue_same depth (links seen) s') as (_ & _ & Ha & _).
  split.
  { destruct (requeue_queue depth (links seen) s') as (added & Hadd).
    exists added. unfold settle. simpl. exact Hadd. }
  split.
  { unfold settle. simpl. apply mapGet_mapDelete_same. }
  intros u Hu. unfold settle. simpl. rewrite Ha.
  rewrite mapGet_mapDelete_other by assumption.
  subst s'. simpl. now apply mapGet_mapSet_other.
Qed.

End NavigationFailure.

(** ** The matcher *)

Lemma append_assoc (a b c : string) : ((a ++ b) ++ c = a ++ (b ++ c))%string.
Proof. induction a as [|x a IH]; simpl; [reflexivity | now rewrite IH]. Qed.

Lemma append_nil_l (a b : string) : (a ++ b)%string = EmptyString -> a = EmptyString.
Proof. destruct a; [reflexivity | discriminate]. Qed.

Lemma append_length (a b : string) :
  String.length (a ++ b) = String.length a + String.length b.
Proof. induction a as [|x a IH]; simpl; [reflexivity | now rewrite IH]. Qed.

Section MatcherFacts.
Variable ci : bool.
Variable R : Type.

Lemma star_sound (p : ascii -> bool) (k : string -> string -> option R) (s : string)
  (x : R) :
  star R p k s = Some x ->
  exists taken rest, k taken rest = Some x /\ s = (taken ++ rest)%string.
Proof.
  revert k. induction s as [|a s IH]; intros k; simpl.
  - intro Hk. exists EmptyString, EmptyString. auto.
  - destruct (p a); [|intro Hk; exists EmptyString, (String a s); auto].
    destruct (star R p (fun taken rest => k (String a taken) rest) s) as [y|] eqn:Hs.
    + intro Heq. inversion Heq. subst y.
      apply IH in Hs as (taken & rest & Hk & ->).
      exists (String a taken), rest. auto.
    + intro Hk. exists EmptyString, (String a s). auto.
Qed.

(** A successful match hands to its continuation a split of the input
    into the text taken and the text left; a consuming pattern takes
    at least one character. *)
Lemma matchFrom_sound (r : regex) :
  forall (s : string) (caps : Captures) (k : string -> string -> Captures -> option R) (x : R),
    matchFrom ci R r s caps k = Some x ->
    exists taken rest caps',
      k taken rest caps' = Some x /\ s = (taken ++ rest)%string /\
      (consuming r = true -> taken <> EmptyString).
Proof.
  induction r as [|c|p|r1 IH1 r2 IH2|r1 IH1 r2 IH2|p|r1 IH1|n r1 IH1];
    intros s caps k x; simpl.
  - intro Hk. exists EmptyString, s, caps. repeat split; auto; discriminate.
  - destruct s as [|a s]; [discriminate|]. destruct (chrEq ci c a); [|discriminate].
    intro Hk. exists (String a EmptyString), s, caps. repeat split; auto; discriminate.
  - destruct s as [|a s]; [discriminate|]. destruct (p a); [|discriminate].
    intro Hk. exists (String a EmptyString), s, caps. repeat split; auto; discriminate.
  - intro Hm. apply IH1 in Hm as (t1 & s1 & c1 & Hm & -> & Hn1).
    apply IH2 in Hm as (t2 & s2 & c2 & Hk & -> & Hn2).
    exists (t1 ++ t2)%string, s2, c2. split; [assumption|].
    split; [now rewrite append_assoc|].
    intros Hc Hnil. apply orb_true_iff in Hc as [Hc|Hc].
    + apply Hn1; [assumption|]. now apply append_nil_l in Hnil.
    + apply Hn2; [assumption|]. destruct t1; [exact Hnil | discriminate].
  - destruct (matchFrom ci R r1 s caps k) as [y|] eqn:H1.
    + intro Heq. inversion Heq. subst y.
      apply IH1 in H1 as (t & rest & c & Hk & Hs & Hn).
      exists t, rest, c. repeat split; auto.
      intro Hc. apply andb_true_iff in Hc as (Hc & _). auto.
    + intro H2. apply IH2 in H2 as (t & rest & c & Hk & Hs & Hn).
      exists t, rest, c. repeat split; auto.
      intro Hc. apply andb_true_iff in Hc as (_ & Hc). auto.
  - intro Hs. apply star_sound in Hs as (taken & rest & Hk & Hs).
    exists taken, rest, caps. repeat split; auto; discriminate.
  - destruct (matchFrom ci R r1 s caps k) as [y|] eqn:H1.
    + intro Heq. inversion Heq. subst y.
      apply IH1 in H1 as (t & rest & c & Hk & Hs & _).
      exists t, rest, c. repeat split; auto; discriminate.
    + intro Hk. exists EmptyString, s, caps. repeat split; auto; discriminate.
  - intro Hm. apply IH1 in Hm as (t & rest & c & Hk & Hs & Hn).
    exists t, rest, ((n, t) :: c). auto.
Qed.

End MatcherFacts.

Lemma matchHere_sound (ci : bool) (r : regex) (s : string) (m : Match) :
  matchHere ci r s = Some m ->
  s = (m0 m ++ after m)%string /\ (consuming r = true -> m0 m <> EmptyString).
Proof.
  unfold matchHere. intro Hm.
  apply matchFrom_sound in Hm as (taken & rest & caps' & Hk & Hs & Hn).
  inversion Hk. subst m. simpl. auto.
Qed.


(** ** Inline-script endpoints *)

Section RegexFacts.
Variable R : Type.


End RegexFacts.


(** Where the occurrence of [fetchLogin] begins, the first pattern
    matches with the path and the method captured, whatever follows. *)
Lemma search_fetchLogin (post : string) :
  search true pattern0 (fetchLogin ++ post)
  = Some {| m0 := "fetch('/api/login', {method:'POST'}";
            caps := [(2, "POST"); (1, "/api/login")];
            after := ")" ++ post |}.
Proof. reflexivity. Qed.






Section ScriptEndpoints.
Context `{UrlApi}.
Variable resolve : string -> option string.










End ScriptEndpoints.


(** The initial pass up to its inline scripts. *)
Section PassToScripts.
Context `{UrlApi}.






End PassToScripts.


(** ** The executable URL instance: the origin in a serialisation *)





Lemma digit_delimiter (a : ascii) : Js.is_digit a = true -> negb (delimiter a) = true.
Proof.
  destruct a as [[|] [|] [|] [|] [|] [|] [|] [|]]; vm_compute; intro Hc;
    first [discriminate Hc | reflexivity].
Qed.












(** ** The scripts on concrete pages *)

Section Evaluation.
#[local] Existing Instance Whatwg.api.
Import Demo.



(** The scope test compares text: a link to a host whose name merely
    begins with the name of the host of the page passes it and is
    recorded. *)
Example lookalike_link_recorded :
  exists final,
    crawl FormCrawler lookalikeWeb firstReady 20 "https://a.test/" = Some final /\
    In "https://a.test.evil.com/x" (links_txt (saveResults final)) /\
    lookalike "https://a.test/" "https://a.test.evil.com/x" = true.
Proof.
  eexists. split; [vm_compute; reflexivity|].
  split; [vm_compute; left; reflexivity | reflexivity].
Qed.

(** C2 (witness). *)
Lemma processed_at_most_once_witness :
  count_occ string_dec (map item_url (processed redirectedEnd)) "https://a.test/" <= 1.
Proof.
  apply (@processed_at_most_once Whatwg.api FormCrawler "https://a.test/").
  exists redirectedRun. vm_compute. reflexivity.
Defined.

(** C3 (witness). *)
Lemma dispatched_depth_bounded_witness :
  Forall (fun it => item_depth it <= MAX_DEPTH) (processed redirectedEnd) /\
  Forall (fun it => item_depth it <= MAX_DEPTH) (queue redirectedEnd).
Proof.
  apply (@dispatched_depth_bounded Whatwg.api FormCrawler "https://a.test/").
  exists redirectedRun. vm_compute. reflexivity.
Defined.

(** C4 (witness): the failing session of the unreachable start URL. *)
Lemma navigation_failure_keeps_only_observed_witness :
  exists s',
    exec FormCrawler (dispatchedOnly "https://a.test/api/users")
      (InitialPass "https://a.test/api/users"
         [NetRequest (documentRequest "https://a.test/api/users")] GotoThrows) = Some s' /\
    formsFound s' = [] /\ queue s' = [] /\
    exists s'', exec FormCrawler s' (SessionSettles "https://a.test/api/users") = Some s''.
Proof.
  destruct (@navigation_failure_keeps_only_observed Whatwg.api
              (dispatchedOnly "https://a.test/api/users") "https://a.test/api/users" 0
              [NetRequest (documentRequest "https://a.test/api/users")])
    as (s' & s'' & He & Hforms & _ & _ & _ & _ & _ & _ & Hq & _ & _ & _ & Hsettle & _).
  - vm_compute. reflexivity.
  - vm_compute. discriminate.
  - exists s'. split; [exact He|]. split; [exact Hforms|]. split; [exact Hq|].
    exists s''. exact Hsettle.
Defined.

(** C4 (counterexample): a run whose only navigation throws ends with
    an endpoint entry, recorded by the [request] handler before the
    failure. *)
Lemma failed_navigation_leaves_endpoint :
  exists final,
    crawl FormCrawler unreachableWeb firstReady 20 "https://a.test/api/users" = Some final /\
    processed final = [{| item_url := "https://a.test/api/users"; item_depth := 0 |}] /\
    endpointsFound final = ["[INTERCEPTED] GET https://a.test/api/users"].
Proof.
  eexists. split; [vm_compute; reflexivity|]. split; reflexivity.
Qed.

(** C6 (witness). *)
Lemma sensitive_value_noninterference_witness :
  extractDataFromJson (tokenBody "abc") "https://a.test/" emptyPageData
  = extractDataFromJson (tokenBody "xyz") "https://a.test/" emptyPageData.
Proof.
  apply (@sensitive_value_noninterference Whatwg.api).
  simpl. split; [reflexivity|]. split; [|exact I].
  right. split; [|split]; reflexivity.
Defined.

(** C6 (counterexample): two runs that differ only in the string stored
    under the key [token] end with different endpoint entries, one of
    which carries the value. *)
Lemma sensitive_url_value_recorded :
  exists final1 final2,
    crawl FormCrawler (tokenWeb "https://x.test/1") firstReady 20 "https://a.test/"
    = Some final1 /\
    crawl FormCrawler (tokenWeb "https://x.test/2") firstReady 20 "https://a.test/"
    = Some final2 /\
    sensitiveKey "token" = true /\
    In "[JSON_API_RESPONSE] https://x.test/1" (endpointsFound final1) /\
    endpointsFound final1 <> endpointsFound final2.
Proof.
  eexists. eexists. split; [vm_compute; reflexivity|]. split; [vm_compute; reflexivity|].
  split; [reflexivity|]. split; [left; reflexivity | discriminate].
Qed.



(** C10 (witness): the results page of the search form. *)
Lemma form_navigation_never_dispatched_witness :
  In "https://a.test/results" (visited searchSubmitted) /\
  forall trace s'',
    execTrace FormCrawler searchSubmitted trace = Some s'' ->
    In "https://a.test/results" (crawledUrls (saveResults s'')) /\
    ~ In "https://a.test/results" (map item_url (processed s'')) /\
    forall net nav, exec FormCrawler s'' (InitialPass "https://a.test/results" net nav) = None.
Proof.
  apply (@form_navigation_never_dispatched Whatwg.api "https://a.test/"
           searchSubmitting searchSubmitted "https://a.test/" "https://a.test/"
           "https://a.test/results"
           (pageAt "https://a.test/results" (anchorsOnly ["/item/1"])) 0
           {| fm_url := "https://a.test/"; fm_action := "https://a.test/search";
              fm_method := "GET"; fm_id := ""; fm_name := ""; fm_class := "";
              fm_fields := [] |} [] []).
  - exists [CoordinatorTurn;
            InitialPass "https://a.test/" []
              (Loaded (pageAt "https://a.test/"
                         {| d_anchors := []; d_forms := [searchForm];
                            d_inlineScripts := []; d_resources := [] |}))].
    vm_compute. reflexivity.
  - vm_compute. reflexivity.
  - vm_compute. discriminate.
  - vm_compute. discriminate.
  - discriminate.
  - vm_compute. reflexivity.
  - vm_compute. reflexivity.
  - vm_compute. reflexivity.
Defined.

(** C7 (failing input).  Requested under [https://a.test/a/b/c] and
    redirected to [https://a.test/p/x], a page with the anchors [../y]
    and [#frag]: advanced-crawler.js resolves both against the
    requested URL, part_001 against the URL the page is on. *)
Lemma advanced_crawler_resolves_against_requested_url :
  option_map links (Advanced.extractInfo requestedUrl (Loaded landedPage))
  = Some ["https://a.test/a/y"; "https://a.test/a/b/c"] /\
  option_map links (extractInfoInitial requestedUrl [] (Loaded landedPage))
  = Some ["https://a.test/y"; "https://a.test/p/x"].
Proof. split; vm_compute; reflexivity. Qed.

(** C9 (failing input).  On the same page, a form without action and
    method and a form with the relative action [httpdocs/save]:
    part_001 records the second action as it stands, where resolution
    against the page would give [https://a.test/p/httpdocs/save];
    advanced-crawler.js does the same and, for the first form, falls
    back to the requested URL instead of the URL the page is on. *)
Lemma relative_action_kept_relative :
  option_map (fun pd => map (fun f => (fm_method f, fm_action f)) (forms pd))
    (extractInfoInitial requestedUrl [] (Loaded landedPage))
  = Some [("GET", "https://a.test/p/x"); ("POST", "httpdocs/save")] /\
  option_map URL_toString (URL_new "httpdocs/save" (Some "https://a.test/p/x"))
  = Some "https://a.test/p/httpdocs/save" /\
  option_map (fun pd => map (fun f => (fm_method f, fm_action f)) (forms pd))
    (Advanced.extractInfo requestedUrl (Loaded landedPage))
  = Some [("GET", "https://a.test/a/b/c"); ("POST", "httpdocs/save")].
Proof. repeat split; vm_compute; reflexivity. Qed.

End Evaluation.

(** ** Further properties of the form crawler *)

Lemma mapSet_length (k : string) (t : Task) (m : list (string * Task)) :
  length (mapSet k t m) <= S (length m).
Proof.
  induction m as [|[k0 t0] m IH]; simpl; [lia|].
  destruct (k0 =? k)%string; simpl; lia.
Qed.

Lemma mapSet_length_present (k : string) (t t' : Task) (m : list (string * Task)) :
  mapGet k m = Some t -> length (mapSet k t' m) = length m.
Proof.
  intro Hget. pose proof (mapSet_keys k t t' m Hget) as Hk.
  unfold keys in Hk. apply (f_equal (@length string)) in Hk.
  now rewrite !length_map in Hk.
Qed.

Lemma mapDelete_length (k : string) (m : list (string * Task)) :
  length (mapDelete k m) <= length m.
Proof. unfold mapDelete. apply filter_length_le. Qed.

Lemma before_fragment (a b : string) :
  Js.before "#" (a ++ String "#" b) = Js.before "#" a.
Proof.
  induction a as [|c a IH]; simpl; [reflexivity|].
  destruct (Ascii.eqb c "#"); [reflexivity | now rewrite IH].
Qed.

Section Pool.
Context `{UrlApi}.
Variable script : Script.

Lemma fill_pool (q : list Item) (s : State) :
  length (activePages s) <= MAX_CONCURRENT_PAGES ->
  length (activePages (fill q s)) <= MAX_CONCURRENT_PAGES.
Proof.
  revert s. induction q as [|item rest IH]; intros s Hs; simpl; [assumption|].
  destruct (length (activePages s) <? MAX_CONCURRENT_PAGES) eqn:Hroom; [|assumption].
  destruct (Js.has (item_url item) (visited s) || (MAX_DEPTH <? item_depth item)) eqn:Hguard;
    apply IH; [assumption|].
  apply Nat.ltb_lt in Hroom. unfold dispatch, beginSession. simpl. rewrite Hguard. simpl.
  eapply Nat.le_trans; [apply mapSet_length|]. lia.
Qed.

Lemma loopHead_pool (s : State) :
  length (activePages s) <= MAX_CONCURRENT_PAGES ->
  length (activePages (loopHead s)) <= MAX_CONCURRENT_PAGES.
Proof.
  intro Hs. unfold loopHead.
  assert (Hfill : length (activePages (awaitOrReturn (fill (queue s) s)))
                  <= MAX_CONCURRENT_PAGES).
  { pose proof (fill_pool (queue s) s Hs) as Hf. unfold awaitOrReturn.
    destruct (activePages (fill (queue s) s)) eqn:Ha;
      [destruct (queue (fill (queue s) s))|]; simpl; rewrite ?Ha; exact Hf. }
  destruct (queue s); destruct (activePages s) eqn:Ha; try exact Hfill.
  simpl. rewrite Ha. simpl. lia.
Qed.

Lemma exec_pool (s s' : State) (e : Event) :
  length (activePages s) <= MAX_CONCURRENT_PAGES ->
  exec script s e = Some s' ->
  length (activePages s') <= MAX_CONCURRENT_PAGES.
Proof.
  intros Hs He.
  each_event e; simpl in He.
  - destruct (coordinator s); inversion He. now apply loopHead_pool.
  - destruct (coordinator s) as [|racing| |]; try discriminate.
    destruct (raceSettled racing s); inversion He. unfold afterRace.
    pose proof (loopHead_pool s Hs) as Hloop.
    destruct (queue s); destruct (activePages s) eqn:Ha; try exact Hloop.
    simpl. now rewrite Ha.
  - destruct (coordinator s); inversion He. now apply loopHead_pool.
  - session_of url s Hget.
    inversion He. simpl. erewrite mapSet_length_present; eassumption.
  - session_of url s Hget.
    inversion He.
    destruct (afterInitialPass_shape script url depth net nav s)
      as (session & _ & _ & _ & Ha & _).
    rewrite Ha. erewrite mapSet_length_present; eassumption.
  - session_of url s Hget.
    inversion He.
    destruct (afterFormPass_shape url depth formDetail rest newLinks before after pv s)
      as (session & _ & _ & Ha & _).
    rewrite Ha. erewrite mapSet_length_present; eassumption.
  - session_of url s Hget.
    inversion He. unfold settle. simpl.
    destruct (requeue_same depth newLinks s) as (_ & _ & Ha & _). rewrite Ha.
    eapply Nat.le_trans; [apply mapDelete_length | assumption].
Qed.

End Pool.

(** X1.  At every moment of a run at most [MAX_CONCURRENT_PAGES] page
    sessions are in flight. *)
Theorem in_flight_sessions_bounded `{UrlApi} (script : Script) (startUrl : string)
  (s : State) :
  reachable script startUrl s -> length (activePages s) <= MAX_CONCURRENT_PAGES.
Proof.
  intros (trace & Htrace).
  assert (Hgen : forall tr s0 s1,
             length (activePages s0) <= MAX_CONCURRENT_PAGES ->
             execTrace script s0 tr = Some s1 ->
             length (activePages s1) <= MAX_CONCURRENT_PAGES).
  { induction tr as [|e rest IH]; intros s0 s1 H0; simpl.
    - intro Heq; inversion Heq; now subst.
    - destruct (exec script s0 e) as [sm|] eqn:He; [|discriminate].
      apply IH. eapply exec_pool; eassumption. }
  eapply Hgen; [|exact Htrace]. simpl. unfold MAX_CONCURRENT_PAGES. lia.
Qed.

Section CurrentUrl.
Context `{UrlApi}.

Lemma extractLinks_keeps (pageUrl : string) (base : URL) (hrefs : list string)
  (pd : PageData) (l : string) :
  In l (links pd) -> In l (links (extractLinks pageUrl base hrefs pd)).
Proof.
  unfold extractLinks. apply (fold_left_preserves (fun pd' => In l (links pd'))).
  intros pd' href Hpd'. destruct (anchorLink pageUrl base href); [|assumption].
  simpl. apply add_In. now right.
Qed.

Lemma extractLinks_finds (pageUrl : string) (base : URL) (hrefs : list string)
  (pd : PageData) (href l : string) :
  In href hrefs -> anchorLink pageUrl base href = Some l ->
  In l (links (extractLinks pageUrl base hrefs pd)).
Proof.
  intros Hin Ha. unfold extractLinks. revert pd.
  induction hrefs as [|h rest IH]; intro pd; [contradiction|].
  simpl. destruct Hin as [->|Hin]; [|now apply IH].
  rewrite Ha.
  apply (fold_left_preserves (fun pd' => In l (links pd'))).
  - intros pd' href' Hpd'. destruct (anchorLink pageUrl base href'); [|assumption].
    simpl. apply add_In. now right.
  - simpl. apply add_In. now left.
Qed.

Lemma extractDom_link (url pageUrl : string) (base : URL) (dom : Dom) (pd : PageData)
  (href l : string) :
  In href (d_anchors dom) ->
  anchorLink pageUrl base href = Some l ->
  In l (links (extractDom url pageUrl base dom pd)).
Proof.
  intros Hin Ha. unfold extractDom.
  pose proof (extractForms_links url pageUrl base (d_forms dom)
                (extractLinks pageUrl base (d_anchors dom) pd)) as Hforms.
  destruct (extractForms url pageUrl base (d_forms dom)
              (extractLinks pageUrl base (d_anchors dom) pd)) as [pd1 [|]]; simpl in Hforms;
    rewrite ?extractResources_links, ?extractScripts_links, Hforms;
    eapply extractLinks_finds; eassumption.
Qed.

Lemma extractSettled_link (url : string) (pv : PageView) (pd pd' : PageData) (base : URL)
  (dom : Dom) (href l : string) :
  URL_new (pv_url pv) None = Some base ->
  recordFrameworks pv pd = (pd', true) ->
  pv_dom pv = Some dom ->
  In href (d_anchors dom) ->
  anchorLink (pv_url pv) base href = Some l ->
  In l (links (extractSettled url pv pd)).
Proof.
  intros Hbase Hfw Hdom Hin Ha. unfold extractSettled. rewrite Hbase, Hfw, Hdom.
  eapply extractDom_link; eassumption.
Qed.

End CurrentUrl.

(** X2.  In part_001 the anchors of a settled page, once the framework
    probes and [page.content()] have fulfilled, are resolved against
    the URL the page is on at that moment ([page.url()]): a bare
    fragment yields that URL without its fragment, any other reference
    the URL that [new URL(href, page.url())] gives, without its
    fragment, both when in scope of that URL's origin. *)
Theorem anchors_resolved_against_current_url `{UrlApi} (url : string) (pv : PageView)
  (pd pd' : PageData) (base : URL) (dom : Dom) (href : string) :
  URL_new (pv_url pv) None = Some base ->
  recordFrameworks pv pd = (pd', true) ->
  pv_dom pv = Some dom ->
  In href (d_anchors dom) ->
  (forall frag,
      href = String "#" frag ->
      Js.startsWith (Js.before "#" (pv_url pv)) (URL_origin base) = true ->
      In (Js.before "#" (pv_url pv)) (links (extractSettled url pv pd))) /\
  (forall u,
      href <> EmptyString ->
      Js.startsWith href "#" = false ->
      Js.startsWith href "javascript:" = false ->
      URL_new href (Some (URL_toString base)) = Some u ->
      Js.startsWith (Js.before "#" (URL_toString u)) (URL_origin base) = true ->
      In (Js.before "#" (URL_toString u)) (links (extractSettled url pv pd))).
Proof.
  intros Hbase Hfw Hdom Hin. split.
  - intros frag -> Hscope.
    eapply extractSettled_link; try eassumption.
    unfold anchorLink. cbn [Js.startsWith]. rewrite Ascii.eqb_refl. simpl.
    rewrite before_fragment, Hscope. reflexivity.
  - intros u Hne Hfrag Hjs Hu Hscope.
    eapply extractSettled_link; try eassumption.
    unfold anchorLink. destruct href as [|c href]; [congruence|].
    rewrite Hfrag, Hjs, Hu. simpl. now rewrite Hscope.
Qed.

(** X3.  The defaults of a recorded form in part_001: a missing method
    is [GET] and a present one is upper-cased; a missing action is the
    URL the page is on (given that this begins with [http]); an action
    that does not begin with [http] is resolved against that URL. *)
Theorem form_defaults `{UrlApi} (url currentActualUrl : string) (base : URL)
  (form : FormElement) (details : FormDetails) :
  formDetailsOf url currentActualUrl base form = Some details ->
  (f_method form = None -> fm_method details = "GET"%string) /\
  (forall m, f_method form = Some m -> m <> EmptyString ->
             fm_method details = Js.toUpperCase m) /\
  (f_action form = None -> Js.startsWith currentActualUrl "http" = true ->
   fm_action details = currentActualUrl) /\
  (forall a, f_action form = Some a -> a <> EmptyString -> Js.startsWith a "http" = false ->
             option_map URL_toString (URL_new a (Some (URL_toString base)))
             = Some (fm_action details)).
Proof.
  unfold formDetailsOf. intro Hd. repeat split.
  - intro Hm. rewrite Hm in Hd. simpl in Hd.
    match type of Hd with context [if ?c then _ else _] => destruct c end;
      [|destruct (option_map _ _)]; inversion Hd; reflexivity.
  - intros m Hm Hne. rewrite Hm in Hd. destruct m as [|c m]; [congruence|]. simpl in Hd.
    match type of Hd with context [if ?c then _ else _] => destruct c end;
      [|destruct (option_map _ _)]; inversion Hd; reflexivity.
  - intros Ha Hhttp. rewrite Ha in Hd. cbn [Js.orElse] in Hd. rewrite Hhttp in Hd.
    inversion Hd. reflexivity.
  - intros a Ha Hne Hhttp. rewrite Ha in Hd. destruct a as [|c a]; [congruence|].
    cbn [Js.orElse] in Hd. rewrite Hhttp in Hd.
    destruct (option_map URL_toString (URL_new (String c a) (Some (URL_toString base))));
      inversion Hd. reflexivity.
Qed.

Section MoreEvaluation.
#[local] Existing Instance Whatwg.api.
Import Demo.

(** X1 (witness). *)
Lemma in_flight_sessions_bounded_witness :
  length (activePages redirectedEnd) <= MAX_CONCURRENT_PAGES.
Proof.
  apply (@in_flight_sessions_bounded Whatwg.api FormCrawler "https://a.test/").
  exists redirectedRun. vm_compute. reflexivity.
Defined.

(** X2 (witness): the two anchors of the redirected page. *)
Lemma anchors_resolved_against_current_url_witness :
  In "https://a.test/p/x" (links (extractSettled requestedUrl landedPage emptyPageData)) /\
  In "https://a.test/y" (links (extractSettled requestedUrl landedPage emptyPageData)).
Proof.
  split.
  - apply (proj1 (@anchors_resolved_against_current_url Whatwg.api requestedUrl landedPage
                    emptyPageData emptyPageData landedBase _ "#frag" eq_refl eq_refl eq_refl
                    (or_intror (or_introl eq_refl)))
             "frag" eq_refl eq_refl).
  - apply (proj2 (@anchors_resolved_against_current_url Whatwg.api requestedUrl landedPage
                    emptyPageData emptyPageData landedBase _ "../y" eq_refl eq_refl eq_refl
                    (or_introl eq_refl))
             {| Whatwg.scheme := "https"; Whatwg.host := "a.test"; Whatwg.port := None;
                Whatwg.path := ["y"]; Whatwg.query := None; Whatwg.fragment := None |}).
    + discriminate.
    + reflexivity.
    + reflexivity.
    + reflexivity.
    + reflexivity.
Defined.

(** X3 (witness): a form with neither action nor method, on the page
    the redirect led to. *)
Lemma form_defaults_witness :
  exists details,
    formDetailsOf requestedUrl "https://a.test/p/x" landedBase bareForm = Some details /\
    fm_method details = "GET"%string /\
    fm_action details = "https://a.test/p/x"%string.
Proof.
  eexists. split; [reflexivity|].
  destruct (@form_defaults Whatwg.api requestedUrl "https://a.test/p/x" landedBase
              bareForm _ eq_refl) as (Hmethod & _ & Haction & _).
  split; [apply Hmethod | apply Haction]; reflexivity.
Defined.

End MoreEvaluation.

(** ** How an extraction pass builds its findings *)

(** Every finding of a pass is entered by one of six operations: a
    link, cut at its first [#]; an endpoint entry that begins with one
    of the tags; a form; a framework; a component; a request.  What
    these operations keep, the pass keeps. *)
Section PassInduction.
Context `{UrlApi}.
Variable Q : PageData -> Prop.
Hypothesis Hlink : forall x pd, Q pd -> Q (addLink (Js.before "#" x) pd).
Hypothesis Hend : forall e pd, tagged e = true -> Q pd -> Q (addEndpoint e pd).
Hypothesis Hform : forall f pd, Q pd -> Q (addForm f pd).
Hypothesis HformByValue : forall f pd, Q pd -> Q (Advanced.addFormByValue f pd).
Hypothesis Hframework : forall f pd, Q pd -> Q (addFramework f pd).
Hypothesis Hcomponent : forall c pd, Q pd -> Q (addReactComponent c pd).
Hypothesis Hrequest : forall r pd, Q pd -> Q (pushRequest r pd).

Lemma onStringProperty_builds (key value basePageUrl : string) (pd : PageData) :
  Q pd -> Q (onStringProperty key value basePageUrl pd).
Proof.
  intro Hpd. unfold onStringProperty.
  match goal with |- Q (if sensitiveKey key then addEndpoint _ ?p else _) =>
    assert (Hfirst : Q p) end.
  { destruct (jsonUrlShaped value); [|assumption].
    destruct (URL_new value (Some basePageUrl)) as [u|]; [|assumption].
    destruct (URL_new basePageUrl None) as [b|]; [|assumption].
    destruct (Js.startsWith (Js.before "#" (URL_toString u)) (URL_origin b));
      [now apply Hlink | now apply Hend]. }
  destruct (sensitiveKey key); [now apply Hend | assumption].
Qed.

Lemma extractDataFromJson_builds (jsonData : JSON) (basePageUrl : string) (pd : PageData) :
  Q pd -> Q (extractDataFromJson jsonData basePageUrl pd).
Proof.
  revert pd.
  induction jsonData as [|x|x|x|items IH|props IH] using JSON_induction;
    intros pd Hpd; try exact Hpd.
  - simpl. generalize 0 as i. revert pd Hpd.
    induction IH as [|value rest Hvalue _ IHrest]; intros pd Hpd i; [exact Hpd|].
    simpl. apply IHrest.
    destruct value; try assumption; try (now apply Hvalue).
    now apply onStringProperty_builds.
  - simpl. revert pd Hpd.
    induction IH as [|[key value] rest Hvalue _ IHrest]; intros pd Hpd; [exact Hpd|].
    simpl. apply IHrest. simpl in Hvalue.
    destruct value; try assumption; try (now apply Hvalue).
    now apply onStringProperty_builds.
Qed.

Lemma onRequest_builds (request : RequestData) (pd : PageData) :
  Q pd -> Q (onRequest request pd).
Proof.
  intro Hpd. unfold onRequest.
  assert (Hfirst : Q (if (rq_method request =? "GET")%string then pd
                      else pushRequest request pd))
    by (destruct (rq_method request =? "GET")%string; [assumption | now apply Hrequest]).
  match goal with |- context [if ?c then addEndpoint _ _ else _] => destruct c end;
    [|assumption].
  apply Hend; [reflexivity | assumption].
Qed.

Lemma onResponse_builds (url : string) (response : ResponseData) (pd : PageData) :
  Q pd -> Q (onResponse url response pd).
Proof.
  intro Hpd. unfold onResponse.
  match goal with |- context [extractDataFromJson _ _ ?p] => set (pd1 := p) end.
  assert (Hpd1 : Q pd1).
  { subst pd1. match goal with |- context [if ?c then _ else _] => destruct c end;
      [|assumption].
    apply Hend; [reflexivity | assumption]. }
  destruct (rs_contentType response) as [[|c ct]|]; try exact Hpd1.
  destruct (Js.includes (String c ct) "application/json"); [|exact Hpd1].
  destruct (rs_json response) as [json|]; [|exact Hpd1].
  now apply extractDataFromJson_builds.
Qed.

Lemma observed_builds (url : string) (net : list NetEvent) (pd : PageData) :
  Q pd -> Q (observed url net pd).
Proof.
  unfold observed. apply fold_left_preserves.
  intros pd' [request|response] Hpd'; simpl;
    [now apply onRequest_builds | now apply onResponse_builds].
Qed.

Lemma anchorLink_cut (pageUrl : string) (base : URL) (href l : string) :
  anchorLink pageUrl base href = Some l -> exists x, l = Js.before "#" x.
Proof.
  unfold anchorLink. destruct href as [|c href]; [discriminate|].
  match goal with |- context [match ?r with Some _ => _ | None => None end] =>
    destruct r as [fullUrl|] end; [|discriminate].
  destruct (Js.startsWith (Js.before "#" fullUrl) (URL_origin base)); [|discriminate].
  intro Heq. inversion Heq. eauto.
Qed.

Lemma extractLinks_builds (pageUrl : string) (base : URL) (hrefs : list string)
  (pd : PageData) :
  Q pd -> Q (extractLinks pageUrl base hrefs pd).
Proof.
  unfold extractLinks. apply fold_left_preserves.
  intros pd' href Hpd'.
  destruct (anchorLink pageUrl base href) as [l|] eqn:Ha; [|assumption].
  apply anchorLink_cut in Ha as (x & ->). now apply Hlink.
Qed.

Lemma extractForms_builds (url defaultAction : string) (base : URL) (fs : list FormElement)
  (pd : PageData) :
  Q pd -> Q (fst (extractForms url defaultAction base fs pd)).
Proof.
  revert pd. induction fs as [|form rest IH]; intros pd Hpd; simpl; [assumption|].
  destruct (formDetailsOf url defaultAction base form); [|assumption].
  apply IH. now apply Hform.
Qed.

Lemma advanced_extractForms_builds (url : string) (base : URL) (fs : list FormElement)
  (pd : PageData) :
  Q pd -> Q (fst (Advanced.extractForms url base fs pd)).
Proof.
  revert pd. induction fs as [|form rest IH]; intros pd Hpd; simpl; [assumption|].
  destruct (formDetailsOf url url base form); [|assumption].
  apply IH. now apply HformByValue.
Qed.

Lemma endpointOfMatch_tagged (resolve : string -> option string) (i : nat) (m : Match)
  (e : string) :
  endpointOfMatch resolve i m = Some e -> tagged e = true.
Proof.
  unfold endpointOfMatch.
  destruct (candidateOf i m) as [[candidate|] method]; [|discriminate].
  destruct (resolve candidate) as [full|]; [|discriminate].
  intro Heq. inversion Heq.
  match goal with |- context [if ?c then _ else _] => destruct c end; [reflexivity|].
  destruct method; reflexivity.
Qed.

Lemma eachPattern_builds (resolve : string -> option string) (ps : list (bool * regex))
  (i : nat) (text : string) (pd : PageData) :
  Q pd -> Q (eachPattern resolve ps i text pd).
Proof.
  revert i pd. induction ps as [|[ci pattern] rest IH]; intros i pd Hpd; simpl; [assumption|].
  apply IH. revert Hpd. apply fold_left_preserves.
  intros pd' m Hpd'. destruct (endpointOfMatch resolve i m) as [e|] eqn:He; [|assumption].
  apply Hend; [|assumption]. eapply endpointOfMatch_tagged; eassumption.
Qed.

Lemma extractScripts_builds (resolve : string -> option string) (scripts : list string)
  (pd : PageData) :
  Q pd -> Q (extractScripts resolve scripts pd).
Proof.
  unfold extractScripts. apply fold_left_preserves.
  intros pd' text Hpd'. unfold scriptEndpoints.
  destruct text; [assumption | now apply eachPattern_builds].
Qed.

Lemma extractResources_builds (base : URL) (els : list ResourceElement) (pd : PageData) :
  Q pd -> Q (extractResources base els pd).
Proof.
  unfold extractResources. apply fold_left_preserves.
  intros pd' el Hpd'. unfold resourceOf.
  destruct (if Js.truthy (r_src el) then r_src el else r_href el) as [[|c src]|];
    try assumption.
  destruct (URL_new (String c src) (Some (URL_toString base))) as [full|]; [|assumption].
  assert (Hentry : Q (addEndpoint ("[RESOURCE_URL] " ++ URL_toString full) pd'))
    by (apply Hend; [reflexivity | assumption]).
  destruct (frameworkOfSrc (String c src)); [now apply Hframework | assumption].
Qed.

Lemma recordFrameworks_builds (pv : PageView) (pd : PageData) :
  Q pd -> Q (fst (recordFrameworks pv pd)).
Proof.
  intro Hpd. unfold recordFrameworks.
  destruct (pv_frameworks pv) as [fws|]; [|assumption].
  assert (Hfws : Q (fold_left (fun pd fw => addFramework fw pd) fws pd))
    by (revert Hpd; apply fold_left_preserves; auto).
  destruct (existsb (String.eqb "React") fws); [|assumption].
  destruct (pv_reactComponents pv) as [comps|]; [|assumption].
  simpl. revert Hfws. apply fold_left_preserves. auto.
Qed.

Lemma extractDom_builds (url pageUrl : string) (base : URL) (dom : Dom) (pd : PageData) :
  Q pd -> Q (extractDom url pageUrl base dom pd).
Proof.
  intro Hpd. unfold extractDom.
  pose proof (extractForms_builds url pageUrl base (d_forms dom)
                (extractLinks pageUrl base (d_anchors dom) pd)
                (extractLinks_builds pageUrl base (d_anchors dom) pd Hpd)) as Hforms.
  destruct (extractForms url pageUrl base (d_forms dom)
              (extractLinks pageUrl base (d_anchors dom) pd)) as [pd1 [|]]; simpl in Hforms;
    [|assumption].
  now apply extractResources_builds, extractScripts_builds.
Qed.

Lemma advanced_extractDom_builds (url : string) (base : URL) (dom : Dom) (pd : PageData) :
  Q pd -> Q (Advanced.extractDom url base dom pd).
Proof.
  intro Hpd. unfold Advanced.extractDom.
  pose proof (advanced_extractForms_builds url base (d_forms dom)
                (extractLinks url base (d_anchors dom) pd)
                (extractLinks_builds url base (d_anchors dom) pd Hpd)) as Hforms.
  destruct (Advanced.extractForms url base (d_forms dom)
              (extractLinks url base (d_anchors dom) pd)) as [pd1 [|]]; simpl in Hforms;
    [|assumption].
  now apply extractResources_builds, extractScripts_builds.
Qed.

Lemma extractSettled_builds (url : string) (pv : PageView) (pd : PageData) :
  Q pd -> Q (extractSettled url pv pd).
Proof.
  intro Hpd. unfold extractSettled.
  destruct (URL_new (pv_url pv) None) as [base|]; [|assumption].
  pose proof (recordFrameworks_builds pv pd Hpd) as Hfw.
  destruct (recordFrameworks pv pd) as [pd0 [|]]; simpl in Hfw; [|assumption].
  destruct (pv_dom pv) as [dom|]; [|assumption].
  now apply extractDom_builds.
Qed.

Variable script : Script.

Lemma initialData_builds (url : string) (net : list NetEvent) (nav : Navigation)
  (data : PageData) :
  Q emptyPageData -> initialData script url net nav = Some data -> Q data.
Proof.
  intro Hempty. unfold initialData. destruct script.
  - unfold extractInfoInitial. destruct (URL_new url None); [|discriminate].
    destruct nav as [|pv]; intro Heq; inversion Heq.
    + now apply observed_builds.
    + now apply extractSettled_builds, observed_builds.
  - unfold Advanced.extractInfo. destruct (URL_new url None) as [base|]; [|discriminate].
    destruct nav as [|pv]; [intro Heq; now inversion Heq|].
    pose proof (recordFrameworks_builds pv emptyPageData Hempty) as Hfw.
    destruct (recordFrameworks pv emptyPageData) as [pd0 [|]]; simpl in Hfw;
      [destruct (pv_dom pv) as [dom|]|]; intro Heq; inversion Heq; subst; try assumption.
    now apply advanced_extractDom_builds.
Qed.

Lemma extractInfoSubsequent_builds (url : string) (pv : PageView) (post : PageData) :
  Q emptyPageData -> extractInfoSubsequent url pv = Some post -> Q post.
Proof.
  intro Hempty. unfold extractInfoSubsequent. destruct (URL_new url None); [|discriminate].
  intro Heq; inversion Heq. now apply extractSettled_builds.
Qed.

End PassInduction.

(** ** The steps of a run, field by field *)

Lemma mapSet_In (k : string) (v : Task) (m : list (string * Task)) (u : string) (t : Task) :
  In (u, t) (mapSet k v m) -> (u, t) = (k, v) \/ In (u, t) m.
Proof.
  induction m as [|[k0 v0] m IH]; simpl.
  - intros [Heq|[]]; auto.
  - destruct (k0 =? k)%string; simpl; intros [Heq|Hin]; auto.
    destruct (IH Hin); auto.
Qed.

Lemma mapDelete_In (k : string) (m : list (string * Task)) (u : string) (t : Task) :
  In (u, t) (mapDelete k m) -> In (u, t) m.
Proof. unfold mapDelete. intro Hin. now apply filter_In in Hin. Qed.

Lemma mapGet_In (k : string) (t : Task) (m : list (string * Task)) :
  mapGet k m = Some t -> In (k, t) m.
Proof.
  induction m as [|[k0 v0] m IH]; simpl; [discriminate|].
  destruct (k0 =? k)%string eqn:Hk.
  - apply String.eqb_eq in Hk. intro Heq. inversion Heq. subst. now left.
  - intro Hget. right. now apply IH.
Qed.

Section Steps.
Context `{UrlApi}.
Variable script : Script.

Lemma dispatch_fields (item : Item) (s : State) :
  Js.has (item_url item) (visited s) || (MAX_DEPTH <? item_depth item) = false ->
  results (dispatch item s) = results s /\
  queue (dispatch item s) = queue s /\
  coordinator (dispatch item s) = coordinator s /\
  visited (dispatch item s) = Js.add (item_url item) (visited s) /\
  processed (dispatch item s) = (processed s ++ [item])%list /\
  urlCounter (dispatch item s) = S (urlCounter s) /\
  activePages (dispatch item s)
  = mapSet (item_url item) {| t_depth := item_depth item; t_session := Extracting |}
      (activePages s).
Proof.
  intro Hguard. unfold dispatch, beginSession. simpl. rewrite Hguard. simpl.
  destruct item. repeat split.
Qed.

Lemma fill_results (q : list Item) (s : State) : results (fill q s) = results s.
Proof.
  revert s. induction q as [|item rest IH]; intro s; simpl; [reflexivity|].
  destruct (length (activePages s) <? MAX_CONCURRENT_PAGES); [|reflexivity].
  destruct (Js.has (item_url item) (visited s) || (MAX_DEPTH <? item_depth item)) eqn:Hguard;
    rewrite IH; [reflexivity|].
  now apply dispatch_fields.
Qed.

Lemma loopHead_results (s : State) : results (loopHead s) = results s.
Proof.
  unfold loopHead.
  assert (Hfill : results (awaitOrReturn (fill (queue s) s)) = results s).
  { rewrite <- (fill_results (queue s) s). unfold awaitOrReturn.
    destruct (activePages (fill (queue s) s)); [destruct (queue (fill (queue s) s))|];
      reflexivity. }
  destruct (queue s); destruct (activePages s); try exact Hfill. reflexivity.
Qed.

Lemma requeue_fields (depth : nat) (newLinks : list string) (s : State) :
  results (requeue depth newLinks s) = results s /\
  urlCounter (requeue depth newLinks s) = urlCounter s.
Proof.
  revert s. induction newLinks as [|link rest IH]; intro s; simpl; [auto|].
  match goal with |- context [if ?c then _ else _] => destruct c end; [|apply IH].
  destruct (IH (withQueue (queue s ++ [{| item_url := link; item_depth := depth + 1 |}]) s))
    as (-> & ->). auto.
Qed.

Lemma adoptNavigation_fields (url before after : string) (newLinks : list string)
  (s s' : State) (newLinks' : list string) :
  adoptNavigation url before after newLinks s = Some (s', newLinks') ->
  results s' = results s /\ queue s' = queue s /\ activePages s' = activePages s /\
  coordinator s' = coordinator s /\ processed s' = processed s /\
  urlCounter s' = urlCounter s /\
  (visited s' = visited s /\ newLinks' = newLinks \/
   after <> before /\ ~ In after (visited s) /\ inScope url after = Some true /\
   visited s' = Js.add after (visited s) /\
   (newLinks' = newLinks /\ In after newLinks \/ newLinks' = (newLinks ++ [after])%list)).
Proof.
  unfold adoptNavigation.
  destruct (negb (after =? before)%string && negb (Js.has after (visited s))) eqn:Hc.
  - apply andb_true_iff in Hc as (Hne & Hfresh).
    apply negb_true_iff in Hne, Hfresh. apply String.eqb_neq in Hne.
    apply has_false in Hfresh.
    destruct (inScope url after) as [[|]|]; intro Heq; inversion Heq; subst;
      repeat split; auto.
    right. repeat split; auto.
    destruct (existsb (String.eqb after) newLinks) eqn:Hex; [|auto].
    left. split; [reflexivity|]. now apply existsb_eqb_In.
  - intro Heq; inversion Heq; subst. repeat split; auto.
Qed.

(** The initial pass of a session: the findings are merged and the
    session goes on to its forms or is left to settle with the links
    of the page; no findings and no links when the pass throws. *)
Lemma afterInitialPass_cases (url : string) (depth : nat) (net : list NetEvent)
  (nav : Navigation) (s : State) :
  (initialData script url net nav = None /\
   afterInitialPass script url depth net nav s = setSession url depth (Closing []) s) \/
  (exists data session,
      initialData script url net nav = Some data /\
      afterInitialPass script url depth net nav s
      = setSession url depth session (mergeInitial data s) /\
      (session = Closing (links data) \/
       exists formDetail rest,
         script = FormCrawler /\ depth < MAX_DEPTH /\ forms data = formDetail :: rest /\
         session = Submitting formDetail rest (links data))).
Proof.
  unfold afterInitialPass.
  destruct (initialData script url net nav) as [data|]; [right|left; auto].
  exists data.
  destruct script; destruct (forms data) as [|f rest] eqn:Hforms;
    try solve [exists (Closing (links data)); auto].
  destruct (depth <? MAX_DEPTH) eqn:Hd.
  - exists (Submitting f rest (links data)). apply Nat.ltb_lt in Hd.
    repeat split; auto. right. exists f, rest. auto.
  - exists (Closing (links data)); auto.
Qed.

(** One round of the form loop: nothing when the submission or the
    re-extraction throws; otherwise the findings are merged, the
    navigation adopted, and the session goes on to the next form or is
    left to settle. *)
Lemma afterFormPass_cases (url : string) (depth : nat) (formDetail : FormDetails)
  (rest : list FormDetails) (newLinks : list string) (before after : string)
  (pv : PageView) (s : State) :
  afterFormPass url depth formDetail rest newLinks before after pv s
  = setSession url depth (Closing []) s \/
  exists post s1 newLinks1,
    extractInfoSubsequent after pv = Some post /\
    mergePost post newLinks s = (s1, newLinks1) /\
    (adoptNavigation url before after newLinks1 s1 = None /\
     afterFormPass url depth formDetail rest newLinks before after pv s
     = setSession url depth (Closing []) s1 \/
     exists s2 newLinks2 session,
       adoptNavigation url before after newLinks1 s1 = Some (s2, newLinks2) /\
       afterFormPass url depth formDetail rest newLinks before after pv s
       = setSession url depth session s2 /\
       (rest = [] /\ session = Closing newLinks2 \/
        exists next rest', rest = next :: rest' /\ session = Submitting next rest' newLinks2)).
Proof.
  unfold afterFormPass.
  destruct (URL_new (fm_action formDetail) (Some url)); [|left; reflexivity].
  destruct (extractInfoSubsequent after pv) as [post|]; [|left; reflexivity].
  right. destruct (mergePost post newLinks s) as [s1 newLinks1] eqn:Hm.
  exists post, s1, newLinks1. split; [reflexivity|]. split; [exact Hm|].
  destruct (adoptNavigation url before after newLinks1 s1) as [[s2 newLinks2]|];
    [right|left; auto].
  destruct rest as [|next rest'].
  - exists s2, newLinks2, (Closing newLinks2). auto.
  - exists s2, newLinks2, (Submitting next rest' newLinks2).
    split; [reflexivity|]. split; [reflexivity|]. right. eauto.
Qed.

(** What [mergePost] adds to [linksFound] it adds to the links of the
    session, and nothing else: the links of the pass that were not
    recorded before, each once, in the order of the pass. *)
Lemma mergePostLinks_exact (ls : list string) (found : Js.SetOf string)
  (newLinks : list string) :
  NoDup found ->
  exists added,
    mergePostLinks ls found newLinks = ((found ++ added)%list, (newLinks ++ added)%list) /\
    NoDup (found ++ added) /\
    forall l, In l added <-> In l ls /\ ~ In l found.
Proof.
  revert found newLinks. induction ls as [|link rest IH]; intros found newLinks Hnd; simpl.
  - exists []. rewrite !app_nil_r. repeat split; auto; intros []; auto.
  - destruct (Js.has link found) eqn:Hhas.
    + apply has_true in Hhas.
      destruct (IH found newLinks Hnd) as (added & Heq & Hnd' & Hin).
      exists added. split; [assumption|]. split; [assumption|].
      intro l. rewrite Hin. split; [tauto|].
      intros ([->|Hl] & Hnot); [contradiction | tauto].
    + apply has_false in Hhas.
      assert (Hadd : Js.add link found = (found ++ [link])%list).
      { unfold Js.add. clear - Hhas. induction found as [|x found IH]; simpl; [reflexivity|].
        destruct (string_dec link x) as [->|Hne]; [exfalso; apply Hhas; now left|].
        rewrite IH; [reflexivity|]. intro Hin. apply Hhas. now right. }
      rewrite Hadd.
      assert (Hnd1 : NoDup (found ++ [link])).
      { apply NoDup_app; [assumption | constructor; [intros []|constructor] |].
        intros x Hx [<-|[]]. contradiction. }
      destruct (IH (found ++ [link])%list (newLinks ++ [link])%list Hnd1)
        as (added & Heq & Hnd' & Hin).
      exists (link :: added). rewrite Heq, <- !app_assoc. simpl.
      split; [reflexivity|]. split; [now rewrite <- app_assoc in Hnd'|].
      intro l. simpl. rewrite Hin, in_app_iff. simpl. split.
      * intros [<-|(Hl & Hnot)]; [auto|]. split; [auto|]. tauto.
      * intros ([<-|Hl] & Hnot); [auto|].
        destruct (string_dec link l) as [->|Hne]; [auto|]. right. split; [assumption|].
        intros [Hf|[Heq'|[]]]; [contradiction | congruence].
Qed.

End Steps.

(** ** Induction over the runs *)

Section Runs.
Context `{UrlApi}.
Variable script : Script.

Lemma execTrace_app (s : State) (tr1 tr2 : list Event) :
  execTrace script s (tr1 ++ tr2)
  = match execTrace script s tr1 with
    | Some s1 => execTrace script s1 tr2
    | None => None
    end.
Proof.
  revert s. induction tr1 as [|e tr1 IH]; intro s; simpl; [reflexivity|].
  destruct (exec script s e); [apply IH | reflexivity].
Qed.

Lemma execTrace_snoc (s s' : State) (tr : list Event) (e : Event) :
  execTrace script s (tr ++ [e]) = Some s' ->
  exists sm, execTrace script s tr = Some sm /\ exec script sm e = Some s'.
Proof.
  rewrite execTrace_app. destruct (execTrace script s tr) as [sm|]; [|discriminate].
  simpl. destruct (exec script sm e) as [sn|] eqn:He; [|discriminate].
  intro Heq. inversion Heq. subst. eauto.
Qed.

(** What holds at the start and is kept by every step holds along
    every run. *)
Lemma trace_induction (startUrl : string) (I : list Event -> State -> Prop) :
  I [] (initialState startUrl) ->
  (forall tr s e s',
      execTrace script (initialState startUrl) tr = Some s -> I tr s ->
      exec script s e = Some s' -> I (tr ++ [e])%list s') ->
  forall tr s, execTrace script (initialState startUrl) tr = Some s -> I tr s.
Proof.
  intros H0 Hstep tr. induction tr as [|e tr IH] using rev_ind; intros s Htr.
  - simpl in Htr. inversion Htr. now subst.
  - apply execTrace_snoc in Htr as (sm & Htr & He). eapply Hstep; eauto.
Qed.

Lemma reachable_induction (startUrl : string) (I : State -> Prop) :
  I (initialState startUrl) ->
  (forall s e s', reachable script startUrl s -> I s -> exec script s e = Some s' -> I s') ->
  forall s, reachable script startUrl s -> I s.
Proof.
  intros H0 Hstep s (tr & Htr).
  apply (trace_induction startUrl (fun _ s => I s)) with (tr := tr); [assumption| |assumption].
  intros tr0 s0 e s' Htr0 Hs0 He. eapply Hstep; eauto. now exists tr0.
Qed.

(** The six kinds of step. *)
Lemma exec_cases (s s' : State) (e : Event) :
  exec script s e = Some s' ->
  s' = loopHead s \/
  s' = withCoordinator Sleeping s \/
  (exists url depth,
      e = PageFails url /\
      mapGet url (activePages s) = Some {| t_depth := depth; t_session := Extracting |} /\
      s' = setSession url depth (Closing []) s) \/
  (exists url depth net nav,
      e = InitialPass url net nav /\
      mapGet url (activePages s) = Some {| t_depth := depth; t_session := Extracting |} /\
      s' = afterInitialPass script url depth net nav s) \/
  (exists url depth formDetail rest newLinks before after pv,
      e = FormPass url before after pv /\
      mapGet url (activePages s)
      = Some {| t_depth := depth; t_session := Submitting formDetail rest newLinks |} /\
      s' = afterFormPass url depth formDetail rest newLinks before after pv s) \/
  (exists url depth newLinks,
      e = SessionSettles url /\
      mapGet url (activePages s)
      = Some {| t_depth := depth; t_session := Closing newLinks |} /\
      s' = settle url depth newLinks s).
Proof.
  each_event e; simpl.
  - destruct (coordinator s); intro Heq; inversion Heq. auto.
  - destruct (coordinator s) as [|racing| |]; try discriminate.
    destruct (raceSettled racing s); intro Heq; inversion Heq. unfold afterRace.
    destruct (queue s); destruct (activePages s); auto.
  - destruct (coordinator s); intro Heq; inversion Heq. auto.
  - session_of url s Hget. intro Heq; inversion Heq.
    right; right; left. exists url, depth. auto.
  - session_of url s Hget. intro Heq; inversion Heq.
    right; right; right; left. exists url, depth, net, nav. auto.
  - session_of url s Hget. intro Heq; inversion Heq.
    right; right; right; right; left.
    exists url, depth, formDetail, rest, newLinks, before, after, pv. auto.
  - session_of url s Hget. intro Heq; inversion Heq.
    right; right; right; right; right. exists url, depth, newLinks. auto.
Qed.

End Runs.

(** ** Invariants of the shared state *)

Lemma set_add_appends {A : Type} (dec : forall x y : A, {x = y} + {x <> y}) (x : A)
  (l : list A) :
  set_add dec x l = l \/ (~ In x l /\ set_add dec x l = (l ++ [x])%list).
Proof.
  induction l as [|y l IH]; simpl; [right; auto|].
  destruct (dec x y) as [->|Hne]; [left; reflexivity|].
  destruct IH as [->|(Hnot & ->)]; [left; reflexivity|].
  right. split; [|reflexivity]. intros [Heq|Hin]; [congruence | contradiction].
Qed.

Lemma fold_set_add_appends {A : Type} (dec : forall x y : A, {x = y} + {x <> y})
  (xs l : list A) :
  exists more, fold_left (fun acc x => set_add dec x acc) xs l = (l ++ more)%list.
Proof.
  revert l. induction xs as [|x xs IH]; intro l; simpl.
  - exists []. now rewrite app_nil_r.
  - destruct (set_add_appends dec x l) as [->|(_ & ->)]; [apply IH|].
    destruct (IH (l ++ [x])%list) as (more & ->). rewrite <- app_assoc. eauto.
Qed.

Lemma fold_set_add_NoDup {A : Type} (dec : forall x y : A, {x = y} + {x <> y})
  (xs l : list A) :
  NoDup l -> NoDup (fold_left (fun acc x => set_add dec x acc) xs l).
Proof.
  revert l. induction xs as [|x xs IH]; intros l Hl; simpl; [assumption|].
  apply IH. now apply set_add_nodup.
Qed.

Lemma addAll_appends (xs : list string) (l : Js.SetOf string) :
  exists more, Js.addAll xs l = (l ++ more)%list.
Proof. apply fold_set_add_appends. Qed.

Lemma addAll_NoDup (xs : list string) (l : Js.SetOf string) :
  NoDup l -> NoDup (Js.addAll xs l).
Proof. apply fold_set_add_NoDup. Qed.

Section SharedState.
Context `{UrlApi}.
Variable script : Script.

Lemma mergePost_fields (post : PageData) (newLinks : list string) (s s1 : State)
  (newLinks1 : list string) :
  mergePost post newLinks s = (s1, newLinks1) ->
  visited s1 = visited s /\ processed s1 = processed s /\ queue s1 = queue s /\
  activePages s1 = activePages s /\ coordinator s1 = coordinator s /\
  urlCounter s1 = urlCounter s /\ formsFound s1 = formsFound s /\
  (linksFound s1, newLinks1) = mergePostLinks (links post) (linksFound s) newLinks /\
  endpointsFound s1 = Js.addAll (endpoints post) (endpointsFound s) /\
  reactComponentsFound s1 = Js.addAll (reactComponents post) (reactComponentsFound s) /\
  jsFrameworksDetected s1 = Js.addAll (jsFrameworks post) (jsFrameworksDetected s) /\
  requestsToReplicate s1 = (requestsToReplicate s ++ requestsToReplicateForPage post)%list.
Proof.
  unfold mergePost.
  destruct (mergePostLinks (links post) (linksFound s) newLinks) as [found newLinks'].
  intro Heq. inversion Heq. subst. simpl. repeat split.
Qed.

(** The visited set and the queue after the inner loop. *)
Lemma fill_visited_NoDup (q : list Item) (s : State) :
  NoDup (visited s) -> NoDup (visited (fill q s)).
Proof.
  revert s. induction q as [|item rest IH]; intros s Hs; simpl; [assumption|].
  destruct (length (activePages s) <? MAX_CONCURRENT_PAGES); [|assumption].
  destruct (Js.has (item_url item) (visited s) || (MAX_DEPTH <? item_depth item)) eqn:Hguard;
    apply IH; [assumption|].
  destruct (dispatch_fields item s Hguard) as (_ & _ & _ & -> & _).
  now apply set_add_nodup.
Qed.

Lemma awaitOrReturn_visited (s : State) : visited (awaitOrReturn s) = visited s.
Proof.
  unfold awaitOrReturn. destruct (activePages s); [destruct (queue s)|]; reflexivity.
Qed.

Lemma loopHead_visited (s : State) : visited (loopHead s) = visited (fill (queue s) s).
Proof.
  unfold loopHead.
  destruct (queue s); destruct (activePages s); rewrite ?awaitOrReturn_visited; reflexivity.
Qed.

Lemma requeue_visited (depth : nat) (newLinks : list string) (s : State) :
  visited (requeue depth newLinks s) = visited s.
Proof. apply requeue_same. Qed.

Lemma exec_distinct (s s' : State) (e : Event) :
  distinct s -> exec script s e = Some s' -> distinct s'.
Proof.
  intros (Hv & Hl & Hf & He & Hrc & Hfw) Hexec.
  apply exec_cases in Hexec
    as [->|[->|[(url & depth & _ & _ & ->)|[(url & depth & net & nav & _ & _ & ->)|
        [(url & depth & formDetail & rest & newLinks & before & after & pv & _ & _ & ->)|
         (url & depth & newLinks & _ & _ & ->)]]]]].
  - unfold distinct. pose proof (loopHead_results s) as Hr. unfold results in Hr.
    inversion Hr as [[H1 H2 H3 H4 H5 H6]]. rewrite H1, H2, H3, H4, H5, loopHead_visited.
    repeat split; try assumption. now apply fill_visited_NoDup.
  - repeat split; assumption.
  - repeat split; assumption.
  - destruct (afterInitialPass_cases script url depth net nav s)
      as [(_ & ->)|(data & session & _ & -> & _)]; [repeat split; assumption|].
    unfold distinct. simpl. repeat split; try assumption;
      first [now apply addAll_NoDup | now apply fold_set_add_NoDup].
  - destruct (afterFormPass_cases url depth formDetail rest newLinks before after pv s)
      as [->|(post & s1 & newLinks1 & _ & Hm & Hrest)]; [repeat split; assumption|].
    apply mergePost_fields in Hm
      as (Hv1 & _ & _ & _ & _ & _ & Hf1 & Hl1 & He1 & Hrc1 & Hfw1 & _).
    destruct (mergePostLinks_exact (links post) (linksFound s) newLinks Hl)
      as (added & Hexact & Hnd & _).
    rewrite Hexact in Hl1. injection Hl1 as Hl1' _.
    assert (Hd1 : distinct s1).
    { unfold distinct. rewrite Hv1, Hl1', Hf1, He1, Hrc1, Hfw1.
      repeat split; try assumption; now apply addAll_NoDup. }
    destruct Hrest as [(_ & ->)|(s2 & newLinks2 & session & Had & -> & _)]; [exact Hd1|].
    apply adoptNavigation_fields in Had as (Hr & _ & _ & _ & _ & _ & Hvis).
    unfold results in Hr. inversion Hr as [[H1 H2 H3 H4 H5 H6]].
    destruct Hd1 as (Hv' & Hl' & Hf' & He' & Hrc' & Hfw').
    unfold distinct. simpl. rewrite H1, H2, H3, H4, H5.
    repeat split; try assumption.
    destruct Hvis as [(-> & _)|(_ & _ & _ & -> & _)]; [assumption|].
    now apply set_add_nodup.
  - unfold settle, distinct. simpl.
    destruct (requeue_fields depth newLinks s) as (Hr & _).
    unfold results in Hr. inversion Hr as [[H1 H2 H3 H4 H5 H6]].
    rewrite H1, H2, H3, H4, H5, requeue_visited. repeat split; assumption.
Qed.

Lemma reachable_distinct (startUrl : string) (s : State) :
  reachable script startUrl s -> distinct s.
Proof.
  apply reachable_induction.
  - repeat split; constructor.
  - intros s0 e s1 _ Hs0 He. eapply exec_distinct; eassumption.
Qed.

End SharedState.

(** ** Results only grow, at their end *)

Lemma extends_refl {A : Type} (l : list A) : extends l l.
Proof. exists []. now rewrite app_nil_r. Qed.

Lemma extends_trans {A : Type} (l1 l2 l3 : list A) :
  extends l1 l2 -> extends l2 l3 -> extends l1 l3.
Proof.
  intros (m1 & ->) (m2 & ->). exists (m1 ++ m2)%list. now rewrite app_assoc.
Qed.

Lemma appended_refl (s : State) : appended s s.
Proof. repeat split; apply extends_refl. Qed.

Lemma appended_same (s s' : State) : results s' = results s -> appended s s'.
Proof.
  unfold results. intro Hr. inversion Hr as [[H1 H2 H3 H4 H5 H6]].
  unfold appended. rewrite H1, H2, H3, H4, H5, H6. repeat split; apply extends_refl.
Qed.

Lemma appended_trans (s1 s2 s3 : State) : appended s1 s2 -> appended s2 s3 -> appended s1 s3.
Proof.
  intros (A1 & A2 & A3 & A4 & A5 & A6) (B1 & B2 & B3 & B4 & B5 & B6).
  repeat split; eapply extends_trans; eassumption.
Qed.

Section Growth.
Context `{UrlApi}.
Variable script : Script.

Lemma mergeInitial_appended (data : PageData) (s : State) : appended s (mergeInitial data s).
Proof.
  unfold appended. simpl. repeat split;
    first [apply addAll_appends | apply fold_set_add_appends | eexists; reflexivity].
Qed.

Lemma mergePost_appended (post : PageData) (newLinks : list string) (s : State) :
  NoDup (linksFound s) -> appended s (fst (mergePost post newLinks s)).
Proof.
  intro Hnd. destruct (mergePost post newLinks s) as [s1 newLinks1] eqn:Hm.
  apply mergePost_fields in Hm
    as (_ & _ & _ & _ & _ & _ & Hf1 & Hl1 & He1 & Hrc1 & Hfw1 & Hrq1).
  destruct (mergePostLinks_exact (links post) (linksFound s) newLinks Hnd)
    as (added & Hexact & _ & _).
  rewrite Hexact in Hl1. injection Hl1 as Hl1' _.
  unfold appended. simpl. rewrite Hl1', Hf1, He1, Hrc1, Hfw1, Hrq1.
  repeat split;
    first [apply addAll_appends | apply extends_refl | eexists; reflexivity].
Qed.

Lemma exec_appended (s s' : State) (e : Event) :
  NoDup (linksFound s) -> exec script s e = Some s' -> appended s s'.
Proof.
  intros Hnd Hexec.
  apply exec_cases in Hexec
    as [->|[->|[(url & depth & _ & _ & ->)|[(url & depth & net & nav & _ & _ & ->)|
        [(url & depth & formDetail & rest & newLinks & before & after & pv & _ & _ & ->)|
         (url & depth & newLinks & _ & _ & ->)]]]]].
  - apply appended_same, loopHead_results.
  - now apply appended_same.
  - now apply appended_same.
  - destruct (afterInitialPass_cases script url depth net nav s)
      as [(_ & ->)|(data & session & _ & -> & _)]; [now apply appended_same|].
    apply (mergeInitial_appended data s).
  - destruct (afterFormPass_cases url depth formDetail rest newLinks before after pv s)
      as [->|(post & s1 & newLinks1 & _ & Hm & Hrest)]; [now apply appended_same|].
    pose proof (mergePost_appended post newLinks s Hnd) as Hs1. rewrite Hm in Hs1.
    simpl in Hs1.
    destruct Hrest as [(_ & ->)|(s2 & newLinks2 & session & Had & -> & _)]; [exact Hs1|].
    apply adoptNavigation_fields in Had as (Hr & _).
    eapply appended_trans; [exact Hs1|]. now apply (appended_same s1 s2).
  - unfold settle. apply appended_same. simpl.
    now destruct (requeue_fields depth newLinks s).
Qed.

End Growth.

(** X4.  The result lists of a run are append-only: from any state
    of a run on, every list of findings (links, forms, endpoint
    entries, components, frameworks, requests) keeps what it holds, in
    place, and only gains entries at its end. *)
Theorem findings_append_only `{UrlApi} (script : Script) (startUrl : string)
  (tr1 tr2 : list Event) (s1 s2 : State) :
  execTrace script (initialState startUrl) tr1 = Some s1 ->
  execTrace script s1 tr2 = Some s2 ->
  appended s1 s2.
Proof.
  intros Htr1. revert s2.
  induction tr2 as [|e tr2 IH] using rev_ind; intros s2 Htr2.
  - simpl in Htr2. inversion Htr2. apply appended_refl.
  - apply execTrace_snoc in Htr2 as (sm & Htr2 & He).
    apply (appended_trans s1 sm s2); [apply IH; exact Htr2|].
    eapply exec_appended; [|exact He].
    apply (reachable_distinct script startUrl). exists (tr1 ++ tr2)%list.
    now rewrite execTrace_app, Htr1.
Qed.

(** ** The scheduler loop *)

Section Scheduler.
Context `{UrlApi}.

Lemma withQueue_queue (s : State) : withQueue (queue s) s = s.
Proof. now destruct s. Qed.

(** The inner loop of [crawl] as a loop: [J q s] relates the entries
    still to be dequeued to the rest of the state.  What holds at the
    start and is kept by a dropped and by a dispatched entry holds at
    the end, where the queue is empty or the pool is full. *)
Lemma fill_loop (J : list Item -> State -> Prop) :
  (forall item rest s,
      J (item :: rest) s ->
      length (activePages s) < MAX_CONCURRENT_PAGES ->
      Js.has (item_url item) (visited s) || (MAX_DEPTH <? item_depth item) = true ->
      J rest s) ->
  (forall item rest s,
      J (item :: rest) s ->
      length (activePages s) < MAX_CONCURRENT_PAGES ->
      Js.has (item_url item) (visited s) || (MAX_DEPTH <? item_depth item) = false ->
      J rest (dispatch item s)) ->
  forall q s,
    J q s ->
    exists q' s',
      fill q s = withQueue q' s' /\ J q' s' /\
      (q' = [] \/ MAX_CONCURRENT_PAGES <= length (activePages s')).
Proof.
  intros Hskip Hdispatch q. induction q as [|item rest IH]; intros s HJ; simpl.
  - exists [], s. auto.
  - destruct (length (activePages s) <? MAX_CONCURRENT_PAGES) eqn:Hroom.
    + apply Nat.ltb_lt in Hroom.
      destruct (Js.has (item_url item) (visited s) || (MAX_DEPTH <? item_depth item))
        eqn:Hguard; apply IH; eauto.
    + apply Nat.ltb_ge in Hroom. exists (item :: rest), s. auto.
Qed.

Lemma loopHead_loop (J : list Item -> State -> Prop) :
  (forall item rest s,
      J (item :: rest) s ->
      length (activePages s) < MAX_CONCURRENT_PAGES ->
      Js.has (item_url item) (visited s) || (MAX_DEPTH <? item_depth item) = true ->
      J rest s) ->
  (forall item rest s,
      J (item :: rest) s ->
      length (activePages s) < MAX_CONCURRENT_PAGES ->
      Js.has (item_url item) (visited s) || (MAX_DEPTH <? item_depth item) = false ->
      J rest (dispatch item s)) ->
  forall s,
    J (queue s) s ->
    exists c q' s',
      loopHead s = withCoordinator c (withQueue q' s') /\ J q' s' /\
      (q' = [] \/ MAX_CONCURRENT_PAGES <= length (activePages s')) /\
      match c with
      | Returned => q' = [] /\ activePages s' = []
      | AwaitingRace racing => racing = keys (activePages s') /\ activePages s' <> []
      | _ => False
      end.
Proof.
  intros Hskip Hdispatch s HJ.
  destruct (fill_loop J Hskip Hdispatch (queue s) s HJ) as (q' & s' & Hfill & HJ' & Hstop).
  unfold loopHead.
  assert (Hgo : exists c,
             awaitOrReturn (fill (queue s) s) = withCoordinator c (withQueue q' s') /\
             match c with
             | Returned => q' = [] /\ activePages s' = []
             | AwaitingRace racing => racing = keys (activePages s') /\ activePages s' <> []
             | _ => False
             end).
  { rewrite Hfill. unfold awaitOrReturn. simpl.
    destruct (activePages s') as [|a m] eqn:Ha.
    - destruct q' as [|it q']; [exists Returned; auto|].
      exfalso. destruct Hstop as [Hnil|Hfull]; [discriminate|].
      unfold MAX_CONCURRENT_PAGES in Hfull. simpl in Hfull. lia.
    - exists (AwaitingRace (keys (a :: m))). repeat split. discriminate. }
  destruct (queue s) eqn:Hq; destruct (activePages s) eqn:Ha;
    try solve [destruct Hgo as (c & Hc & Hmatch); exists c, q', s';
               split; [exact Hc|]; split; [exact HJ'|]; split; assumption].
  assert (Hs : withQueue [] s = s) by (rewrite <- Hq; apply withQueue_queue).
  exists Returned, [], s. rewrite Hs. auto.
Qed.

End Scheduler.

(** X5.  One pass through the head of the scheduler loop never ends
    at the loop head again: it ends with [crawl] returned, queue and
    pool empty, or at the race over a non-empty pool, and then the
    queue is empty or the pool is full; the pool never holds more
    than it held before or [MAX_CONCURRENT_PAGES] sessions. *)
Theorem loop_head_awaits_or_returns (s : State) :
  match coordinator (loopHead s) with
  | Returned => queue (loopHead s) = [] /\ activePages (loopHead s) = []
  | AwaitingRace racing =>
      racing = keys (activePages (loopHead s)) /\ racing <> [] /\
      (queue (loopHead s) = []
       \/ MAX_CONCURRENT_PAGES <= length (activePages (loopHead s))) /\
      length (activePages (loopHead s))
      <= Nat.max (length (activePages s)) MAX_CONCURRENT_PAGES
  | _ => False
  end.
Proof.
  destruct (loopHead_loop
              (fun _ x => length (activePages x)
                          <= Nat.max (length (activePages s)) MAX_CONCURRENT_PAGES))
    with (s := s) as (c & q' & s' & -> & Hlen & Hstop & Hc).
  - auto.
  - intros item rest x Hx Hroom Hguard.
    destruct (dispatch_fields item x Hguard) as (_ & _ & _ & _ & _ & _ & ->).
    pose proof (mapSet_length (item_url item)
                  {| t_depth := item_depth item; t_session := Extracting |} (activePages x)).
    lia.
  - lia.
  - simpl. destruct c as [|racing| |]; try contradiction.
    + destruct Hc as (Hr & Ha). repeat split; auto.
      intro Hnil. rewrite Hnil in Hr. destruct (activePages s'); [now elim Ha | discriminate].
    + exact Hc.
Qed.

(** ** What the session steps leave alone *)

Section SessionFrames.
Context `{UrlApi}.
Variable script : Script.

Lemma afterInitialPass_frame (url : string) (depth : nat) (net : list NetEvent)
  (nav : Navigation) (s : State) :
  queue (afterInitialPass script url depth net nav s) = queue s /\
  processed (afterInitialPass script url depth net nav s) = processed s /\
  urlCounter (afterInitialPass script url depth net nav s) = urlCounter s /\
  visited (afterInitialPass script url depth net nav s) = visited s.
Proof.
  destruct (afterInitialPass_cases script url depth net nav s)
    as [(_ & ->)|(data & session & _ & -> & _)]; repeat split.
Qed.

Lemma afterFormPass_frame (url : string) (depth : nat) (formDetail : FormDetails)
  (rest : list FormDetails) (newLinks : list string) (before after : string)
  (pv : PageView) (s : State) :
  queue (afterFormPass url depth formDetail rest newLinks before after pv s) = queue s /\
  processed (afterFormPass url depth formDetail rest newLinks before after pv s)
  = processed s /\
  urlCounter (afterFormPass url depth formDetail rest newLinks before after pv s)
  = urlCounter s /\
  (visited (afterFormPass url depth formDetail rest newLinks before after pv s) = visited s \/
   visited (afterFormPass url depth formDetail rest newLinks before after pv s)
   = Js.add after (visited s)).
Proof.
  destruct (afterFormPass_cases url depth formDetail rest newLinks before after pv s)
    as [->|(post & s1 & newLinks1 & _ & Hm & Hrest)]; [repeat split; auto|].
  apply mergePost_fields in Hm as (Hv & Hp & Hq & _ & _ & Hu & _).
  destruct Hrest as [(_ & ->)|(s2 & newLinks2 & session & Had & -> & _)]; simpl.
  - rewrite Hv, Hp, Hq, Hu. auto.
  - apply adoptNavigation_fields in Had as (_ & Hq2 & _ & _ & Hp2 & Hu2 & Hvis).
    rewrite Hq2, Hp2, Hu2, Hq, Hp, Hu. repeat split.
    destruct Hvis as [(-> & _)|(_ & _ & _ & -> & _)]; rewrite Hv; auto.
Qed.

Lemma requeue_NoDup (depth : nat) (newLinks : list string) (s : State) :
  NoDup (queuedUrls s) -> NoDup (queuedUrls (requeue depth newLinks s)).
Proof.
  revert s. induction newLinks as [|link rest IH]; intros s Hs; simpl; [assumption|].
  destruct (negb (Js.has link (visited s))
            && negb (existsb (fun qItem => (item_url qItem =? link)%string) (queue s))
            && (depth + 1 <=? MAX_DEPTH)) eqn:Hc; [|now apply IH].
  apply IH. unfold queuedUrls. simpl. rewrite map_app. simpl.
  apply andb_true_iff in Hc as (Hc & _). apply andb_true_iff in Hc as (_ & Hq).
  apply negb_true_iff in Hq.
  apply NoDup_app; [assumption | constructor; [intros []|constructor] |].
  intros u Hu [<-|[]].
  apply in_map_iff in Hu as (it & Hit & Hin).
  assert (Hex : existsb (fun qItem => (item_url qItem =? link)%string) (queue s) = true).
  { apply existsb_exists. exists it. split; [assumption|]. now apply String.eqb_eq. }
  congruence.
Qed.

Lemma exec_counter (s s' : State) (e : Event) :
  urlCounter s = length (processed s) -> exec script s e = Some s' ->
  urlCounter s' = length (processed s').
Proof.
  intros Hs Hexec.
  apply exec_cases in Hexec
    as [->|[->|[(url & depth & _ & _ & ->)|[(url & depth & net & nav & _ & _ & ->)|
        [(url & depth & formDetail & rest & newLinks & before & after & pv & _ & _ & ->)|
         (url & depth & newLinks & _ & _ & ->)]]]]]; try exact Hs.
  - destruct (loopHead_loop (fun _ x => urlCounter x = length (processed x)))
      with (s := s) as (c & q' & s' & -> & Hs' & _); auto.
    intros item rest x Hx _ Hguard.
    destruct (dispatch_fields item x Hguard) as (_ & _ & _ & _ & -> & -> & _).
    rewrite length_app. simpl. lia.
  - destruct (afterInitialPass_frame url depth net nav s) as (_ & -> & -> & _). exact Hs.
  - destruct (afterFormPass_frame url depth formDetail rest newLinks before after pv s)
      as (_ & -> & -> & _). exact Hs.
  - unfold settle. simpl.
    destruct (requeue_same depth newLinks s) as (_ & -> & _).
    destruct (requeue_fields depth newLinks s) as (_ & ->). exact Hs.
Qed.

Lemma exec_queue_NoDup (s s' : State) (e : Event) :
  NoDup (queuedUrls s) -> exec script s e = Some s' -> NoDup (queuedUrls s').
Proof.
  intros Hs Hexec.
  apply exec_cases in Hexec
    as [->|[->|[(url & depth & _ & _ & ->)|[(url & depth & net & nav & _ & _ & ->)|
        [(url & depth & formDetail & rest & newLinks & before & after & pv & _ & _ & ->)|
         (url & depth & newLinks & _ & _ & ->)]]]]]; try exact Hs.
  - destruct (loopHead_loop (fun q _ => NoDup (map item_url q)))
      with (s := s) as (c & q' & s' & -> & Hs' & _); auto;
      intros item rest x Hx _ _; now inversion Hx.
  - unfold queuedUrls.
    destruct (afterInitialPass_frame url depth net nav s) as (-> & _). exact Hs.
  - unfold queuedUrls.
    destruct (afterFormPass_frame url depth formDetail rest newLinks before after pv s)
      as (-> & _). exact Hs.
  - unfold settle, queuedUrls. simpl. now apply requeue_NoDup.
Qed.

End SessionFrames.

(** X6.  The counter that [crawl] prints with every task it adds is
    the number of sessions that went past the guard of
    [processUrlAndExtractData]: the guard never turns away a task that
    the scheduler has dispatched. *)
Theorem counter_counts_sessions `{UrlApi} (script : Script) (startUrl : string)
  (s : State) :
  reachable script startUrl s -> urlCounter s = length (processed s).
Proof.
  revert s.
  apply (reachable_induction script startUrl (fun s => urlCounter s = length (processed s)));
    [reflexivity|].
  intros s0 e s1 _ Hs0 He. eapply exec_counter; eassumption.
Qed.

(** X7.  No URL waits in the queue twice. *)
Theorem queue_holds_each_url_once `{UrlApi} (script : Script) (startUrl : string)
  (s : State) :
  reachable script startUrl s -> NoDup (queuedUrls s).
Proof.
  revert s. apply (reachable_induction script startUrl (fun s => NoDup (queuedUrls s))).
  - unfold queuedUrls. simpl. constructor; [intros []|constructor].
  - intros s0 e s1 _ Hs0 He. eapply exec_queue_NoDup; eassumption.
Qed.

(** ** What a settling session puts into the queue *)

Lemma requeue_exact (depth : nat) (newLinks : list string) (s : State) :
  exists added,
    queue (requeue depth newLinks s)
    = (queue s ++ map (fun l => {| item_url := l; item_depth := depth + 1 |}) added)%list /\
    NoDup added /\
    forall l, In l added <->
              In l newLinks /\ ~ In l (visited s) /\ ~ In l (queuedUrls s)
              /\ depth + 1 <= MAX_DEPTH.
Proof.
  revert s. induction newLinks as [|link rest IH]; intro s; simpl.
  - exists []. simpl. rewrite app_nil_r. split; [reflexivity|]. split; [constructor|].
    intro l. simpl. tauto.
  - assert (Hq : existsb (fun qItem => (item_url qItem =? link)%string) (queue s) = true
                 <-> In link (queuedUrls s)).
    { unfold queuedUrls. rewrite existsb_exists, in_map_iff. split.
      - intros (it & Hin & Heq). apply String.eqb_eq in Heq. eauto.
      - intros (it & Heq & Hin). exists it. split; [assumption|]. now apply String.eqb_eq. }
    destruct (negb (Js.has link (visited s))
              && negb (existsb (fun qItem => (item_url qItem =? link)%string) (queue s))
              && (depth + 1 <=? MAX_DEPTH)) eqn:Hc.
    + apply andb_true_iff in Hc as (Hc & Hd). apply andb_true_iff in Hc as (Hv & Hnq).
      apply negb_true_iff in Hv, Hnq. apply has_false in Hv. apply Nat.leb_le in Hd.
      assert (Hnq' : ~ In link (queuedUrls s)) by (rewrite <- Hq; congruence).
      destruct (IH (withQueue (queue s ++ [{| item_url := link; item_depth := depth + 1 |}])
                      s)) as (added & Heq & Hnd & Hin).
      exists (link :: added). rewrite Heq. simpl. rewrite <- app_assoc. simpl.
      split; [reflexivity|].
      assert (Hfresh : ~ In link added).
      { rewrite Hin. unfold queuedUrls. simpl. rewrite map_app, in_app_iff. simpl. tauto. }
      split; [now constructor|].
      intro l. simpl. rewrite Hin. unfold queuedUrls. simpl.
      rewrite map_app, in_app_iff. simpl. split.
      * intros [<-|(Hl & Hlv & Hlq & Hld)]; [tauto|]. tauto.
      * intros ([<-|Hl] & Hlv & Hlq & Hld); [auto|].
        destruct (string_dec link l) as [->|Hne]; [auto|]. right. tauto.
    + destruct (IH s) as (added & Heq & Hnd & Hin).
      exists added. split; [assumption|]. split; [assumption|].
      intro l. rewrite Hin. split; [tauto|].
      intros ([Hl|Hl] & Hlv & Hlq & Hld); [|tauto]. exfalso. subst l.
      apply has_false in Hlv. apply Nat.leb_le in Hld.
      rewrite Hlv, Hld in Hc. simpl in Hc.
      destruct (existsb (fun qItem => (item_url qItem =? link)%string) (queue s)) eqn:Hex;
        [|discriminate].
      apply Hlq, Hq. reflexivity.
Qed.

(** The loop with its growing queue test puts the fresh links into
    the queue at their first occurrence. *)
Lemma filter_filter {A : Type} (p q : A -> bool) (l : list A) :
  filter p (filter q l) = filter (fun x => q x && p x) l.
Proof.
  induction l as [|x l IH]; simpl; [reflexivity|].
  destruct (q x); simpl; [destruct (p x)|]; now rewrite IH.
Qed.

Lemma firstOccurrences_filter (p : string -> bool) (l : list string) :
  firstOccurrences (filter p l) = filter p (firstOccurrences l).
Proof.
  induction l as [|x l IH]; simpl; [reflexivity|].
  destruct (p x) eqn:Hp; simpl.
  - rewrite IH, !filter_filter. f_equal. apply filter_ext. intro y. apply andb_comm.
  - rewrite IH, filter_filter. apply filter_ext. intro y.
    destruct (String.eqb x y) eqn:Hxy; simpl; [|reflexivity].
    apply String.eqb_eq in Hxy. now subst y.
Qed.

Lemma has_app_one (l x : string) (q : list string) :
  Js.has l (q ++ [x])%list = Js.has l q || String.eqb x l.
Proof.
  unfold Js.has. induction q as [|y q IH]; simpl.
  - destruct (string_dec l x) as [->|Hne]; [now rewrite String.eqb_refl|].
    destruct (String.eqb_spec x l); [congruence | reflexivity].
  - destruct (string_dec l y); [reflexivity | exact IH].
Qed.

Lemma requeue_order (depth : nat) (newLinks : list string) (s : State) :
  queue (requeue depth newLinks s)
  = (queue s
     ++ map (fun l => {| item_url := l; item_depth := depth + 1 |})
          (if depth <? MAX_DEPTH
           then firstOccurrences
                  (filter (fun l => negb (Js.has l (visited s))
                                    && negb (Js.has l (queuedUrls s))) newLinks)
           else []))%list.
Proof.
  assert (Hd : (depth + 1 <=? MAX_DEPTH) = (depth <? MAX_DEPTH))
    by (unfold Nat.ltb; now rewrite Nat.add_1_r).
  revert s. induction newLinks as [|link rest IH]; intro s.
  - simpl. destruct (depth <? MAX_DEPTH); simpl; now rewrite app_nil_r.
  - cbn [requeue]. rewrite Hd.
    assert (Hq : existsb (fun qItem => (item_url qItem =? link)%string) (queue s)
                 = Js.has link (queuedUrls s)).
    { unfold queuedUrls, Js.has. induction (queue s) as [|it q IHq]; simpl; [reflexivity|].
      rewrite IHq. destruct (string_dec link (item_url it)) as [->|Hne].
      - now rewrite String.eqb_refl.
      - destruct (String.eqb_spec (item_url it) link); [congruence | reflexivity]. }
    rewrite Hq.
    destruct (depth <? MAX_DEPTH) eqn:Hdepth.
    + rewrite andb_true_r. cbn [filter].
      destruct (negb (Js.has link (visited s)) && negb (Js.has link (queuedUrls s))) eqn:Hc.
      * rewrite IH. unfold queuedUrls. simpl queue. simpl visited.
        cbn [firstOccurrences map]. rewrite <- app_assoc. cbn [app]. do 3 f_equal.
        rewrite <- firstOccurrences_filter, filter_filter. f_equal.
        apply filter_ext. intro l. rewrite map_app. cbn [map item_url].
        rewrite has_app_one, negb_orb. now rewrite andb_assoc.
      * apply IH.
    + rewrite andb_false_r. apply IH.
Qed.

(** X8.  A settling session leaves every other field alone, frees its
    slot, and appends to the queue exactly the links it returned that
    are neither in [visited] nor waiting already, each once, in the
    order in which they first occur in what it returned, one level
    below its own depth; it appends nothing when it ran at
    [MAX_DEPTH]. *)
Theorem settle_enqueues_exactly `{UrlApi} (script : Script) (s s' : State) (url : string) :
  exec script s (SessionSettles url) = Some s' ->
  exists depth newLinks added,
    mapGet url (activePages s)
    = Some {| t_depth := depth; t_session := Closing newLinks |} /\
    queue s'
    = (queue s ++ map (fun l => {| item_url := l; item_depth := depth + 1 |}) added)%list /\
    added
    = (if depth <? MAX_DEPTH
       then firstOccurrences
              (filter (fun l => negb (Js.has l (visited s)) && negb (Js.has l (queuedUrls s)))
                 newLinks)
       else []) /\
    NoDup added /\
    (forall l, In l added <->
               In l newLinks /\ ~ In l (visited s) /\ ~ In l (queuedUrls s)
               /\ depth < MAX_DEPTH) /\
    mapGet url (activePages s') = None /\
    (forall u, u <> url -> mapGet u (activePages s') = mapGet u (activePages s)) /\
    visited s' = visited s /\ results s' = results s /\ coordinator s' = coordinator s.
Proof.
  simpl. session_of url s Hget. intro Heq. inversion Heq.
  exists depth, newLinks.
  destruct (requeue_exact depth newLinks s) as (added & Hq & Hnd & Hin).
  destruct (requeue_same depth newLinks s) as (Hv & _ & Ha & Hc).
  destruct (requeue_fields depth newLinks s) as (Hr & _).
  exists added. unfold settle. simpl. rewrite Ha.
  split; [reflexivity|]. split; [assumption|].
  split.
  { rewrite requeue_order in Hq. apply app_inv_head in Hq.
    symmetry. revert Hq. generalize added.
    induction (if depth <? MAX_DEPTH
               then firstOccurrences
                      (filter (fun l => negb (Js.has l (visited s))
                                        && negb (Js.has l (queuedUrls s))) newLinks)
               else []) as [|x xs IHxs]; intros [|y ys] Hmap; try discriminate;
      [reflexivity|].
    simpl in Hmap. injection Hmap as Hxy Hrest. subst y. f_equal. now apply IHxs. }
  split; [assumption|].
  split; [intro l; rewrite Hin, Nat.add_1_r; reflexivity|].
  split; [apply mapGet_mapDelete_same|].
  split; [intros u Hu; now apply mapGet_mapDelete_other|].
  auto.
Qed.

(** ** Where the URLs of a run come from *)

Section Sources.
Context `{UrlApi}.
Variable script : Script.
Variable startUrl : string.

Lemma sourced_weaken (s s' : State) :
  (forall l, In l (linksFound s) -> In l (linksFound s')) ->
  (forall l, In l (visited s) -> In l (visited s')) ->
  queue s' = queue s -> processed s' = processed s ->
  (forall u t l, In (u, t) (activePages s') -> In l (pendingLinks (t_session t)) ->
                 In (u, t) (activePages s) \/ In l (linksFound s') \/ In l (visited s')) ->
  sourced startUrl s -> sourced startUrl s'.
Proof.
  intros Hl Hv Hq Hp Ha (Sq & Sp & Sa). unfold sourced. rewrite Hq, Hp.
  split; [|split].
  - intros it Hit. destruct (Sq it Hit); auto.
  - intros it Hit. destruct (Sp it Hit); auto.
  - intros u t l Hut Hin. destruct (Ha u t l Hut Hin) as [Hold|[Hnew|Hnew]]; auto.
    destruct (Sa u t l Hold Hin); auto.
Qed.

Lemma setSession_sourced (url : string) (depth : nat) (session : Session) (s : State) :
  (forall l, In l (pendingLinks session) -> In l (linksFound s) \/ In l (visited s)) ->
  sourced startUrl s -> sourced startUrl (setSession url depth session s).
Proof.
  intros Hsession. apply sourced_weaken; auto.
  intros u t l Hut Hin. simpl in Hut. apply mapSet_In in Hut as [Heq|Hold]; [|auto].
  inversion Heq. subst. right. simpl in Hin. destruct (Hsession l Hin); auto.
Qed.

Lemma loopHead_sourced (s : State) : sourced startUrl s -> sourced startUrl (loopHead s).
Proof.
  intros (Sq & Sp & Sa).
  destruct (loopHead_loop
              (fun q x =>
                 linksFound x = linksFound s /\
                 (forall it, In it q ->
                             item_url it = startUrl \/ In (item_url it) (linksFound s)) /\
                 (forall it, In it (processed x) ->
                             item_url it = startUrl \/ In (item_url it) (linksFound s)) /\
                 (forall u t l, In (u, t) (activePages x) ->
                                In l (pendingLinks (t_session t)) ->
                                In l (linksFound s) \/ In l (visited x))))
    with (s := s) as (c & q' & s' & -> & (Hl & Jq & Jp & Ja) & _).
  - intros item rest x (Hl & Jq & Jp & Ja) _ _. repeat split; auto.
    intros it Hit. apply Jq. now right.
  - intros item rest x (Hl & Jq & Jp & Ja) _ Hguard.
    destruct (dispatch_fields item x Hguard) as (Hr & _ & _ & Hv & Hp & _ & Hact).
    unfold results in Hr. inversion Hr as [[H1 H2 H3 H4 H5 H6]].
    rewrite H1, Hp, Hv, Hact. repeat split; auto.
    + intros it Hit. apply Jq. now right.
    + intros it Hit. apply in_app_iff in Hit as [Hit|[<-|[]]]; [auto|]. apply Jq. now left.
    + intros u t l Hut Hin. apply mapSet_In in Hut as [Heq|Hold].
      * inversion Heq. subst. contradiction.
      * destruct (Ja u t l Hold Hin); [auto|]. right. apply add_In. now right.
  - auto.
  - unfold sourced. simpl. rewrite Hl. auto.
Qed.

Lemma exec_sourced (s s' : State) (e : Event) :
  NoDup (linksFound s) -> sourced startUrl s -> exec script s e = Some s' ->
  sourced startUrl s'.
Proof.
  intros Hnd Hs Hexec.
  apply exec_cases in Hexec
    as [->|[->|[(url & depth & _ & _ & ->)|[(url & depth & net & nav & _ & _ & ->)|
        [(url & depth & formDetail & rest & newLinks & before & after & pv & _ & Hget & ->)|
         (url & depth & newLinks & _ & Hget & ->)]]]]].
  - now apply loopHead_sourced.
  - exact Hs.
  - apply setSession_sourced; [intros l []|assumption].
  - destruct (afterInitialPass_cases script url depth net nav s)
      as [(_ & ->)|(data & session & _ & -> & Hsession)];
      [apply setSession_sourced; [intros l []|assumption]|].
    apply setSession_sourced.
    + intros l Hl. left. simpl. apply addAll_In. left.
      destruct Hsession as [->|(f & r & _ & _ & _ & ->)]; exact Hl.
    + revert Hs. apply sourced_weaken; auto.
      intros l Hl. simpl. apply addAll_In. now right.
  - destruct (afterFormPass_cases url depth formDetail rest newLinks before after pv s)
      as [->|(post & s1 & newLinks1 & _ & Hm & Hrest)];
      [apply setSession_sourced; [intros l []|assumption]|].
    apply mergePost_fields in Hm as (Hv1 & Hp1 & Hq1 & Ha1 & _ & _ & _ & Hl1 & _).
    destruct (mergePostLinks_exact (links post) (linksFound s) newLinks Hnd)
      as (added & Hexact & _ & _).
    rewrite Hexact in Hl1. injection Hl1 as Hl1' Hn1.
    assert (Hs1 : sourced startUrl s1).
    { revert Hs. apply sourced_weaken; auto.
      - intros l Hl. rewrite Hl1', in_app_iff. now left.
      - intros l Hl. now rewrite Hv1.
      - intros u t l Hut _. left. now rewrite <- Ha1. }
    assert (Hpending : forall l, In l newLinks1 -> In l (linksFound s1) \/ In l (visited s1)).
    { intros l Hl. rewrite Hn1 in Hl. apply in_app_iff in Hl as [Hold|Hnew].
      - destruct Hs as (_ & _ & Sa). apply mapGet_In in Hget.
        destruct (Sa url _ l Hget Hold) as [Hf|Hv]; [left|right].
        + rewrite Hl1', in_app_iff. now left.
        + now rewrite Hv1.
      - left. rewrite Hl1', in_app_iff. now right. }
    destruct Hrest as [(_ & ->)|(s2 & newLinks2 & session & Had & -> & Hsession)];
      [apply setSession_sourced; [intros l []|assumption]|].
    apply adoptNavigation_fields in Had as (Hr & Hq2 & Ha2 & _ & Hp2 & _ & Hvis).
    unfold results in Hr. inversion Hr as [[H1 H2 H3 H4 H5 H6]].
    assert (Hv2 : forall l, In l (visited s1) -> In l (visited s2)).
    { intros l Hl. destruct Hvis as [(-> & _)|(_ & _ & _ & -> & _)]; [assumption|].
      apply add_In. now right. }
    apply setSession_sourced.
    + intros l Hl. rewrite H1.
      assert (Hl2 : In l newLinks2)
        by (destruct Hsession as [(_ & ->)|(next & rest' & _ & ->)]; exact Hl).
      destruct Hvis as [(_ & ->)|(_ & _ & _ & Hadd & [(-> & _)| ->])].
      * destruct (Hpending l Hl2); auto.
      * destruct (Hpending l Hl2); auto.
      * apply in_app_iff in Hl2 as [Hl2|[<-|[]]].
        -- destruct (Hpending l Hl2); auto.
        -- right. rewrite Hadd. apply add_In. now left.
    + revert Hs1. apply sourced_weaken; auto.
      * intros l Hl. now rewrite H1.
      * intros u t l Hut _. left. now rewrite <- Ha2.
  - destruct (requeue_exact depth newLinks s) as (added & Hq & _ & Hin).
    destruct (requeue_same depth newLinks s) as (Hv & Hp & Ha & _).
    destruct (requeue_fields depth newLinks s) as (Hr & _).
    unfold results in Hr. inversion Hr as [[H1 H2 H3 H4 H5 H6]].
    destruct Hs as (Sq & Sp & Sa). unfold settle, sourced. simpl.
    rewrite Hq, Hp, Ha, H1, Hv. split; [|split].
    + intros it Hit. apply in_app_iff in Hit as [Hit|Hit]; [auto|].
      apply in_map_iff in Hit as (l & <- & Hl). simpl. right.
      apply Hin in Hl as (Hl & Hnv & _). apply mapGet_In in Hget.
      destruct (Sa url _ l Hget Hl); [assumption | contradiction].
    + exact Sp.
    + intros u t l Hut Hl. apply mapDelete_In in Hut. exact (Sa u t l Hut Hl).
Qed.

Lemma reachable_sourced (s : State) : reachable script startUrl s -> sourced startUrl s.
Proof.
  intro Hr. pose proof Hr as Hr'. revert s Hr Hr'.
  apply (reachable_induction script startUrl
           (fun s => reachable script startUrl s -> sourced startUrl s)).
  - intros _. repeat split.
    + intros it [<-|[]]. now left.
    + intros it [].
    + intros u t l [].
  - intros s0 e s1 Hr0 Hs0 He _.
    eapply exec_sourced; [|now apply Hs0|exact He].
    now destruct (reachable_distinct script startUrl s0 Hr0) as (_ & Hl & _).
Qed.

End Sources.

(** X9.  A page session is only ever opened for the start URL or for
    a URL that the run has recorded as a link; the same holds of every
    URL that waits in the queue. *)
Theorem sessions_only_for_recorded_links `{UrlApi} (script : Script) (startUrl : string)
  (s : State) :
  reachable script startUrl s ->
  (forall it, In it (processed s) ->
              item_url it = startUrl \/ In (item_url it) (linksFound s)) /\
  (forall it, In it (queue s) ->
              item_url it = startUrl \/ In (item_url it) (linksFound s)).
Proof.
  intro Hr. destruct (reachable_sourced script startUrl s Hr) as (Sq & Sp & _). auto.
Qed.

(** ** The visited set along a run *)

Section Visited.
Context `{UrlApi}.
Variable script : Script.

Lemma exec_visited_extends (s s' : State) (e : Event) :
  exec script s e = Some s' -> extends (visited s) (visited s').
Proof.
  intro Hexec.
  apply exec_cases in Hexec
    as [->|[->|[(url & depth & _ & _ & ->)|[(url & depth & net & nav & _ & _ & ->)|
        [(url & depth & formDetail & rest & newLinks & before & after & pv & _ & _ & ->)|
         (url & depth & newLinks & _ & _ & ->)]]]]]; try apply extends_refl.
  - destruct (loopHead_loop (fun _ x => extends (visited s) (visited x)))
      with (s := s) as (c & q' & s' & -> & Hs' & _); auto using extends_refl.
    intros item rest x Hx _ Hguard.
    destruct (dispatch_fields item x Hguard) as (_ & _ & _ & -> & _).
    eapply extends_trans; [exact Hx|].
    destruct (set_add_appends string_dec (item_url item) (visited x)) as [Heq|(_ & Heq)];
      unfold Js.add; rewrite Heq; [apply extends_refl | eexists; reflexivity].
  - destruct (afterInitialPass_frame script url depth net nav s) as (_ & _ & _ & ->).
    apply extends_refl.
  - destruct (afterFormPass_frame url depth formDetail rest newLinks before after pv s)
      as (_ & _ & _ & [->| ->]); [apply extends_refl|].
    destruct (set_add_appends string_dec after (visited s)) as [Heq|(_ & Heq)];
      unfold Js.add; rewrite Heq; [apply extends_refl | eexists; reflexivity].
  - unfold settle. simpl. rewrite requeue_visited. apply extends_refl.
Qed.

Lemma execTrace_visited_extends (tr : list Event) (s s' : State) :
  execTrace script s tr = Some s' -> extends (visited s) (visited s').
Proof.
  revert s. induction tr as [|e tr IH]; intro s; simpl.
  - intro Heq. inversion Heq. apply extends_refl.
  - destruct (exec script s e) as [sm|] eqn:He; [|discriminate].
    intro Htr. eapply extends_trans; [eapply exec_visited_extends; exact He | now apply IH].
Qed.

Lemma exec_visited_source (tr : list Event) (s s' : State) (e : Event) :
  (forall u, In u (visited s) ->
             In u (map item_url (processed s)) \/ In u (formTargets tr)) ->
  exec script s e = Some s' ->
  forall u, In u (visited s') ->
            In u (map item_url (processed s')) \/ In u (formTargets (tr ++ [e])).
Proof.
  intros Hs Hexec u. unfold formTargets. rewrite flat_map_app, in_app_iff.
  fold (formTargets tr).
  assert (Hkeep : visited s' = visited s -> processed s' = processed s ->
                  In u (visited s') ->
                  In u (map item_url (processed s'))
                  \/ In u (formTargets tr) \/ In u (flat_map
                        (fun e => match e with
                                  | FormPass _ _ urlAfterSubmit _ => [urlAfterSubmit]
                                  | _ => []
                                  end) [e])).
  { intros -> -> Hu. destruct (Hs u Hu); auto. }
  apply exec_cases in Hexec
    as [->|[->|[(url & depth & -> & _ & ->)|[(url & depth & net & nav & -> & _ & ->)|
        [(url & depth & formDetail & rest & newLinks & before & after & pv & -> & _ & ->)|
         (url & depth & newLinks & -> & _ & ->)]]]]]; try (apply Hkeep; reflexivity).
  - destruct (loopHead_loop
                (fun _ x => forall u, In u (visited x) ->
                                      In u (map item_url (processed x))
                                      \/ In u (formTargets tr)))
      with (s := s) as (c & q' & s' & -> & Hs' & _); auto.
    + intros item rest x Hx _ Hguard v.
      destruct (dispatch_fields item x Hguard) as (_ & _ & _ & -> & -> & _).
      rewrite map_app, in_app_iff. simpl. intro Hv.
      apply add_In in Hv as [->|Hv]; [auto|]. destruct (Hx v Hv); auto.
    + simpl. intro Hu. destruct (Hs' u Hu); auto.
  - destruct (afterInitialPass_frame script url depth net nav s) as (_ & Hp & _ & Hv).
    now apply Hkeep.
  - destruct (afterFormPass_frame url depth formDetail rest newLinks before after pv s)
      as (_ & Hp & _ & [Hv|Hv]); [now apply Hkeep|].
    rewrite Hv, Hp. simpl. intro Hu.
    apply add_In in Hu as [->|Hu]; [auto|]. destruct (Hs u Hu); auto.
  - apply Hkeep; unfold settle; simpl; apply requeue_same.
Qed.

End Visited.

(** X10.  [crawledUrls] lists the URLs in the order in which they
    entered [visited], each of them once; every URL of it is a URL
    that a session was opened for or a URL that a form submission led
    to, and every URL that a session was opened for is in it. *)
Theorem crawled_urls_are_sessions_or_form_targets `{UrlApi} (script : Script)
  (startUrl : string) (tr : list Event) (s : State) :
  execTrace script (initialState startUrl) tr = Some s ->
  NoDup (sm_crawledUrls (summaryReport s)) /\
  (forall u, In u (sm_crawledUrls (summaryReport s)) ->
             In u (map item_url (processed s)) \/ In u (formTargets tr)) /\
  (forall it, In it (processed s) -> In (item_url it) (sm_crawledUrls (summaryReport s))) /\
  (forall tr' s', execTrace script s tr' = Some s' ->
                  extends (sm_crawledUrls (summaryReport s))
                    (sm_crawledUrls (summaryReport s'))).
Proof.
  intro Htr. simpl. split; [|split; [|split]].
  - now destruct (reachable_distinct script startUrl s (ex_intro _ tr Htr)).
  - revert tr s Htr.
    apply (trace_induction script startUrl
             (fun tr s => forall u, In u (visited s) ->
                                    In u (map item_url (processed s))
                                    \/ In u (formTargets tr))).
    + intros u [].
    + intros tr s e s' _ Hs He. eapply exec_visited_source; eassumption.
  - intros it Hit.
    destruct (reachable_processed script startUrl s (ex_intro _ tr Htr)) as (_ & Hall).
    rewrite Forall_forall in Hall. now apply Hall.
  - intros tr' s'. apply execTrace_visited_extends.
Qed.

(** X11.  The first step of every run hands the start URL to a
    session at depth 0: from then on the start URL heads the log of
    sessions and [crawledUrls]. *)
Theorem start_url_is_processed_first `{UrlApi} (script : Script) (startUrl : string)
  (tr : list Event) (s : State) :
  execTrace script (initialState startUrl) tr = Some s ->
  tr <> [] ->
  (exists rest, processed s = {| item_url := startUrl; item_depth := 0 |} :: rest) /\
  (exists rest, sm_crawledUrls (summaryReport s) = startUrl :: rest).
Proof.
  destruct tr as [|e tr]; [intros _ Hne; now elim Hne|]. intros Htr _.
  simpl in Htr. destruct (exec script (initialState startUrl) e) as [s1|] eqn:He;
    [|discriminate].
  assert (Hs1 : s1 = loopHead (initialState startUrl))
    by (destruct e; simpl in He; try discriminate; now inversion He).
  pose proof (execTrace_grows script tr s1 s Htr) as (_ & new & Hp & _).
  pose proof (execTrace_visited_extends script tr s1 s Htr) as (more & Hv).
  subst s1. split.
  - exists new. rewrite Hp. reflexivity.
  - exists more. simpl. rewrite Hv. reflexivity.
Qed.

(** ** Every returned link is crawled *)

Section Coverage.
Context `{UrlApi}.
Variable script : Script.

Lemma exec_covered (s s' : State) (e : Event) (l : string) :
  tracked s -> covered l s -> exec script s e = Some s' -> covered l s'.
Proof.
  intros (_ & Hbound) Hl Hexec. unfold covered, queuedUrls in *.
  pose proof (exec_visited_extends script s s' e Hexec) as (more & Hv).
  assert (Hkeep : queue s' = queue s -> In l (visited s') \/ In l (map item_url (queue s'))).
  { intros ->. rewrite Hv, in_app_iff. tauto. }
  apply exec_cases in Hexec
    as [->|[->|[(url & depth & _ & _ & ->)|[(url & depth & net & nav & _ & _ & ->)|
        [(url & depth & formDetail & rest & newLinks & before & after & pv & _ & _ & ->)|
         (url & depth & newLinks & _ & _ & ->)]]]]]; try (apply Hkeep; reflexivity).
  - destruct (loopHead_loop
                (fun q x => Forall (fun it => item_depth it <= MAX_DEPTH) q /\
                            (In l (visited x) \/ In l (map item_url q))))
      with (s := s) as (c & q' & s' & -> & (_ & Hs') & _); auto.
    + intros item rest x (Hq & Hx) _ Hguard. inversion Hq; subst. split; [assumption|].
      destruct Hx as [Hx|[<-|Hx]]; auto.
      apply orb_true_iff in Hguard as [Hhas|Hdeep]; [left; now apply has_true|].
      apply Nat.ltb_lt in Hdeep. lia.
    + intros item rest x (Hq & Hx) _ Hguard. inversion Hq; subst. split; [assumption|].
      destruct (dispatch_fields item x Hguard) as (_ & _ & _ & -> & _).
      destruct Hx as [Hx|[<-|Hx]]; auto; left; apply add_In; auto.
  - apply Hkeep. apply afterInitialPass_frame.
  - apply Hkeep. apply afterFormPass_frame.
  - unfold settle. simpl. rewrite requeue_visited.
    destruct (requeue_exact depth newLinks s) as (added & -> & _).
    rewrite map_app, in_app_iff. tauto.
Qed.

Lemma execTrace_covered (tr : list Event) (s s' : State) (l : string) :
  tracked s -> covered l s -> execTrace script s tr = Some s' -> covered l s'.
Proof.
  revert s. induction tr as [|e tr IH]; intros s Ht Hl; simpl.
  - intro Heq. inversion Heq. now subst.
  - destruct (exec script s e) as [sm|] eqn:He; [|discriminate].
    apply IH; [eapply exec_tracked | eapply exec_covered]; eassumption.
Qed.

End Coverage.

(** X12.  Nothing a session returns is forgotten: when [crawl] has
    returned, every link that a session at a depth below [MAX_DEPTH]
    handed back when it settled is in [crawledUrls]. *)
Theorem returned_links_are_crawled `{UrlApi} (script : Script) (startUrl : string)
  (tr1 tr2 : list Event) (s1 s2 final : State) (url : string) (depth : nat)
  (newLinks : list string) :
  execTrace script (initialState startUrl) tr1 = Some s1 ->
  mapGet url (activePages s1) = Some {| t_depth := depth; t_session := Closing newLinks |} ->
  depth < MAX_DEPTH ->
  exec script s1 (SessionSettles url) = Some s2 ->
  execTrace script s2 tr2 = Some final ->
  coordinator final = Returned ->
  forall l, In l newLinks -> In l (sm_crawledUrls (summaryReport final)).
Proof.
  intros Htr1 Hget Hdepth Hsettle Htr2 Hret l Hl.
  assert (Hr2 : execTrace script (initialState startUrl) (tr1 ++ [SessionSettles url])
                = Some s2)
    by (rewrite execTrace_app, Htr1; cbn [execTrace]; now rewrite Hsettle).
  assert (Ht2 : tracked s2)
    by (eapply execTrace_tracked; [apply initial_tracked | exact Hr2]).
  assert (Hc2 : covered l s2).
  { assert (Hs2 : s2 = settle url depth newLinks s1)
      by (simpl in Hsettle; rewrite Hget in Hsettle; now inversion Hsettle).
    destruct (requeue_exact depth newLinks s1) as (added & Hq & _ & Hin).
    subst s2. unfold covered, queuedUrls, settle. simpl.
    rewrite requeue_visited, Hq, map_app, in_app_iff, map_map. simpl. rewrite map_id.
    destruct (in_dec string_dec l (visited s1)) as [Hvis|Hnv]; [auto|].
    destruct (in_dec string_dec l (queuedUrls s1)) as [Hqd|Hnq]; [auto|].
    right; right. apply Hin. repeat split; auto. lia. }
  pose proof (execTrace_covered script tr2 s2 final l Ht2 Hc2 Htr2) as [Hv|Hq];
    [exact Hv|].
  assert (Hcons : consistent final).
  { apply (reachable_consistent script startUrl).
    exists ((tr1 ++ [SessionSettles url]) ++ tr2)%list.
    now rewrite execTrace_app, Hr2. }
  unfold consistent in Hcons. rewrite Hret in Hcons. destruct Hcons as (Hempty & _).
  unfold queuedUrls in Hq. rewrite Hempty in Hq. contradiction.
Qed.

(** ** The shape of recorded links and endpoint entries *)

Lemma before_cut (c : ascii) (x : string) : Js.hasChar (Js.before c x) c = false.
Proof.
  induction x as [|a x IH]; simpl; [reflexivity|].
  destruct (Ascii.eqb a c) eqn:Hac; [reflexivity|]. simpl. now rewrite Hac.
Qed.

Section Shapes.
Context `{UrlApi}.
Variable script : Script.

Lemma shaped_pass (url : string) (net : list NetEvent) (nav : Navigation)
  (data : PageData) :
  initialData script url net nav = Some data -> shaped data.
Proof.
  apply (initialData_builds shaped); unfold shaped; simpl;
    try (intros; assumption); try (split; constructor).
  - intros x pd (Hl & He). split; [|assumption].
    apply Forall_forall. intros l Hin. apply add_In in Hin as [->|Hin].
    + apply before_cut.
    + rewrite Forall_forall in Hl. now apply Hl.
  - intros e pd Ht (Hl & He). split; [assumption|].
    apply Forall_forall. intros e' Hin. apply add_In in Hin as [->|Hin]; [assumption|].
    rewrite Forall_forall in He. now apply He.
Qed.

Lemma shaped_subsequent (url : string) (pv : PageView) (post : PageData) :
  extractInfoSubsequent url pv = Some post -> shaped post.
Proof.
  apply (extractInfoSubsequent_builds shaped); unfold shaped; simpl;
    try (intros; assumption); try (split; constructor).
  - intros x pd (Hl & He). split; [|assumption].
    apply Forall_forall. intros l Hin. apply add_In in Hin as [->|Hin].
    + apply before_cut.
    + rewrite Forall_forall in Hl. now apply Hl.
  - intros e pd Ht (Hl & He). split; [assumption|].
    apply Forall_forall. intros e' Hin. apply add_In in Hin as [->|Hin]; [assumption|].
    rewrite Forall_forall in He. now apply He.
Qed.

Lemma exec_shaped (s s' : State) (e : Event) :
  Forall (fun l => Js.hasChar l "#" = false) (linksFound s) ->
  Forall (fun e => tagged e = true) (endpointsFound s) ->
  exec script s e = Some s' ->
  Forall (fun l => Js.hasChar l "#" = false) (linksFound s') /\
  Forall (fun e => tagged e = true) (endpointsFound s').
Proof.
  intros Hl He Hexec.
  assert (Hkeep : results s' = results s ->
                  Forall (fun l => Js.hasChar l "#" = false) (linksFound s') /\
                  Forall (fun e => tagged e = true) (endpointsFound s')).
  { unfold results. intro Hr. inversion Hr as [[H1 H2 H3 H4 H5 H6]].
    rewrite H1, H3. auto. }
  apply exec_cases in Hexec
    as [->|[->|[(url & depth & _ & _ & ->)|[(url & depth & net & nav & _ & _ & ->)|
        [(url & depth & formDetail & rest & newLinks & before & after & pv & _ & _ & ->)|
         (url & depth & newLinks & _ & _ & ->)]]]]]; try (apply Hkeep; reflexivity).
  - apply Hkeep, loopHead_results.
  - destruct (afterInitialPass_cases script url depth net nav s)
      as [(_ & ->)|(data & session & Hdata & -> & _)]; [simpl; auto|].
    apply shaped_pass in Hdata as (Dl & De). simpl.
    rewrite Forall_forall in Hl, He, Dl, De.
    split; apply Forall_forall; intros x Hx; apply addAll_In in Hx as [Hx|Hx]; auto.
  - destruct (afterFormPass_cases url depth formDetail rest newLinks before after pv s)
      as [->|(post & s1 & newLinks1 & Hpost & Hm & Hrest)]; [simpl; auto|].
    apply shaped_subsequent in Hpost as (Dl & De).
    apply mergePost_fields in Hm as (_ & _ & _ & _ & _ & _ & _ & Hl1 & He1 & _).
    assert (Hs1 : Forall (fun l => Js.hasChar l "#" = false) (linksFound s1) /\
                  Forall (fun e => tagged e = true) (endpointsFound s1)).
    { rewrite He1. rewrite Forall_forall in Hl, He, Dl, De.
      split; apply Forall_forall; intros x Hx.
      - pose proof (mergePostLinks_In (links post) (linksFound s) newLinks x) as Hin.
        rewrite <- Hl1 in Hin. destruct (Hin Hx); auto.
      - apply addAll_In in Hx as [Hx|Hx]; auto. }
    destruct Hrest as [(_ & ->)|(s2 & newLinks2 & session & Had & -> & _)]; [exact Hs1|].
    apply adoptNavigation_fields in Had as (Hr & _).
    unfold results in Hr. inversion Hr as [[H1 H2 H3 H4 H5 H6]].
    simpl. now rewrite H1, H3.
  - apply Hkeep. unfold settle. simpl. now destruct (requeue_fields depth newLinks s).
Qed.

End Shapes.

Lemma reachable_shaped `{UrlApi} (script : Script) (startUrl : string) (s : State) :
  reachable script startUrl s ->
  Forall (fun l => Js.hasChar l "#" = false) (linksFound s) /\
  Forall (fun e => tagged e = true) (endpointsFound s).
Proof.
  revert s.
  apply (reachable_induction script startUrl
           (fun s => Forall (fun l => Js.hasChar l "#" = false) (linksFound s) /\
                     Forall (fun e => tagged e = true) (endpointsFound s))).
  - split; constructor.
  - intros s e s' _ (Hl & He) Hexec. eapply exec_shaped; eassumption.
Qed.

(** X13.  [links.txt] holds every recorded link once, as many lines
    as [totalLinks] says, and no line of it holds a [#]: the links are
    stored without their fragment. *)
Theorem links_txt_without_fragments `{UrlApi} (script : Script) (startUrl : string)
  (s : State) :
  reachable script startUrl s ->
  NoDup (links_txt (saveResults s)) /\
  length (links_txt (saveResults s)) = sm_totalLinks (summaryReport s) /\
  Forall (fun l => Js.hasChar l "#" = false) (links_txt (saveResults s)).
Proof.
  intro Hr. simpl. split; [|split; [reflexivity|]].
  - now destruct (reachable_distinct script startUrl s Hr) as (_ & Hl & _).
  - now destruct (reachable_shaped script startUrl s Hr).
Qed.

(** X14.  Every endpoint entry that a run records begins with one of
    the seven tags [[INTERCEPTED] ], [[API_ERROR_],
    [[JSON_API_RESPONSE] ], [[JSON_SENSITIVE_KEY] ], [[SCRIPT_EVIDENT] ],
    [[SCRIPT_URL_ONLY] ] and [[RESOURCE_URL] ], and no entry is recorded
    twice. *)
Theorem endpoint_entries_are_tagged `{UrlApi} (script : Script) (startUrl : string)
  (s : State) :
  reachable script startUrl s ->
  NoDup (endpointsFound s) /\ Forall (fun e => tagged e = true) (endpointsFound s).
Proof.
  intro Hr. split.
  - now destruct (reachable_distinct script startUrl s Hr) as (_ & _ & _ & He & _).
  - now destruct (reachable_shaped script startUrl s Hr).
Qed.

(** ** More on the JSON walk *)

Section JsonMore.
Context `{UrlApi}.

Lemma add_extends (x : string) (l : Js.SetOf string) : extends l (Js.add x l).
Proof.
  unfold Js.add. destruct (set_add_appends string_dec x l) as [->|(_ & ->)];
    [apply extends_refl | eexists; reflexivity].
Qed.

(** The walk leaves forms, frameworks, components and requests
    alone, and links and endpoint entries in place. *)
Lemma walk_frame (jsonData : JSON) (basePageUrl : string) (pd : PageData) :
  forms (extractDataFromJson jsonData basePageUrl pd) = forms pd /\
  reactComponents (extractDataFromJson jsonData basePageUrl pd) = reactComponents pd /\
  jsFrameworks (extractDataFromJson jsonData basePageUrl pd) = jsFrameworks pd /\
  requestsToReplicateForPage (extractDataFromJson jsonData basePageUrl pd)
  = requestsToReplicateForPage pd /\
  extends (links pd) (links (extractDataFromJson jsonData basePageUrl pd)) /\
  extends (endpoints pd) (endpoints (extractDataFromJson jsonData basePageUrl pd)).
Proof.
  apply (extractDataFromJson_builds
           (fun pd' => forms pd' = forms pd /\ reactComponents pd' = reactComponents pd /\
                       jsFrameworks pd' = jsFrameworks pd /\
                       requestsToReplicateForPage pd' = requestsToReplicateForPage pd /\
                       extends (links pd) (links pd') /\
                       extends (endpoints pd) (endpoints pd'))).
  - intros x pd' (H1 & H2 & H3 & H4 & H5 & H6). simpl. repeat split; try assumption.
    eapply extends_trans; [exact H5 | apply add_extends].
  - intros e pd' _ (H1 & H2 & H3 & H4 & H5 & H6). simpl. repeat split; try assumption.
    eapply extends_trans; [exact H6 | apply add_extends].
  - repeat split; apply extends_refl.
Qed.

(** A body without string values leaves no finding. *)
Lemma stringless_walk (jsonData : JSON) (basePageUrl : string) (pd : PageData) :
  stringless jsonData = true -> extractDataFromJson jsonData basePageUrl pd = pd.
Proof.
  revert pd.
  induction jsonData as [|x|x|x|items IH|props IH] using JSON_induction;
    intros pd Hs; try reflexivity; try discriminate.
  - simpl in Hs. simpl. generalize 0 as i. revert pd Hs.
    induction IH as [|value rest Hvalue _ IHrest]; intros pd Hs i; [reflexivity|].
    simpl in Hs. apply andb_true_iff in Hs as (Hv & Hrest). simpl.
    replace (match value with
             | JString v => onStringProperty (Js.ofNat i) v basePageUrl pd
             | JNull | JArray _ | JObject _ => extractDataFromJson value basePageUrl pd
             | JBool _ | JNumber _ => pd
             end) with pd; [now apply IHrest|].
    destruct value; try reflexivity; try discriminate; symmetry; now apply Hvalue.
  - simpl in Hs. simpl. revert pd Hs.
    induction IH as [|[key value] rest Hvalue _ IHrest]; intros pd Hs; [reflexivity|].
    simpl in Hs. apply andb_true_iff in Hs as (Hv & Hrest). simpl. simpl in Hvalue.
    replace (match value with
             | JString v => onStringProperty key v basePageUrl pd
             | JNull | JArray _ | JObject _ => extractDataFromJson value basePageUrl pd
             | JBool _ | JNumber _ => pd
             end) with pd; [now apply IHrest|].
    destruct value; try reflexivity; try discriminate; symmetry; now apply Hvalue.
Qed.

(** What the visit of one string property establishes, and every
    later part of the walk keeps, holds at the end of the walk of any
    body that holds the property, at whatever depth. *)
Section Reach.
Variables key value basePageUrl : string.
Variable G : PageData -> Prop.
Hypothesis Gvisit : forall pd, G (onStringProperty key value basePageUrl pd).
Hypothesis GkeptByLink : forall l pd, G pd -> G (addLink l pd).
Hypothesis GkeptByEndpoint : forall e pd, G pd -> G (addEndpoint e pd).

Lemma walk_keeps (jsonData : JSON) (pd : PageData) :
  G pd -> G (extractDataFromJson jsonData basePageUrl pd).
Proof. apply (extractDataFromJson_builds G); auto. Qed.

Lemma visit_keeps (k v : string) (pd : PageData) :
  G pd -> G (onStringProperty k v basePageUrl pd).
Proof. apply (onStringProperty_builds G); auto. Qed.

Lemma step_keeps (k : string) (j : JSON) (pd : PageData) :
  G pd ->
  G match j with
    | JString v => onStringProperty k v basePageUrl pd
    | JNull | JArray _ | JObject _ => extractDataFromJson j basePageUrl pd
    | JBool _ | JNumber _ => pd
    end.
Proof.
  intro Hpd. destruct j; try assumption; try (now apply walk_keeps). now apply visit_keeps.
Qed.

Lemma props_keep (props : list (string * JSON)) (pd : PageData) :
  G pd -> G (extractDataFromJson (JObject props) basePageUrl pd).
Proof. apply walk_keeps. Qed.

Lemma walk_reaches (jsonData : JSON) :
  stringAt key value jsonData ->
  forall pd, G (extractDataFromJson jsonData basePageUrl pd).
Proof.
  induction 1 as [props Hin|props k j Hin Hj IH|items j Hin Hj IH]; intro pd.
  - revert pd. induction props as [|[k0 v0] rest IHp]; intro pd; [contradiction|].
    change (G (extractDataFromJson (JObject rest) basePageUrl
                 match v0 with
                 | JString v => onStringProperty k0 v basePageUrl pd
                 | JNull | JArray _ | JObject _ => extractDataFromJson v0 basePageUrl pd
                 | JBool _ | JNumber _ => pd
                 end)).
    destruct Hin as [Heq|Hin]; [|now apply IHp].
    inversion Heq. subst. apply props_keep, Gvisit.
  - revert pd. induction props as [|[k0 v0] rest IHp]; intro pd; [contradiction|].
    change (G (extractDataFromJson (JObject rest) basePageUrl
                 match v0 with
                 | JString v => onStringProperty k0 v basePageUrl pd
                 | JNull | JArray _ | JObject _ => extractDataFromJson v0 basePageUrl pd
                 | JBool _ | JNumber _ => pd
                 end)).
    destruct Hin as [Heq|Hin]; [|now apply IHp].
    inversion Heq. subst. apply props_keep.
    destruct j; try (now inversion Hj); apply IH.
  - simpl. generalize 0 as i. revert pd.
    induction items as [|v0 rest IHi]; intros pd i; [contradiction|].
    destruct Hin as [Heq|Hin].
    + subst v0. simpl.
      assert (Hhere : G match j with
                        | JString v => onStringProperty (Js.ofNat i) v basePageUrl pd
                        | JNull | JArray _ | JObject _ =>
                            extractDataFromJson j basePageUrl pd
                        | JBool _ | JNumber _ => pd
                        end)
        by (destruct j; try (now inversion Hj); apply IH).
      revert Hhere. generalize (S i).
      generalize (match j with
                  | JString v => onStringProperty (Js.ofNat i) v basePageUrl pd
                  | JNull | JArray _ | JObject _ => extractDataFromJson j basePageUrl pd
                  | JBool _ | JNumber _ => pd
                  end).
      clear IHi. induction rest as [|v1 rest IHr]; intros pd' i' Hpd'; [exact Hpd'|].
      simpl. apply IHr. now apply step_keeps.
    + simpl. now apply IHi.
Qed.

End Reach.
End JsonMore.

(** X15.  The JSON walk only adds: it leaves forms, frameworks,
    components and requests of the findings as they are, and links
    and endpoint entries in place, with what it found behind them.  A
    body without any string value (numbers, booleans and [null] only,
    whatever its keys) adds nothing. *)
Theorem json_walk_only_adds `{UrlApi} (jsonData : JSON) (basePageUrl : string)
  (pd : PageData) :
  forms (extractDataFromJson jsonData basePageUrl pd) = forms pd /\
  reactComponents (extractDataFromJson jsonData basePageUrl pd) = reactComponents pd /\
  jsFrameworks (extractDataFromJson jsonData basePageUrl pd) = jsFrameworks pd /\
  requestsToReplicateForPage (extractDataFromJson jsonData basePageUrl pd)
  = requestsToReplicateForPage pd /\
  extends (links pd) (links (extractDataFromJson jsonData basePageUrl pd)) /\
  extends (endpoints pd) (endpoints (extractDataFromJson jsonData basePageUrl pd)) /\
  (stringless jsonData = true -> extractDataFromJson jsonData basePageUrl pd = pd).
Proof.
  destruct (walk_frame jsonData basePageUrl pd) as (H1 & H2 & H3 & H4 & H5 & H6).
  repeat split; try assumption. apply stringless_walk.
Qed.

(** X16.  The walk reaches every string stored under a key of an
    object, at whatever depth of nesting.  When the key is a sensitive
    one, the marker of the key is among the endpoint entries.  When
    the string looks like a URL and resolves against the page, the
    resolved URL without its fragment is among the links if it begins
    with the origin of the page, and among the endpoint entries as a
    [[JSON_API_RESPONSE]] otherwise. *)
Theorem json_walk_reaches_nested_strings `{UrlApi} (jsonData : JSON)
  (key value basePageUrl : string) (pd : PageData) :
  stringAt key value jsonData ->
  (sensitiveKey key = true ->
   In (sensitiveMarker key basePageUrl)
      (endpoints (extractDataFromJson jsonData basePageUrl pd))) /\
  (forall u b,
      jsonUrlShaped value = true ->
      URL_new value (Some basePageUrl) = Some u ->
      URL_new basePageUrl None = Some b ->
      if Js.startsWith (Js.before "#" (URL_toString u)) (URL_origin b)
      then In (Js.before "#" (URL_toString u))
              (links (extractDataFromJson jsonData basePageUrl pd))
      else In ("[JSON_API_RESPONSE] " ++ Js.before "#" (URL_toString u))%string
              (endpoints (extractDataFromJson jsonData basePageUrl pd))).
Proof.
  intro Hat. split.
  - intro Hkey.
    apply (walk_reaches key value basePageUrl
             (fun pd' => In (sensitiveMarker key basePageUrl) (endpoints pd')));
      [| | |exact Hat].
    + intro pd'. unfold onStringProperty. rewrite Hkey. simpl. apply add_In. now left.
    + intros l pd' Hin. exact Hin.
    + intros e pd' Hin. simpl. apply add_In. now right.
  - intros u b Hshape Hu Hb.
    destruct (Js.startsWith (Js.before "#" (URL_toString u)) (URL_origin b)) eqn:Hscope.
    + apply (walk_reaches key value basePageUrl
               (fun pd' => In (Js.before "#" (URL_toString u)) (links pd')));
        [| | |exact Hat].
      * intro pd'. unfold onStringProperty. rewrite Hshape, Hu, Hb, Hscope.
        destruct (sensitiveKey key); simpl; apply add_In; now left.
      * intros l pd' Hin. simpl. apply add_In. now right.
      * intros e pd' Hin. exact Hin.
    + apply (walk_reaches key value basePageUrl
               (fun pd' => In ("[JSON_API_RESPONSE] " ++ Js.before "#" (URL_toString u))%string
                              (endpoints pd')));
        [| | |exact Hat].
      * intro pd'. unfold onStringProperty. rewrite Hshape, Hu, Hb, Hscope.
        destruct (sensitiveKey key); simpl; repeat (apply add_In; try (now left); right).
      * intros l pd' Hin. exact Hin.
      * intros e pd' Hin. simpl. apply add_In. now right.
Qed.

(** ** The loop over the matches of a pattern *)

(** [search] reports the leftmost match: a split of the text into
    what is in front of the match, the match and what is behind it,
    with no match starting anywhere in front. *)
Lemma search_sound (ci : bool) (r : regex) (s : string) (m : Match) :
  search ci r s = Some m ->
  exists pre,
    s = (pre ++ m0 m ++ after m)%string /\
    (consuming r = true -> m0 m <> EmptyString) /\
    forall p q, pre = (p ++ q)%string -> q <> EmptyString ->
                matchHere ci r (q ++ m0 m ++ after m) = None.
Proof.
  induction s as [|a s IH]; simpl.
  - destruct (matchHere ci r EmptyString) as [m'|] eqn:Hm; [|discriminate].
    intro Heq. inversion Heq. subst m'. apply matchHere_sound in Hm as (Hs & Hn).
    exists EmptyString. repeat split; auto.
    intros p q Hpq Hq. symmetry in Hpq. destruct p; [|discriminate]. simpl in Hpq.
    congruence.
  - destruct (matchHere ci r (String a s)) as [m'|] eqn:Hm.
    + intro Heq. inversion Heq. subst m'. apply matchHere_sound in Hm as (Hs & Hn).
      exists EmptyString. repeat split; auto.
      intros p q Hpq Hq. symmetry in Hpq. destruct p; [|discriminate]. simpl in Hpq.
      congruence.
    + intro Hsearch. apply IH in Hsearch as (pre & Hs & Hn & Hleft).
      exists (String a pre). simpl. rewrite <- Hs. repeat split; auto.
      intros p q Hpq Hq. destruct p as [|b p]; simpl in Hpq.
      * subst q. simpl. now rewrite <- Hs.
      * inversion Hpq. subst. apply (Hleft p q); [reflexivity | assumption].
Qed.

Lemma search_shrinks (ci : bool) (r : regex) (s : string) (m : Match) :
  consuming r = true -> search ci r s = Some m ->
  String.length (after m) < String.length s.
Proof.
  intros Hc Hs. apply search_sound in Hs as (pre & -> & Hn & _).
  rewrite !append_length. specialize (Hn Hc). destruct (m0 m); [congruence|]. simpl. lia.
Qed.

Lemma execAllFrom_fuel (ci : bool) (r : regex) :
  consuming r = true ->
  forall fuel1 fuel2 s,
    String.length s < fuel1 -> String.length s < fuel2 ->
    execAllFrom fuel1 ci r s = execAllFrom fuel2 ci r s.
Proof.
  intro Hc. induction fuel1 as [|fuel1 IH]; intros fuel2 s H1 H2; [lia|].
  destruct fuel2 as [|fuel2]; [lia|]. simpl.
  destruct (search ci r s) as [m|] eqn:Hs; [|reflexivity].
  pose proof (search_shrinks ci r s m Hc Hs). f_equal. apply IH; lia.
Qed.

Lemma execAllFrom_count (ci : bool) (r : regex) :
  consuming r = true ->
  forall fuel s, length (execAllFrom fuel ci r s) <= String.length s.
Proof.
  intro Hc. induction fuel as [|fuel IH]; intro s; simpl; [lia|].
  destruct (search ci r s) as [m|] eqn:Hs; simpl; [|lia].
  pose proof (search_shrinks ci r s m Hc Hs). specialize (IH (after m)). lia.
Qed.

(** X17.  The loop over the matches of a pattern in an inline script
    cannot hang: each of the eight patterns takes at least one
    character with every match, so every match is a non-empty piece of
    the text (the leftmost one from where the search began), a script
    has at most as many matches of a pattern as it has characters, and
    the loop is at its end after that many rounds. *)
Theorem script_patterns_always_advance (ci : bool) (r : regex) (s : string) :
  In (ci, r) patterns ->
  (forall m, search ci r s = Some m ->
             m0 m <> EmptyString /\
             exists pre,
               s = (pre ++ m0 m ++ after m)%string /\
               forall p q, pre = (p ++ q)%string -> q <> EmptyString ->
                           matchHere ci r (q ++ m0 m ++ after m) = None) /\
  length (execAll ci r s) <= String.length s /\
  forall fuel, String.length s < fuel -> execAllFrom fuel ci r s = execAll ci r s.
Proof.
  intro Hin.
  assert (Hc : consuming r = true).
  { unfold patterns in Hin. simpl in Hin.
    repeat (destruct Hin as [Heq|Hin]; [inversion Heq; reflexivity|]). contradiction. }
  split; [|split].
  - intros m Hs. apply search_sound in Hs as (pre & Hs & Hn & Hleft). eauto.
  - now apply execAllFrom_count.
  - intros fuel Hf. unfold execAll. apply execAllFrom_fuel; [assumption|assumption|lia].
Qed.

(** ** Edges of the extraction pass *)

Section PassEdges.
Context `{UrlApi}.

Lemma extractForms_stops (url defaultAction : string) (base : URL)
  (before : list FormElement) (bad : FormElement) (behind : list FormElement)
  (pd : PageData) :
  Forall (fun f => formDetailsOf url defaultAction base f <> None) before ->
  formDetailsOf url defaultAction base bad = None ->
  exists details,
    Forall2 (fun f d => formDetailsOf url defaultAction base f = Some d) before details /\
    extractForms url defaultAction base (before ++ bad :: behind) pd
    = ({| links := links pd; forms := forms pd ++ details; endpoints := endpoints pd;
          reactComponents := reactComponents pd; jsFrameworks := jsFrameworks pd;
          requestsToReplicateForPage := requestsToReplicateForPage pd |}, false).
Proof.
  intros Hbefore Hbad. revert pd.
  induction Hbefore as [|f before Hf _ IH]; intro pd; simpl.
  - rewrite Hbad. exists []. rewrite app_nil_r. split; [constructor|]. now destruct pd.
  - destruct (formDetailsOf url defaultAction base f) as [d|] eqn:Hd; [|congruence].
    destruct (IH (addForm d pd)) as (details & Hall & ->).
    exists (d :: details). split; [now constructor|]. simpl. now rewrite <- app_assoc.
Qed.

Lemma extractLinks_frame (pageUrl : string) (base : URL) (hrefs : list string)
  (pd : PageData) :
  forms (extractLinks pageUrl base hrefs pd) = forms pd /\
  endpoints (extractLinks pageUrl base hrefs pd) = endpoints pd /\
  reactComponents (extractLinks pageUrl base hrefs pd) = reactComponents pd /\
  jsFrameworks (extractLinks pageUrl base hrefs pd) = jsFrameworks pd /\
  requestsToReplicateForPage (extractLinks pageUrl base hrefs pd)
  = requestsToReplicateForPage pd.
Proof.
  unfold extractLinks.
  apply (fold_left_preserves
           (fun pd' => forms pd' = forms pd /\ endpoints pd' = endpoints pd /\
                       reactComponents pd' = reactComponents pd /\
                       jsFrameworks pd' = jsFrameworks pd /\
                       requestsToReplicateForPage pd' = requestsToReplicateForPage pd));
    [|auto].
  intros pd' href Hpd'. destruct (anchorLink pageUrl base href); assumption.
Qed.

Lemma observed_requests (url : string) (net : list NetEvent) (pd : PageData) :
  requestsToReplicateForPage (observed url net pd)
  = (requestsToReplicateForPage pd ++ nonGetRequests net)%list.
Proof.
  unfold observed. revert pd. induction net as [|e net IH]; intro pd; simpl.
  - now rewrite app_nil_r.
  - rewrite IH. rewrite app_assoc. f_equal.
    destruct e as [request|response]; simpl.
    + unfold onRequest.
      destruct (rq_method request =? "GET")%string;
        match goal with |- context [if ?c then _ else _] => destruct c end;
        simpl; now rewrite ?app_nil_r.
    + rewrite app_nil_r. unfold onResponse.
      match goal with |- context [extractDataFromJson _ _ ?p] => set (pd1 := p) end.
      assert (H1 : requestsToReplicateForPage pd1 = requestsToReplicateForPage pd)
        by (subst pd1; match goal with |- context [if ?c then _ else _] => destruct c end;
            reflexivity).
      destruct (rs_contentType response) as [[|c ct]|]; try exact H1.
      destruct (Js.includes (String c ct) "application/json"); [|exact H1].
      destruct (rs_json response) as [json|]; [|exact H1].
      destruct (walk_frame json url pd1) as (_ & _ & _ & -> & _). exact H1.
Qed.

Lemma extractSettled_requests (url : string) (pv : PageView) (pd : PageData) :
  requestsToReplicateForPage (extractSettled url pv pd) = requestsToReplicateForPage pd.
Proof.
  apply (extractSettled_builds
           (fun pd' => requestsToReplicateForPage pd' = requestsToReplicateForPage pd));
    auto.
Qed.

Lemma advanced_requests (url : string) (nav : Navigation) (data : PageData) :
  Advanced.extractInfo url nav = Some data -> requestsToReplicateForPage data = [].
Proof.
  unfold Advanced.extractInfo. destruct (URL_new url None) as [base|]; [|discriminate].
  destruct nav as [|pv]; [intro Heq; now inversion Heq|].
  pose proof (recordFrameworks_builds (fun pd' => requestsToReplicateForPage pd' = []))
    as Hfw.
  specialize (Hfw (fun _ _ Hpd => Hpd) (fun _ _ Hpd => Hpd) pv emptyPageData eq_refl).
  destruct (recordFrameworks pv emptyPageData) as [pd0 [|]]; simpl in Hfw;
    [destruct (pv_dom pv) as [dom|]|]; intro Heq; inversion Heq; subst; try assumption.
  apply (advanced_extractDom_builds (fun pd' => requestsToReplicateForPage pd' = []));
    auto.
Qed.

Lemma exec_requests (script : Script) (s s' : State) (e : Event) :
  Forall (fun r => rq_method r <> "GET"%string) (requestsToReplicate s) ->
  exec script s e = Some s' ->
  Forall (fun r => rq_method r <> "GET"%string) (requestsToReplicate s').
Proof.
  intros Hs Hexec.
  assert (Hkeep : results s' = results s ->
                  Forall (fun r => rq_method r <> "GET"%string) (requestsToReplicate s')).
  { unfold results. intro Hr. inversion Hr as [[H1 H2 H3 H4 H5 H6]]. now rewrite H6. }
  assert (HnonGet : forall net, Forall (fun r => rq_method r <> "GET"%string)
                                  (nonGetRequests net)).
  { intro net. unfold nonGetRequests. apply Forall_forall. intros r Hr.
    apply in_flat_map in Hr as ([request|response] & _ & Hin); [|contradiction].
    destruct (rq_method request =? "GET")%string eqn:Hm; [contradiction|].
    destruct Hin as [<-|[]]. now apply String.eqb_neq. }
  apply exec_cases in Hexec
    as [->|[->|[(url & depth & _ & _ & ->)|[(url & depth & net & nav & _ & _ & ->)|
        [(url & depth & formDetail & rest & newLinks & before & after & pv & _ & _ & ->)|
         (url & depth & newLinks & _ & _ & ->)]]]]]; try (apply Hkeep; reflexivity).
  - apply Hkeep, loopHead_results.
  - destruct (afterInitialPass_cases script url depth net nav s)
      as [(_ & ->)|(data & session & Hdata & -> & _)]; [exact Hs|].
    simpl. apply Forall_app. split; [assumption|].
    unfold initialData in Hdata. destruct script.
    + unfold extractInfoInitial in Hdata. destruct (URL_new url None); [|discriminate].
      destruct nav as [|pv]; inversion Hdata;
        rewrite ?extractSettled_requests, observed_requests; apply HnonGet.
    + rewrite (advanced_requests url nav data Hdata). constructor.
  - destruct (afterFormPass_cases url depth formDetail rest newLinks before after pv s)
      as [->|(post & s1 & newLinks1 & Hpost & Hm & Hrest)]; [exact Hs|].
    apply mergePost_fields in Hm as (_ & _ & _ & _ & _ & _ & _ & _ & _ & _ & _ & Hrq).
    assert (Hs1 : Forall (fun r => rq_method r <> "GET"%string) (requestsToReplicate s1)).
    { rewrite Hrq. apply Forall_app. split; [assumption|].
      unfold extractInfoSubsequent in Hpost. destruct (URL_new after None); [|discriminate].
      inversion Hpost. rewrite extractSettled_requests. constructor. }
    destruct Hrest as [(_ & ->)|(s2 & newLinks2 & session & Had & -> & _)]; [exact Hs1|].
    apply adoptNavigation_fields in Had as (Hr & _).
    unfold results in Hr. inversion Hr as [[H1 H2 H3 H4 H5 H6]]. simpl. now rewrite H6.
  - apply Hkeep. unfold settle. simpl. now destruct (requeue_fields depth newLinks s).
Qed.

End PassEdges.

(** X18.  A form whose action makes [new URL] throw ends the pass of
    part_001 on the spot: the links of the page and the forms in front
    of it are in the findings, and no form behind it, no endpoint from
    an inline script and no resource of the page is. *)
Theorem unparsable_form_action_ends_pass `{UrlApi} (url currentActualUrl : string)
  (base : URL) (dom : Dom) (before : list FormElement) (bad : FormElement)
  (behind : list FormElement) (pd : PageData) :
  d_forms dom = (before ++ bad :: behind)%list ->
  Forall (fun f => formDetailsOf url currentActualUrl base f <> None) before ->
  formDetailsOf url currentActualUrl base bad = None ->
  links (extractDom url currentActualUrl base dom pd)
  = links (extractLinks currentActualUrl base (d_anchors dom) pd) /\
  Forall2 (fun f d => formDetailsOf url currentActualUrl base f = Some d) before
    (skipn (length (forms pd)) (forms (extractDom url currentActualUrl base dom pd))) /\
  firstn (length (forms pd)) (forms (extractDom url currentActualUrl base dom pd))
  = forms pd /\
  endpoints (extractDom url currentActualUrl base dom pd) = endpoints pd /\
  jsFrameworks (extractDom url currentActualUrl base dom pd) = jsFrameworks pd.
Proof.
  intros Hforms Hbefore Hbad. unfold extractDom. rewrite Hforms.
  destruct (extractForms_stops url currentActualUrl base before bad behind
              (extractLinks currentActualUrl base (d_anchors dom) pd) Hbefore Hbad)
    as (details & Hall & ->).
  destruct (extractLinks_frame currentActualUrl base (d_anchors dom) pd)
    as (Hf & He & _ & Hfw & _).
  simpl. rewrite Hf, He, Hfw.
  rewrite skipn_app, skipn_all, Nat.sub_diag, firstn_app, firstn_all, Nat.sub_diag.
  simpl. rewrite app_nil_r. auto.
Qed.

(** X19.  The requests kept for replay are exactly the requests of a
    page that are not [GET] requests, in the order in which they were
    made, as seen by the observers of the initial pass of part_001; a
    pass after a form submission keeps none, and no entry of
    [requests.json] is a [GET] request. *)
Theorem replayable_requests_are_the_non_get_requests `{UrlApi} :
  (forall url net nav data,
      extractInfoInitial url net nav = Some data ->
      requestsToReplicateForPage data = nonGetRequests net) /\
  (forall url pv post,
      extractInfoSubsequent url pv = Some post -> requestsToReplicateForPage post = []) /\
  (forall script startUrl s,
      reachable script startUrl s ->
      Forall (fun r => rq_method r <> "GET"%string) (requestsToReplicate s)).
Proof.
  split; [|split].
  - intros url net nav data. unfold extractInfoInitial.
    destruct (URL_new url None); [|discriminate].
    destruct nav as [|pv]; intro Heq; inversion Heq;
      rewrite ?extractSettled_requests, observed_requests; reflexivity.
  - intros url pv post. unfold extractInfoSubsequent.
    destruct (URL_new url None); [|discriminate].
    intro Heq; inversion Heq. now rewrite extractSettled_requests.
  - intros script startUrl.
    apply (reachable_induction script startUrl
             (fun s => Forall (fun r => rq_method r <> "GET"%string)
                         (requestsToReplicate s))).
    + constructor.
    + intros s e s' _ Hs He. eapply exec_requests; eassumption.
Qed.

(** ** Components and frameworks *)

(** X20.  The component inventory of a page is taken only when
    [detectFrameworks] itself has reported React: on any other page
    the pass of part_001 records no component, whatever the names of
    the resources of the page suggest; and when React is reported and
    the page and its content can be read, every component of the
    inventory is recorded. *)
Theorem components_only_where_react_detected `{UrlApi} (url : string) (pv : PageView)
  (pd : PageData) :
  ((forall fws, pv_frameworks pv = Some fws -> ~ In "React"%string fws) ->
   reactComponents (extractSettled url pv pd) = reactComponents pd) /\
  (forall base fws comps,
      URL_new (pv_url pv) None = Some base ->
      pv_frameworks pv = Some fws -> In "React"%string fws ->
      pv_reactComponents pv = Some comps ->
      forall c, In c comps -> In c (reactComponents (extractSettled url pv pd))).
Proof.
  split.
  - intro Hno. unfold extractSettled.
    destruct (URL_new (pv_url pv) None) as [base|]; [|reflexivity].
    assert (Hfw : reactComponents (fst (recordFrameworks pv pd)) = reactComponents pd).
    { unfold recordFrameworks. destruct (pv_frameworks pv) as [fws|] eqn:Hf; [|reflexivity].
      assert (Hkeep : reactComponents (fold_left (fun pd fw => addFramework fw pd) fws pd)
                      = reactComponents pd)
        by (apply (fold_left_preserves
                     (fun pd' => reactComponents pd' = reactComponents pd)); auto).
      destruct (existsb (String.eqb "React") fws) eqn:Hex; [|exact Hkeep].
      apply existsb_eqb_In in Hex. now elim (Hno fws eq_refl). }
    destruct (recordFrameworks pv pd) as [pd0 [|]]; simpl in Hfw; [|exact Hfw].
    destruct (pv_dom pv) as [dom|]; [|exact Hfw].
    rewrite <- Hfw.
    apply (extractDom_builds (fun pd' => reactComponents pd' = reactComponents pd0)); auto.
  - intros base fws comps Hbase Hf Hreact Hcomps c Hc. unfold extractSettled.
    rewrite Hbase. unfold recordFrameworks. rewrite Hf, Hcomps.
    apply existsb_eqb_In in Hreact. rewrite Hreact.
    assert (Hrec : In c (reactComponents
                           (fold_left (fun pd comp => addReactComponent comp pd) comps
                              (fold_left (fun pd fw => addFramework fw pd) fws pd)))).
    { generalize (fold_left (fun pd fw => addFramework fw pd) fws pd). clear Hcomps.
      induction comps as [|c0 comps IH]; intro pd'; [contradiction|]. simpl.
      destruct Hc as [->|Hc]; [|now apply IH].
      apply (fold_left_preserves (fun pd'' => In c (reactComponents pd''))).
      - intros pd'' c' Hin. simpl. apply add_In. now right.
      - simpl. apply add_In. now left. }
    destruct (pv_dom pv) as [dom|]; [|exact Hrec].
    revert Hrec.
    apply (extractDom_builds (fun pd' => In c (reactComponents pd'))); auto.
Qed.

(** ** Filling and submitting a form *)

Import Submit.

Lemma typeInto_cases (selector v : string) :
  v <> EmptyString -> typeInto selector v = TypeInto selector v.
Proof. destruct v; [congruence | reflexivity]. Qed.

Lemma textValue_nonempty (name : string) : textValue name <> EmptyString.
Proof.
  unfold textValue.
  repeat match goal with |- context [if ?c then _ else _] => destruct c end; discriminate.
Qed.

(** X21.  [submitForm] types only into a field that it can select (by
    id, else by name), that the page has, and whose recorded type is
    one of [text], [textarea], [email], [password], [number], [tel]
    and [url], spelled so; what it types is never empty.  A field of
    type [hidden], a field without id and name, and a field that the
    page does not have are left alone. *)
Theorem only_known_field_types_are_typed (present : string -> option bool)
  (field : InputData) :
  (forall selector valueToFill,
      fieldAction present field = TypeInto selector valueToFill ->
      selectorOf field = Some selector /\ present selector = Some true /\
      valueToFill <> EmptyString /\
      In (in_type field) ["text"; "textarea"; "email"; "password"; "number"; "tel"; "url"]%string)
  /\ (in_type field = "hidden"%string -> fieldAction present field = LeaveAlone)
  /\ (selectorOf field = None -> fieldAction present field = LeaveAlone)
  /\ (forall selector, selectorOf field = Some selector -> present selector <> Some true ->
                       fieldAction present field = LeaveAlone).
Proof.
  unfold fieldAction. split; [|split; [|split]].
  - intros selector v. destruct (selectorOf field) as [sel|]; [|discriminate].
    destruct (present sel) as [[|]|] eqn:Hp; try discriminate.
    pose proof (textValue_nonempty (in_name field)) as Htext.
    repeat (match goal with
            | |- context [(?a =? ?b)%string] =>
                let E := fresh "E" in
                destruct (a =? b)%string eqn:E; [apply String.eqb_eq in E|]
            end; cbn [orb]);
      try discriminate;
      try (rewrite (typeInto_cases sel _ Htext));
      cbn [typeInto];
      intro Heq; inversion Heq; subst;
      (split; [reflexivity|]; split; [assumption|]; split; [assumption || discriminate|]);
      match goal with Ht : in_type field = _ |- In _ _ => rewrite Ht; simpl; tauto end.
  - intros ->. destruct (selectorOf field) as [sel|]; [|reflexivity].
    destruct (present sel) as [[|]|]; reflexivity.
  - intros ->. reflexivity.
  - intros selector -> Hp. destruct (present selector) as [[|]|]; congruence.
Qed.

(** X22.  Fields are told apart by their [type] attribute alone, and
    a field without one is recorded with its tag name: an [input]
    without a [type] attribute, a text box for a browser, is recorded
    as [input] and never filled in, and so is a [button]; a [textarea]
    is typed into, a [select] has an option chosen. *)
Theorem untyped_input_is_never_filled (present : string -> option bool)
  (control : ControlElement) :
  Js.truthy (c_type control) = false ->
  in_type (inputDataOf control) = Js.toLowerCase (c_tagName control) /\
  (Js.toLowerCase (c_tagName control) = "input"%string
   \/ Js.toLowerCase (c_tagName control) = "button"%string ->
   fieldAction present (inputDataOf control) = LeaveAlone) /\
  (forall selector,
      selectorOf (inputDataOf control) = Some selector -> present selector = Some true ->
      (Js.toLowerCase (c_tagName control) = "textarea"%string ->
       fieldAction present (inputDataOf control)
       = TypeInto selector (textValue (in_name (inputDataOf control)))) /\
      (Js.toLowerCase (c_tagName control) = "select"%string ->
       fieldAction present (inputDataOf control)
       = ChooseOption (in_name (inputDataOf control)) (in_id (inputDataOf control)))).
Proof.
  intro Htype.
  assert (Ht : in_type (inputDataOf control) = Js.toLowerCase (c_tagName control)).
  { simpl. destruct (c_type control) as [[|c t]|]; try reflexivity. discriminate. }
  split; [exact Ht|]. split.
  - intro Htag. unfold fieldAction. rewrite Ht.
    destruct (selectorOf (inputDataOf control)) as [sel|]; [|reflexivity].
    destruct (present sel) as [[|]|]; try reflexivity.
    destruct Htag as [-> | ->]; reflexivity.
  - intros selector Hsel Hp. unfold fieldAction. rewrite Hsel, Hp, Ht.
    split; intros ->; simpl; [|reflexivity].
    apply typeInto_cases, textValue_nonempty.
Qed.

Lemma find_first {A : Type} (p : A -> bool) (l : list A) (x : A) :
  find p l = Some x ->
  exists early late,
    l = (early ++ x :: late)%list /\ p x = true /\ forall y, In y early -> p y = false.
Proof.
  induction l as [|a l IH]; simpl; [discriminate|].
  destruct (p a) eqn:Hp.
  - intro Heq. inversion Heq. subst a. exists [], l. repeat split; auto. intros y [].
  - intro Hfind. destruct (IH Hfind) as (early & late & -> & Hx & Hearly).
    exists (a :: early), late. repeat split; auto.
    intros y [<-|Hy]; auto.
Qed.

Lemma firstEligible_spec (query : string -> option (list Button)) (formDetails : FormDetails)
  (selectors : list string) :
  match firstEligible query formDetails selectors with
  | Some btn =>
      exists before sbSelector behind early late,
        selectors = (before ++ sbSelector :: behind)%list /\
        query sbSelector = Some (early ++ btn :: late)%list /\
        eligible formDetails sbSelector btn = true /\
        (forall b, In b early -> eligible formDetails sbSelector b = false) /\
        (forall sel bs b, In sel before -> query sel = Some bs -> In b bs ->
                          eligible formDetails sel b = false)
  | None =>
      forall sel bs b, In sel selectors -> query sel = Some bs -> In b bs ->
                       eligible formDetails sel b = false
  end.
Proof.
  induction selectors as [|sel0 rest IH]; simpl; [intros sel bs b []|].
  assert (Hnone : forall bs0,
             query sel0 = Some bs0 -> find (eligible formDetails sel0) bs0 = None ->
             forall sel bs b, In sel [sel0] -> query sel = Some bs -> In b bs ->
                              eligible formDetails sel b = false).
  { intros bs0 Hq Hfind sel bs b [<-|[]] Hq' Hb. rewrite Hq in Hq'. inversion Hq'. subst.
    now apply (find_none _ _ Hfind). }
  assert (Hrest : (forall sel bs b, In sel [sel0] -> query sel = Some bs -> In b bs ->
                                    eligible formDetails sel b = false) ->
                  match firstEligible query formDetails rest with
                  | Some btn =>
                      exists before sbSelector behind early late,
                        sel0 :: rest = (before ++ sbSelector :: behind)%list /\
                        query sbSelector = Some (early ++ btn :: late)%list /\
                        eligible formDetails sbSelector btn = true /\
                        (forall b, In b early -> eligible formDetails sbSelector b = false) /\
                        (forall sel bs b, In sel before -> query sel = Some bs -> In b bs ->
                                          eligible formDetails sel b = false)
                  | None =>
                      forall sel bs b, In sel (sel0 :: rest) -> query sel = Some bs ->
                                       In b bs -> eligible formDetails sel b = false
                  end).
  { intro H0. destruct (firstEligible query formDetails rest) as [btn|].
    - destruct IH as (before & sbSelector & behind & early & late & -> & Hq & He & Hearly & Hb).
      exists (sel0 :: before), sbSelector, behind, early, late. repeat split; auto.
      intros sel bs b [<-|Hsel]; [apply H0; now left | now apply Hb].
    - intros sel bs b [<-|Hsel]; [apply H0; now left | now apply IH]. }
  destruct (query sel0) as [bs0|] eqn:Hq.
  - destruct (find (eligible formDetails sel0) bs0) as [btn|] eqn:Hfind.
    + apply find_first in Hfind as (early & late & -> & He & Hearly).
      exists [], sel0, rest, early, late. repeat split; auto. intros sel bs b [].
    + apply Hrest. now apply (Hnone bs0).
  - apply Hrest. intros sel bs b [<-|[]] Hq'. congruence.
Qed.

(** X23.  The button that [submitForm] clicks is the first one, in
    the order of the nine selectors and, under one selector, in the
    order in which the page lists its buttons, that stands in the form
    at hand (its form has the id or the name of the form, or the form
    has neither) and looks like a submit button (it was found by a
    selector for [type="submit"] or its label holds one of the eleven
    words): no button of an earlier selector passes both tests, and no
    button listed in front of it under its own selector does.  No
    button is clicked when there is none; and for a form without id
    and name the form of a button plays no part. *)
Theorem submit_button_is_first_eligible (query : string -> option (list Button))
  (formDetails : FormDetails) :
  match submitButton query formDetails with
  | Some btn =>
      exists before sbSelector behind early late,
        submitButtonSelectors formDetails = (before ++ sbSelector :: behind)%list /\
        query sbSelector = Some (early ++ btn :: late)%list /\
        inFormContext formDetails btn = true /\ looksLikeSubmit sbSelector btn = true /\
        (forall b, In b early -> eligible formDetails sbSelector b = false) /\
        (forall sel bs b, In sel before -> query sel = Some bs -> In b bs ->
                          eligible formDetails sel b = false)
  | None =>
      forall sel bs b, In sel (submitButtonSelectors formDetails) ->
                       query sel = Some bs -> In b bs ->
                       eligible formDetails sel b = false
  end /\
  (fm_id formDetails = EmptyString -> fm_name formDetails = EmptyString ->
   forall sbSelector btn,
     eligible formDetails sbSelector btn = looksLikeSubmit sbSelector btn).
Proof.
  split.
  - unfold submitButton.
    pose proof (firstEligible_spec query formDetails (submitButtonSelectors formDetails))
      as Hspec.
    destruct (firstEligible query formDetails (submitButtonSelectors formDetails))
      as [btn|]; [|exact Hspec].
    destruct Hspec as (before & sbSelector & behind & early & late & Hs & Hq & He & Hearly
                       & Hb).
    exists before, sbSelector, behind, early, late.
    unfold eligible in He. apply andb_true_iff in He as (Hc & Hl). auto 10.
  - intros Hid Hname sbSelector btn. unfold eligible, inFormContext.
    rewrite Hid, Hname. simpl. now rewrite orb_true_r.
Qed.

(** ** What the observers of the initial pass record *)

Section Observers.
Context `{UrlApi}.

Lemma addEndpoint_keeps (e e' : string) (pd : PageData) :
  In e (endpoints pd) -> In e (endpoints (addEndpoint e' pd)).
Proof. intro Hin. simpl. apply add_In. now right. Qed.

Lemma observed_keeps (url : string) (net : list NetEvent) (pd : PageData) (e : string) :
  In e (endpoints pd) -> In e (endpoints (observed url net pd)).
Proof.
  apply (observed_builds (fun pd' => In e (endpoints pd'))); auto.
  intros e' pd' _. apply addEndpoint_keeps.
Qed.

Lemma extractSettled_keeps (url : string) (pv : PageView) (pd : PageData) (e : string) :
  In e (endpoints pd) -> In e (endpoints (extractSettled url pv pd)).
Proof.
  apply (extractSettled_builds (fun pd' => In e (endpoints pd'))); auto.
  intros e' pd' _. apply addEndpoint_keeps.
Qed.

Lemma observed_records (url : string) (net : list NetEvent) (pd : PageData)
  (event : NetEvent) (e : string) :
  In event net ->
  (forall pd', In e (endpoints (onNetEvent url event pd'))) ->
  In e (endpoints (observed url net pd)).
Proof.
  intros Hin Hrec. unfold observed. revert pd.
  induction net as [|e0 net IH]; intro pd; [contradiction|]. simpl.
  destruct Hin as [->|Hin]; [|now apply IH].
  apply (observed_keeps url net). apply Hrec.
Qed.

End Observers.

(** X24.  The observers of the initial pass of part_001 keep what
    they have seen whether or not the navigation succeeds: a request
    made as [xhr] or [fetch], or to a URL that holds [/api/] or
    [/graphql], leaves the entry [[INTERCEPTED] <method> <url>], and a
    response with a status below 200 or from 400 on, to a request made
    as [xhr] or [fetch] or from a URL that holds [/api/], leaves the
    entry [[API_ERROR_<status>] <method> <url>]. *)
Theorem observed_calls_are_recorded `{UrlApi} (url : string) (net : list NetEvent)
  (nav : Navigation) (data : PageData) :
  extractInfoInitial url net nav = Some data ->
  (forall request,
      In (NetRequest request) net ->
      apiShaped (rq_resourceType request) (rq_url request)
      || Js.includes (rq_url request) "/graphql" = true ->
      In ("[INTERCEPTED] " ++ rq_method request ++ " " ++ rq_url request)%string
         (endpoints data)) /\
  (forall response,
      In (NetResponse response) net ->
      apiShaped (rq_resourceType (rs_request response)) (rs_url response) = true ->
      rs_status response < 200 \/ 400 <= rs_status response ->
      In ("[API_ERROR_" ++ Js.ofNat (rs_status response) ++ "] "
          ++ rq_method (rs_request response) ++ " " ++ rs_url response)%string
         (endpoints data)).
Proof.
  unfold extractInfoInitial. destruct (URL_new url None); [|discriminate].
  intro Hdata.
  assert (Hend : forall e, In e (endpoints (observed url net emptyPageData)) ->
                           In e (endpoints data)).
  { intros e He. destruct nav as [|pv]; inversion Hdata; [exact He|].
    now apply extractSettled_keeps. }
  split.
  - intros request Hin Hshape. apply Hend.
    apply (observed_records url net emptyPageData (NetRequest request)); [exact Hin|].
    intro pd'. simpl. unfold onRequest. rewrite Hshape. simpl. apply add_In. now left.
  - intros response Hin Hshape Hstatus. apply Hend.
    apply (observed_records url net emptyPageData (NetResponse response)); [exact Hin|].
    intro pd'. simpl. unfold onResponse. rewrite Hshape.
    assert (Hs : (rs_status response <? 200) || (400 <=? rs_status response) = true).
    { apply orb_true_iff. destruct Hstatus as [Hlow|Hhigh];
        [left; now apply Nat.ltb_lt | right; now apply Nat.leb_le]. }
    rewrite Hs. cbn [andb].
    match goal with |- context [addEndpoint ?entry pd'] =>
      set (pd1 := addEndpoint entry pd');
      assert (Hhere : In entry (endpoints pd1))
        by (subst pd1; apply add_In; now left);
      clearbody pd1
    end.
    destruct (rs_contentType response) as [[|c ct]|]; try exact Hhere.
    destruct (Js.includes (String c ct) "application/json"); [|exact Hhere].
    destruct (rs_json response) as [json|]; [|exact Hhere].
    destruct (walk_frame json url pd1) as (_ & _ & _ & _ & _ & (more & ->)).
    apply in_app_iff. now left.
Qed.

Lemma mergePostLinks_order (ls : list string) (found : Js.SetOf string)
  (newLinks : list string) :
  mergePostLinks ls found newLinks
  = ((found ++ firstOccurrences (filter (fun l => negb (Js.has l found)) ls))%list,
     (newLinks ++ firstOccurrences (filter (fun l => negb (Js.has l found)) ls))%list).
Proof.
  revert found newLinks. induction ls as [|link rest IH]; intros found newLinks.
  - simpl. now rewrite !app_nil_r.
  - cbn [mergePostLinks filter]. destruct (Js.has link found) eqn:Hhas; simpl negb; cbv iota.
    + apply IH.
    + assert (Hadd : Js.add link found = (found ++ [link])%list).
      { destruct (set_add_appends string_dec link found) as [Hsame|(_ & Happ)];
          [|exact Happ].
        exfalso. apply has_false in Hhas. apply Hhas.
        unfold Js.add in Hsame. rewrite <- Hsame. apply set_add_intro2. reflexivity. }
      rewrite IH, Hadd. cbn [firstOccurrences]. rewrite <- !app_assoc. cbn [app].
      rewrite <- firstOccurrences_filter, filter_filter.
      assert (Hfilter : filter (fun l => negb (Js.has l (found ++ [link])%list)) rest
                        = filter (fun l => negb (Js.has l found) && negb (link =? l)%string)
                            rest)
        by (apply filter_ext; intro l; now rewrite has_app_one, negb_orb).
      now rewrite Hfilter.
Qed.

(** X25.  After a form submission the session hands to the queue
    what the run had not recorded yet: the links of the page that
    were not in [linksFound], each once and in the order in which the
    pass found them, are put behind [linksFound] and behind the links
    of the session, and nothing else is. *)
Theorem post_form_links_are_the_new_links `{UrlApi} (post : PageData)
  (newLinks : list string) (s s1 : State) (newLinks1 : list string) :
  NoDup (linksFound s) ->
  mergePost post newLinks s = (s1, newLinks1) ->
  exists added,
    linksFound s1 = (linksFound s ++ added)%list /\
    newLinks1 = (newLinks ++ added)%list /\
    added
    = firstOccurrences (filter (fun l => negb (Js.has l (linksFound s))) (links post)) /\
    NoDup added /\
    (forall l, In l added <-> In l (links post) /\ ~ In l (linksFound s)) /\
    NoDup (linksFound s1).
Proof.
  intros Hnd Hm.
  apply mergePost_fields in Hm as (_ & _ & _ & _ & _ & _ & _ & Hl1 & _).
  destruct (mergePostLinks_exact (links post) (linksFound s) newLinks Hnd)
    as (added & Hexact & Hnd' & Hin).
  rewrite Hexact in Hl1. injection Hl1 as Hl1' Hn1.
  exists added. rewrite Hl1'.
  split; [reflexivity|]. split; [assumption|].
  split.
  { rewrite mergePostLinks_order in Hexact. injection Hexact as Hfound _.
    symmetry. now apply app_inv_head in Hfound. }
  split; [now apply NoDup_app_remove_l in Hnd'|]. split; assumption.
Qed.

(** X26.  A URL is in [visited] from the moment its session starts,
    whatever becomes of the session: when the browser cannot open a
    page for it, nothing is recorded and no link is returned, and the
    URL is listed in [crawledUrls] all the same, for the rest of the
    run. *)
Theorem failed_page_still_counts_as_crawled `{UrlApi} (script : Script)
  (startUrl : string) (s s' : State) (url : string) :
  reachable script startUrl s ->
  exec script s (PageFails url) = Some s' ->
  results s' = results s /\ queue s' = queue s /\
  (exists depth,
      mapGet url (activePages s') = Some {| t_depth := depth; t_session := Closing [] |}) /\
  forall tr s'',
    execTrace script s' tr = Some s'' -> In url (sm_crawledUrls (summaryReport s'')).
Proof.
  intros Hr He.
  assert (Hvis : In url (visited s)).
  { simpl in He. session_of url s Hget.
    destruct Hr as (tr0 & Htr0).
    pose proof (execTrace_tracked script tr0 _ s (initial_tracked startUrl) Htr0)
      as (Hkeys & _).
    destruct (reachable_processed script startUrl s (ex_intro _ tr0 Htr0)) as (_ & Hall).
    rewrite Forall_forall in Hall.
    assert (Hin : In url (map item_url (processed s)))
      by (apply Hkeys; eapply mapGet_key; eassumption).
    apply in_map_iff in Hin as (it & <- & Hit). now apply Hall. }
  simpl in He. session_of url s Hget. inversion He. subst s'.
  split; [reflexivity|]. split; [reflexivity|].
  split; [exists depth; simpl; apply mapGet_mapSet_same|].
  intros tr s'' Htr.
  apply execTrace_visited_extends in Htr as (more & Hv). simpl in *.
  rewrite Hv, in_app_iff. now left.
Qed.

(** ** The further properties on concrete inputs *)

Section FurtherEvaluation.
#[local] Existing Instance Whatwg.api.
Import Demo Sample Submit.

(** X4 (witness): the redirected run from its second step on. *)
Lemma findings_append_only_witness : appended settling redirectedEnd.
Proof.
  apply (@findings_append_only Whatwg.api FormCrawler "https://a.test/"
           untilSettling (skipn 2 redirectedRun) settling redirectedEnd).
  - vm_compute. reflexivity.
  - vm_compute. reflexivity.
Defined.

(** X6 (witness). *)
Lemma counter_counts_sessions_witness :
  urlCounter redirectedEnd = length (processed redirectedEnd).
Proof.
  apply (@counter_counts_sessions Whatwg.api FormCrawler "https://a.test/").
  exists redirectedRun. vm_compute. reflexivity.
Defined.

(** X7 (witness). *)
Lemma queue_holds_each_url_once_witness : NoDup (queuedUrls settled).
Proof.
  apply (@queue_holds_each_url_once Whatwg.api FormCrawler "https://a.test/").
  exists (firstn 3 redirectedRun). vm_compute. reflexivity.
Defined.

(** X8 (witness): the first session of the redirected run settles. *)
Lemma settle_enqueues_exactly_witness :
  exists depth newLinks added,
    mapGet "https://a.test/" (activePages settling)
    = Some {| t_depth := depth; t_session := Closing newLinks |} /\
    queue settled
    = (queue settling
       ++ map (fun l => {| item_url := l; item_depth := depth + 1 |}) added)%list /\
    added
    = (if depth <? MAX_DEPTH
       then firstOccurrences
              (filter (fun l => negb (Js.has l (visited settling))
                                && negb (Js.has l (queuedUrls settling))) newLinks)
       else []) /\
    NoDup added /\
    (forall l, In l added <->
               In l newLinks /\ ~ In l (visited settling) /\ ~ In l (queuedUrls settling)
               /\ depth < MAX_DEPTH) /\
    mapGet "https://a.test/" (activePages settled) = None /\
    (forall u, u <> "https://a.test/"%string ->
               mapGet u (activePages settled) = mapGet u (activePages settling)) /\
    visited settled = visited settling /\ results settled = results settling /\
    coordinator settled = coordinator settling.
Proof.
  apply (@settle_enqueues_exactly Whatwg.api FormCrawler settling settled "https://a.test/").
  vm_compute. reflexivity.
Defined.

(** X9 (witness). *)
Lemma sessions_only_for_recorded_links_witness :
  (forall it, In it (processed redirectedEnd) ->
              item_url it = "https://a.test/"%string
              \/ In (item_url it) (linksFound redirectedEnd)) /\
  (forall it, In it (queue redirectedEnd) ->
              item_url it = "https://a.test/"%string
              \/ In (item_url it) (linksFound redirectedEnd)).
Proof.
  apply (@sessions_only_for_recorded_links Whatwg.api FormCrawler "https://a.test/").
  exists redirectedRun. vm_compute. reflexivity.
Defined.

(** X10 (witness). *)
Lemma crawled_urls_are_sessions_or_form_targets_witness :
  NoDup (sm_crawledUrls (summaryReport redirectedEnd)) /\
  (forall u, In u (sm_crawledUrls (summaryReport redirectedEnd)) ->
             In u (map item_url (processed redirectedEnd))
             \/ In u (formTargets redirectedRun)) /\
  (forall it, In it (processed redirectedEnd) ->
              In (item_url it) (sm_crawledUrls (summaryReport redirectedEnd))) /\
  (forall tr' s', execTrace FormCrawler redirectedEnd tr' = Some s' ->
                  extends (sm_crawledUrls (summaryReport redirectedEnd))
                    (sm_crawledUrls (summaryReport s'))).
Proof.
  apply (@crawled_urls_are_sessions_or_form_targets Whatwg.api FormCrawler "https://a.test/").
  vm_compute. reflexivity.
Defined.

(** X11 (witness). *)
Lemma start_url_is_processed_first_witness :
  (exists rest,
      processed redirectedEnd
      = {| item_url := "https://a.test/"; item_depth := 0 |} :: rest) /\
  (exists rest, sm_crawledUrls (summaryReport redirectedEnd) = "https://a.test/"%string :: rest).
Proof.
  apply (@start_url_is_processed_first Whatwg.api FormCrawler "https://a.test/"
           redirectedRun).
  - vm_compute. reflexivity.
  - discriminate.
Defined.

(** X12 (witness): the link that the first session of the redirected
    run returned. *)
Lemma returned_links_are_crawled_witness :
  In "https://b.test/x"%string (sm_crawledUrls (summaryReport redirectedEnd)).
Proof.
  apply (@returned_links_are_crawled Whatwg.api FormCrawler "https://a.test/"
           untilSettling afterSettling settling settled redirectedEnd "https://a.test/" 0
           ["https://b.test/x"%string]).
  - vm_compute. reflexivity.
  - vm_compute. reflexivity.
  - unfold MAX_DEPTH. lia.
  - vm_compute. reflexivity.
  - vm_compute. reflexivity.
  - reflexivity.
  - simpl. auto.
Defined.

(** X13 (witness). *)
Lemma links_txt_without_fragments_witness :
  NoDup (links_txt (saveResults redirectedEnd)) /\
  length (links_txt (saveResults redirectedEnd)) = sm_totalLinks (summaryReport redirectedEnd)
  /\ Forall (fun l => Js.hasChar l "#" = false) (links_txt (saveResults redirectedEnd)).
Proof.
  apply (@links_txt_without_fragments Whatwg.api FormCrawler "https://a.test/").
  exists redirectedRun. vm_compute. reflexivity.
Defined.

(** X14 (witness): a run that records the marker of a sensitive key. *)
Lemma endpoint_entries_are_tagged_witness :
  NoDup (endpointsFound tokenEnd) /\
  Forall (fun e => tagged e = true) (endpointsFound tokenEnd).
Proof.
  apply (@endpoint_entries_are_tagged Whatwg.api FormCrawler "https://a.test/").
  exists tokenRun. vm_compute. reflexivity.
Defined.

(** X16 (witness): the token two levels down. *)
Lemma json_walk_reaches_nested_strings_witness :
  In (sensitiveMarker "accessToken" "https://a.test/")
     (endpoints (extractDataFromJson nestedBody "https://a.test/" emptyPageData)).
Proof.
  assert (Hat : stringAt "accessToken" "abc" nestedBody).
  { unfold nestedBody. eapply below_property; [right; left; reflexivity|].
    eapply below_item; [left; reflexivity|]. apply at_property. left. reflexivity. }
  apply (proj1 (@json_walk_reaches_nested_strings Whatwg.api nestedBody "accessToken" "abc"
                  "https://a.test/" emptyPageData Hat)).
  reflexivity.
Defined.

(** X17 (witness): the pattern for [/api/] paths on a short script. *)
Lemma script_patterns_always_advance_witness :
  length (execAll false pattern5 "get('/api/users'); get('/api/posts')")
  <= String.length "get('/api/users'); get('/api/posts')".
Proof.
  assert (Hin : In (false, pattern5) patterns) by (simpl; tauto).
  apply (proj1 (proj2 (script_patterns_always_advance false pattern5
                         "get('/api/users'); get('/api/posts')" Hin))).
Defined.

(** X18 (witness): the page whose second form has a broken action. *)
Lemma unparsable_form_action_ends_pass_witness :
  links (extractDom requestedUrl "https://a.test/p/x" landedBase brokenFormDom emptyPageData)
  = ["https://a.test/a"%string] /\
  endpoints (extractDom requestedUrl "https://a.test/p/x" landedBase brokenFormDom
               emptyPageData) = [].
Proof.
  destruct (@unparsable_form_action_ends_pass Whatwg.api requestedUrl "https://a.test/p/x"
              landedBase brokenFormDom [searchForm] brokenAction [bareForm] emptyPageData)
    as (Hlinks & _ & _ & Hendpoints & _).
  - reflexivity.
  - constructor; [vm_compute; discriminate | constructor].
  - vm_compute. reflexivity.
  - split; [rewrite Hlinks; vm_compute; reflexivity | exact Hendpoints].
Defined.

(** X22 (witness): the text box without a [type] attribute. *)
Lemma untyped_input_is_never_filled_witness :
  fieldAction (fun _ => Some true) (inputDataOf untypedInput) = LeaveAlone.
Proof.
  apply (proj1 (proj2 (untyped_input_is_never_filled (fun _ => Some true) untypedInput
                         eq_refl))).
  left. reflexivity.
Defined.

(** X24 (witness): the failing GraphQL call of a page that did not
    load. *)
Lemma observed_calls_are_recorded_witness :
  In "[INTERCEPTED] POST https://a.test/graphql"%string (endpoints apiFindings) /\
  In "[API_ERROR_500] POST https://a.test/graphql"%string (endpoints apiFindings).
Proof.
  destruct (@observed_calls_are_recorded Whatwg.api "https://a.test/" apiCalls GotoThrows
              apiFindings eq_refl) as (Hrequest & Hresponse).
  split.
  - apply (Hrequest graphqlRequest); [right; left; reflexivity | reflexivity].
  - apply (Hresponse graphqlFailure); [right; right; left; reflexivity | reflexivity|].
    right. simpl. lia.
Defined.

(** X25 (witness). *)
Lemma post_form_links_are_the_new_links_witness :
  exists added,
    linksFound (fst merged) = (linksFound settling ++ added)%list /\
    snd merged = (["https://b.test/x"%string] ++ added)%list /\
    added
    = firstOccurrences
        (filter (fun l => negb (Js.has l (linksFound settling))) (links postFindings)) /\
    NoDup added /\
    (forall l, In l added <-> In l (links postFindings) /\ ~ In l (linksFound settling)) /\
    NoDup (linksFound (fst merged)).
Proof.
  apply (@post_form_links_are_the_new_links Whatwg.api postFindings
           ["https://b.test/x"%string] settling (fst merged) (snd merged)).
  - vm_compute. constructor; [intros []|constructor].
  - vm_compute. reflexivity.
Defined.

(** X26 (witness): the start page cannot be opened. *)
Lemma failed_page_still_counts_as_crawled_witness :
  results pageFailed = results (dispatchedOnly "https://a.test/") /\
  queue pageFailed = queue (dispatchedOnly "https://a.test/") /\
  (exists depth,
      mapGet "https://a.test/" (activePages pageFailed)
      = Some {| t_depth := depth; t_session := Closing [] |}) /\
  forall tr s'',
    execTrace FormCrawler pageFailed tr = Some s'' ->
    In "https://a.test/"%string (sm_crawledUrls (summaryReport s'')).
Proof.
  apply (@failed_page_still_counts_as_crawled Whatwg.api FormCrawler "https://a.test/"
           (dispatchedOnly "https://a.test/") pageFailed "https://a.test/").
  - exists [CoordinatorTurn]. vm_compute. reflexivity.
  - vm_compute. reflexivity.
Defined.

End FurtherEvaluation.
